(** * examples/export.py: the sparse im2col patch extractor and its export glue

    A shallow embedding of [normalize_color], [EnsureDirExists],
    [im2col_3d], the forward hook [in_hook], the weight export and the
    label tables of [examples/export.py].

    Tensors are logical n-dimensional arrays: a shape and an element
    function on multi-indices.  Every tensor the script creates or
    mutates lives in a heap of objects and is reached through its
    address, so that in-place writes ([t[...] = v], [t /= c]) and
    aliasing are visible.  Python exceptions are values of [exn].

    Elements are abstract: [im2col_3d] only copies them.  The feature
    tensor is taken to have torch's default dtype, like the tensors made
    by [torch.zeros], so that the copies are exact. *)

From Stdlib Require Import ZArith QArith Lia String DecimalString DecimalZ.
From stdpp Require Import base tactics option list numbers.
From stdpp Require strings gmap.

Local Open Scope Z_scope.

(** ** Exceptions *)

Inductive exn : Type :=
| AssertionError (msg : string)
| IndexError
| RuntimeError
| ValueError
| ZeroDivisionError.

(** The scalar a fresh tensor is filled with. *)
Class Zero (A : Type) := zero : A.

(** ** State and exceptions

    A computation runs on a state [St] (the heap) and ends with a value
    or with a raised exception; the state reached is kept either way. *)

Definition M (St A : Type) : Type := St -> St * (exn + A).

Definition ret {St A} (a : A) : M St A := fun h => (h, inr a).

Definition raise {St A} (e : exn) : M St A := fun h => (h, inl e).

Definition bind {St A B} (m : M St A) (k : A -> M St B) : M St B :=
  fun h => match m h with
           | (h', inr a) => k a h'
           | (h', inl e) => (h', inl e)
           end.

Definition lift {St A} (r : exn + A) : M St A :=
  match r with inl e => raise e | inr a => ret a end.

Definition assert {St} (b : bool) (msg : string) : M St unit :=
  if b then ret tt else raise (AssertionError msg).

Fixpoint for_each {St A} (l : list A) (body : A -> M St unit) : M St unit :=
  match l with
  | [] => ret tt
  | a :: l' => bind (body a) (fun _ => for_each l' body)
  end.

(** The computation [m] never ends with the exception [e]. *)
Definition never_raises {St A} (e : exn) (m : M St A) : Prop :=
  forall st, snd (m st) <> inl e.

Declare Scope monad_scope.
Delimit Scope monad_scope with monad.
Notation "x <- m ;; k" := (bind m (fun x => k))
  (at level 100, m at next level, right associativity) : monad_scope.
Notation "m ;; k" := (bind m (fun _ => k))
  (at level 100, right associativity) : monad_scope.
Open Scope monad_scope.

(** [range(0, n)] *)
Definition range (n : Z) : list Z := seqZ 0 n.

(** Addresses of heap objects. *)
Abbreviation addr := nat (only parsing).

Section Model.
Context {elt : Type} `{!Zero elt}.

(** ** Logical tensors *)

Record tensor : Type := Tensor {
  shape : list Z;
  get : list Z -> elt
}.

(** A sparse tensor of three spatial dimensions: row [i] of
    [coordinates] is [(batch, z, y, x)], row [i] of the [N x C] tensor
    [features] is its feature vector. *)
Record SparseTensor : Type := {
  coordinates : list (Z * Z * Z * Z);
  features : tensor;
  tensor_stride : Z * Z * Z
}.

Inductive obj : Type :=
| OSparse (s : SparseTensor)
| ODense (t : tensor).

(** The heap is the list of the objects allocated so far; an address
    is a position in it. *)
Local Abbreviation heap := (list obj).

(** ** Heap operations *)

Definition alloc (o : obj) : M heap addr := fun h => (h ++ [o], inr (length h)).

Definition load_dense (a : addr) : M heap tensor :=
  fun h => match h !! a with
           | Some (ODense t) => (h, inr t)
           | _ => (h, inl RuntimeError)
           end.

Definition load_sparse (a : addr) : M heap SparseTensor :=
  fun h => match h !! a with
           | Some (OSparse s) => (h, inr s)
           | _ => (h, inl RuntimeError)
           end.

Definition store (a : addr) (o : obj) : M heap unit :=
  fun h => (<[a := o]> h, inr tt).

(** ** Index arithmetic *)

(** Number of elements of a shape. *)
Definition numel (shp : list Z) : Z := foldr Z.mul 1 shp.

(** Row-major offset of a multi-index, and back. *)
Fixpoint ravel (shp idx : list Z) : Z :=
  match shp, idx with
  | _ :: shp', i :: idx' => i * numel shp' + ravel shp' idx'
  | _, _ => 0
  end.

Fixpoint unravel (shp : list Z) (off : Z) : list Z :=
  match shp with
  | [] => []
  | _ :: shp' => off / numel shp' :: unravel shp' (off mod numel shp')
  end.

(** An integer index into an axis of [size] cells: negative indices
    count from the end, anything else outside is an [IndexError]. *)
Definition norm_index (size i : Z) : exn + Z :=
  if (0 <=? i) && (i <? size) then inr i
  else if (- size <=? i) && (i <? 0) then inr (i + size)
  else inl IndexError.

(** [math.ceil(a / b)] on integers. *)
Definition ceil_div (a b : Z) : Z := - ((- a) / b).

(** Python's [a // b] on integer tensors. *)
Definition floordiv (a b : Z) : M heap Z :=
  if b =? 0 then raise ZeroDivisionError else ret (a / b).

(** Length of the slice [start:stop:step] of an axis of [dim] cells,
    for [0 <= start], [0 <= stop] and [0 < step]: both ends are clamped
    to the axis. *)
Definition slice_len (start stop step dim : Z) : Z :=
  Z.max 0 (ceil_div (Z.min stop dim - Z.min start dim) step).

(** ** torch operations *)

(** [torch.zeros(shp)] *)
Definition torch_zeros (shp : list Z) : M heap addr :=
  if forallb (fun d => 0 <=? d) shp
  then alloc (ODense {| shape := shp; get := fun _ => zero |})
  else raise RuntimeError.

(** [t.size()] unpacked into five names. *)
Definition size5 (a : addr) : M heap (Z * Z * Z * Z * Z) :=
  bind (load_dense a) (fun t =>
  match shape t with
  | [b; c; d; h; w] => ret (b, c, d, h, w)
  | _ => raise ValueError
  end).

(** [torch.nn.functional.pad(t, (p, p, p, p, p, p))]: the last three
    axes grow by [p] zero cells on both sides; the result is a new
    tensor. *)
Definition pad_get (t : tensor) (p : Z) (idx : list Z) : elt :=
  match shape t, idx with
  | [_; _; d; h; w], [b; c; z; y; x] =>
      if (p <=? z) && (z <? d + p) && (p <=? y) && (y <? h + p)
         && (p <=? x) && (x <? w + p)
      then get t [b; c; z - p; y - p; x - p]
      else zero
  | _, _ => zero
  end.

Definition pad_shape (shp : list Z) (p : Z) : list Z :=
  match shp with
  | [b; c; d; h; w] => [b; c; d + 2 * p; h + 2 * p; w + 2 * p]
  | _ => shp
  end.

Definition pad (a : addr) (p : Z) : M heap addr :=
  bind (load_dense a) (fun t =>
  match shape t with
  | [_; _; _; _; _] =>
      alloc (ODense {| shape := pad_shape (shape t) p; get := pad_get t p |})
  | _ => raise RuntimeError
  end).

(** [t[:, :, z:z_max:s, y:y_max:s, x:x_max:s]], a view of [t]. *)
Definition slice3 (t : tensor) (z z_max y y_max x x_max s : Z) : exn + tensor :=
  match shape t with
  | [b; c; d; h; w] =>
      inr {| shape := [b; c; slice_len z z_max s d; slice_len y y_max s h;
                       slice_len x x_max s w];
             get := fun idx =>
               match idx with
               | [ib; ic; iz; iy; ix] =>
                   get t [ib; ic; z + iz * s; y + iy * s; x + ix * s]
               | _ => zero
               end |}
  | _ => inl IndexError
  end.

(** [t[:, :, z, y, x, :, :, :] = v], in place.  The value must have the
    shape of the slab (the script never relies on broadcasting). *)
Definition set_slot (t : tensor) (z y x : Z) (v : tensor) : tensor :=
  {| shape := shape t;
     get := fun idx =>
       match idx with
       | [b; c; kz; ky; kx; oz; oy; ox] =>
           if (kz =? z) && (ky =? y) && (kx =? x)
           then get v [b; c; oz; oy; ox]
           else get t idx
       | _ => get t idx
       end |}.

Definition setitem_slot (a : addr) (z y x : Z) (v : tensor) : M heap unit :=
  bind (load_dense a) (fun t =>
  match shape t with
  | [b; c; k1; k2; k3; od; oh; ow] =>
      bind (lift (norm_index k1 z)) (fun z' =>
      bind (lift (norm_index k2 y)) (fun y' =>
      bind (lift (norm_index k3 x)) (fun x' =>
      if decide (shape v = [b; c; od; oh; ow])
      then store a (ODense (set_slot t z' y' x' v))
      else raise RuntimeError)))
  | _ => raise IndexError
  end).

(** [t[batch, :, :, :, :, z, y, x]], a view of [t]. *)
Definition getitem_loc (t : tensor) (batch z y x : Z) : exn + tensor :=
  match shape t with
  | [b; c; k1; k2; k3; od; oh; ow] =>
      match norm_index b batch, norm_index od z, norm_index oh y,
            norm_index ow x with
      | inr b', inr z', inr y', inr x' =>
          inr {| shape := [c; k1; k2; k3];
                 get := fun idx =>
                   match idx with
                   | [ic; kz; ky; kx] => get t [b'; ic; kz; ky; kx; z'; y'; x']
                   | _ => zero
                   end |}
      | _, _, _, _ => inl IndexError
      end
  | _ => inl IndexError
  end.

(** [t[batch, :, :, :, :, z, y, x] = v], in place. *)
Definition set_loc (t : tensor) (b z y x : Z) (v : tensor) : tensor :=
  {| shape := shape t;
     get := fun idx =>
       match idx with
       | [ib; c; kz; ky; kx; oz; oy; ox] =>
           if (ib =? b) && (oz =? z) && (oy =? y) && (ox =? x)
           then get v [c; kz; ky; kx]
           else get t idx
       | _ => get t idx
       end |}.

Definition setitem_loc (a : addr) (batch z y x : Z) (v : tensor) : M heap unit :=
  bind (load_dense a) (fun t =>
  match shape t with
  | [b; c; k1; k2; k3; od; oh; ow] =>
      match norm_index b batch, norm_index od z, norm_index oh y,
            norm_index ow x with
      | inr b', inr z', inr y', inr x' =>
          if decide (shape v = [c; k1; k2; k3])
          then store a (ODense (set_loc t b' z' y' x' v))
          else raise RuntimeError
      | _, _, _, _ => raise IndexError
      end
  | _ => raise IndexError
  end).

(** The shape [t.view(req)] resolves to: at most one entry of [req] is
    [-1] and is inferred from the number of elements. *)
Definition infer_shape (n : Z) (req : list Z) : option (list Z) :=
  let known := numel (filter (fun d => d <> -1) req) in
  if negb (forallb (fun d => -1 <=? d) req) then None
  else match length (filter (fun d => d = -1) req) with
       | O => if numel req =? n then Some req else None
       | S O =>
           if known =? 0 then None
           else if n mod known =? 0
                then Some (map (fun d => if d =? -1 then n / known else d) req)
                else None
       | _ => None
       end.

(** [t.view(req)] of a contiguous tensor: same elements in row-major
    order under another shape. *)
Definition view (t : tensor) (req : list Z) : exn + tensor :=
  match infer_shape (numel (shape t)) req with
  | Some shp =>
      inr {| shape := shp;
             get := fun idx => get t (unravel (shape t) (ravel shp idx)) |}
  | None => inl RuntimeError
  end.

Definition swap (i j : nat) (l : list Z) : list Z :=
  <[i := nth j l 0]> (<[j := nth i l 0]> l).

(** [t.transpose(i, j)] *)
Definition transpose (i j : nat) (t : tensor) : exn + tensor :=
  if decide (i < length (shape t) /\ j < length (shape t))%nat
  then inr {| shape := swap i j (shape t);
              get := fun idx => get t (swap i j idx) |}
  else inl IndexError.

(** [t.contiguous()] of a transposed tensor: a new tensor with the same
    logical content. *)
Definition contiguous (t : tensor) : M heap addr := alloc (ODense t).

(** [t.cpu().numpy()] of a 2-D tensor, as the list of its rows. *)
Definition to_matrix (t : tensor) : list (list elt) :=
  match shape t with
  | [r; c] => map (fun i => map (fun j => get t [i; j]) (seqZ 0 c)) (seqZ 0 r)
  | _ => []
  end.

(** ** Densification *)

(** The local grid index of a coordinate row:
    [(coordinate - min_coordinate) // tensor_stride] on every spatial
    axis; the batch index is kept. *)
Definition local_index (mc ts : Z * Z * Z) (crd : Z * Z * Z * Z)
  : Z * Z * Z * Z :=
  let '(b, z, y, x) := crd in
  let '(m0, m1, m2) := mc in
  let '(t0, t1, t2) := ts in
  (b, (z - m0) / t0, (y - m1) / t1, (x - m2) / t2).

Definition loc_b (l : Z * Z * Z * Z) : Z := fst (fst (fst l)).
Definition loc_z (l : Z * Z * Z * Z) : Z := snd (fst (fst l)).
Definition loc_y (l : Z * Z * Z * Z) : Z := snd (fst l).
Definition loc_x (l : Z * Z * Z * Z) : Z := snd l.

(** One more than the largest index, for indices that are not negative. *)
Definition extent (l : list Z) : Z := 1 + foldr Z.max 0 l.

Definition dense_shape (nchannels : Z) (locs : list (Z * Z * Z * Z))
  : list Z :=
  [extent (map loc_b locs); nchannels; extent (map loc_z locs);
   extent (map loc_y locs); extent (map loc_x locs)].

(** [g[b, :, z, y, x] = row] *)
Definition put_row (g : list Z -> elt) (l : Z * Z * Z * Z) (row : Z -> elt)
  : list Z -> elt :=
  fun idx =>
    match idx with
    | [b; c; z; y; x] =>
        if (b =? loc_b l) && (z =? loc_z l) && (y =? loc_y l) && (x =? loc_x l)
        then row c else g idx
    | _ => g idx
    end.

(** Feature rows [i, i+1, ...] written to their cells in row order. *)
Fixpoint scatter (F : tensor) (i : Z) (locs : list (Z * Z * Z * Z))
  (g : list Z -> elt) : list Z -> elt :=
  match locs with
  | [] => g
  | l :: locs' => scatter F (i + 1) locs' (put_row g l (fun c => get F [i; c]))
  end.

(** [l.max() + 1] of a list that is not empty. *)
Definition max_plus_1 (l : list Z) : Z := 1 + foldr Z.max (hd 0 l) l.

Definition index_shape (nchannels : Z) (locs : list (Z * Z * Z * Z))
  : list Z :=
  [max_plus_1 (map loc_b locs); nchannels; max_plus_1 (map loc_z locs);
   max_plus_1 (map loc_y locs); max_plus_1 (map loc_x locs)].

(** The cell an index tuple [(b, z, y, x)] selects in a grid of shape
    [shp]: each index may count from the end of its axis. *)
Definition cell_of (shp : list Z) (l : Z * Z * Z * Z)
  : exn + Z * Z * Z * Z :=
  match shp with
  | [nb; _; nz; ny; nx] =>
      match norm_index nb (loc_b l), norm_index nz (loc_z l),
            norm_index ny (loc_y l), norm_index nx (loc_x l) with
      | inr b, inr z, inr y, inr x => inr (b, z, y, x)
      | _, _, _, _ => inl IndexError
      end
  | _ => inl IndexError
  end.

Fixpoint cells_of (shp : list Z) (locs : list (Z * Z * Z * Z))
  : exn + list (Z * Z * Z * Z) :=
  match locs with
  | [] => inr []
  | l :: locs' =>
      match cell_of shp l, cells_of shp locs' with
      | inr c, inr cs => inr (c :: cs)
      | inl e, _ => inl e
      | _, inl e => inl e
      end
  end.

(** Modelled from the spec: [SparseTensor.dense] is code of the library
    outside [examples/export.py].  The spec (data model, "Dense activation
    tensor"; algorithm step 1; glossary, "Densification") has it
    materialize the coordinates into a zero-filled 5-D grid indexed by
    (batch, channel, depth, height, width) at an explicit minimum
    coordinate and stride, and return the minimum coordinate and the
    per-axis tensor stride with the grid.  The spec gives neither the
    extents nor the cell of a coordinate below the minimum.  The model
    follows the tensor operations of the script itself: every axis has
    one more cell than the largest local index, the grid is made by
    [torch.zeros] and feature row [i] is written at the index tuple of
    coordinate row [i], where a negative index counts from the end of
    its axis and an index outside the axis is an [IndexError]; of two
    rows written to one cell the later stays.  The local indices are
    the integer quotients of the script, so that a stride of 0 is a
    division by zero.  A tensor without coordinates has no largest
    index and is refused. *)
Definition dense (a : addr) (min_coordinate : Z * Z * Z)
  : M heap (addr * (Z * Z * Z) * (Z * Z * Z)) :=
  s <- load_sparse a ;;
  match shape (features s) with
  | [_; nchannels] =>
      let ts := tensor_stride s in
      let locs := map (local_index min_coordinate ts) (coordinates s) in
      assert (negb (length (coordinates s) =? 0)%nat)
        "shape is required to densify an empty tensor" ;;
      if (fst (fst ts) =? 0) || (snd (fst ts) =? 0) || (snd ts =? 0)
      then raise ZeroDivisionError
      else
        let shp := index_shape nchannels locs in
        if negb (forallb (fun d => 0 <=? d) shp) then raise RuntimeError
        else match cells_of shp locs with
             | inr cells =>
                 d <- alloc (ODense {| shape := shp;
                                       get := scatter (features s) 0 cells
                                                (fun _ => zero) |}) ;;
                 ret (d, min_coordinate, ts)
             | inl e => raise e
             end
  | _ => raise RuntimeError
  end.

(** ** The patch extractor *)

Definition im2col_3d (input_sparse : addr) (kernel_size stride padding : Z)
  : M heap tensor :=
  assert (stride =? 1) "stride must be 1" ;;
  r <- dense input_sparse (0, 0, 0) ;;
  let '(input_data, min_coordinate, tensor_stride) := r in
  input_data <- (if 0 <? padding then pad input_data padding
                 else ret input_data) ;;
  sz <- size5 input_data ;;
  let '(batch_size, channels, depth, height, width) := sz in
  let out_depth := ceil_div (depth - kernel_size + 1) stride in
  let out_height := ceil_div (height - kernel_size + 1) stride in
  let out_width := ceil_div (width - kernel_size + 1) stride in
  col_unconstrained <-
    torch_zeros [batch_size; channels; kernel_size; kernel_size; kernel_size;
                 out_depth; out_height; out_width] ;;
  col <-
    torch_zeros [batch_size; channels; kernel_size; kernel_size; kernel_size;
                 out_depth; out_height; out_width] ;;
  for_each (range kernel_size) (fun z =>
    let z_max := z + stride * out_depth in
    for_each (range kernel_size) (fun y =>
      let y_max := y + stride * out_height in
      for_each (range kernel_size) (fun x =>
        let x_max := x + stride * out_width in
        src <- load_dense input_data ;;
        v <- lift (slice3 src z z_max y y_max x x_max stride) ;;
        setitem_slot col_unconstrained z y x v))) ;;
  n <- (s <- load_sparse input_sparse ;; ret (Z.of_nat (length (coordinates s)))) ;;
  for_each (range n) (fun i =>
    s <- load_sparse input_sparse ;;
    crds <- (match coordinates s !! Z.to_nat i with
             | Some c => ret c
             | None => raise IndexError
             end) ;;
    let batch := loc_b crds in
    z <- floordiv (loc_z crds - fst (fst min_coordinate))
                  (fst (fst tensor_stride)) ;;
    y <- floordiv (loc_y crds - snd (fst min_coordinate))
                  (snd (fst tensor_stride)) ;;
    x <- floordiv (loc_x crds - snd min_coordinate) (snd tensor_stride) ;;
    u <- load_dense col_unconstrained ;;
    v <- lift (getitem_loc u batch z y x) ;;
    setitem_loc col batch z y x v) ;;
  c <- load_dense col ;;
  c <- lift (view c [batch_size; -1; out_depth * out_height * out_width]) ;;
  c <- lift (transpose 1 2 c) ;;
  c <- contiguous c ;;
  c <- load_dense c ;;
  lift (view c [batch_size * out_depth * out_height * out_width; -1]).

(** ** The forward hook

    The closure [in_hook] of [get_activation] captures the layer's
    [name], the dictionary [in_activation] shared by all hooks, and the
    kernel size and stride of the layer.  It runs on the heap and on
    that dictionary. *)

(** A Python dictionary with string keys, as the list of its entries in
    insertion order: [d[k] = v] replaces the value of a key that is
    there and appends the entry otherwise. *)
Fixpoint dict_set (k : string) (v : addr) (d : list (string * addr))
  : list (string * addr) :=
  match d with
  | [] => [(k, v)]
  | (k', v') :: d' =>
      if String.eqb k k' then (k, v) :: d' else (k', v') :: dict_set k v d'
  end.

Fixpoint dict_get (k : string) (d : list (string * addr)) : option addr :=
  match d with
  | [] => None
  | (k', v) :: d' => if String.eqb k k' then Some v else dict_get k d'
  end.

Record hook_state : Type := {
  objects : heap;
  in_activation : list (string * addr)
}.

(** A computation on the heap, run by the hook. *)
Definition on_objects {A} (m : M heap A) : M hook_state A :=
  fun st => let '(h', r) := m (objects st) in
            ({| objects := h'; in_activation := in_activation st |}, r).

(** [in_activation[k] = v] *)
Definition setitem_dict (k : string) (v : addr) : M hook_state unit :=
  fun st => ({| objects := objects st;
                in_activation := dict_set k v (in_activation st) |}, inr tt).

(** [str(i)] *)
Definition str (i : Z) : string := NilZero.string_of_int (Z.to_int i).

(** [name+"."+str(i)] *)
Definition activation_key (name : string) (i : Z) : string :=
  String.append (String.append name ".") (str i).

(** The body of [in_hook] from input [i] on: [input] holds the
    addresses of the layer's input tensors.  [detach] shares the data of
    its argument, so the entry of [in_activation] holds the address of
    the input itself.  The value is the list of the arrays handed to
    [np.save], each with the index of its input; the printing is left
    out. *)
Fixpoint in_hook_from (name : string) (i : Z) (input : list addr)
  (kernel_size stride : Z) : M hook_state (list (Z * list (list elt))) :=
  match input with
  | [] => ret []
  | a :: rest =>
      setitem_dict (activation_key name i) a ;;
      r <- on_objects (dense a (0, 0, 0)) ;;
      let '(input_dense, _, _) := r in
      _ <- on_objects (size5 input_dense) ;;
      saved <- (if stride =? 1
                then col <- on_objects
                              (im2col_3d a kernel_size stride (kernel_size / 2)) ;;
                     ret [(i, to_matrix col)]
                else ret []) ;;
      more <- in_hook_from name (i + 1) rest kernel_size stride ;;
      ret (saved ++ more)
  end.

Definition in_hook (name : string) (input : list addr) (kernel_size stride : Z)
  : M hook_state (list (Z * list (list elt))) :=
  in_hook_from name 0 input kernel_size stride.

(** ** Weight export

    [weight = m.kernel.detach().transpose(0, 1).contiguous()],
    [K = weight.shape[-1]], [weight = weight.view(-1, K)]. *)
Definition export_weight (kernel : tensor) : exn + tensor :=
  match transpose 0 1 kernel with
  | inr weight =>
      match list.last (shape weight) with
      | Some K => view weight [-1; K]
      | None => inl IndexError
      end
  | inl e => inl e
  end.

(** The way back, for a kernel of shape [shp]: the matrix is viewed
    under the transposed shape and the first two axes are swapped
    again. *)
Definition unexport_weight (shp : list Z) (weight : tensor) : exn + tensor :=
  match view weight (swap 0 1 shp) with
  | inr w => transpose 0 1 w
  | inl e => inl e
  end.

(** ** Vocabulary of the properties *)

(** A multi-index inside a shape. *)
Definition in_range (shp idx : list Z) : Prop :=
  Forall2 (fun d i => 0 <= i < d) shp idx.

(** The local grid indices of the coordinate rows at origin (0,0,0). *)
Definition locations (s : SparseTensor) : list (Z * Z * Z * Z) :=
  map (local_index (0, 0, 0) (tensor_stride s)) (coordinates s).

(** The sparse tensors with every coordinate at or above the origin
    (0,0,0): [C] feature channels, at least one coordinate row, positive
    strides, and no coordinate below the origin.  [dense] writes each of
    their rows to the cell of its own local index. *)
Definition wf_sparse (s : SparseTensor) (C : Z) : Prop :=
  shape (features s) = [Z.of_nat (length (coordinates s)); C]
  /\ 0 < C
  /\ coordinates s <> []
  /\ (0 < fst (fst (tensor_stride s)) /\ 0 < snd (fst (tensor_stride s))
      /\ 0 < snd (tensor_stride s))
  /\ Forall (fun c => 0 <= loc_b c /\ 0 <= loc_z c /\ 0 <= loc_y c
                      /\ 0 <= loc_x c) (coordinates s).

(** Extents of the dense grid. *)
Definition grid_b (s : SparseTensor) : Z := extent (map loc_b (locations s)).
Definition grid_z (s : SparseTensor) : Z := extent (map loc_z (locations s)).
Definition grid_y (s : SparseTensor) : Z := extent (map loc_y (locations s)).
Definition grid_x (s : SparseTensor) : Z := extent (map loc_x (locations s)).

(** The densified input, and the densified input after padding. *)
Definition dense_tensor (s : SparseTensor) : tensor :=
  {| shape := dense_shape (nth 1 (shape (features s)) 0) (locations s);
     get := scatter (features s) 0 (locations s) (fun _ => zero) |}.

Definition padded_tensor (s : SparseTensor) (p : Z) : tensor :=
  if 0 <? p
  then {| shape := pad_shape (shape (dense_tensor s)) p;
          get := pad_get (dense_tensor s) p |}
  else dense_tensor s.

(** Extent of a spatial axis after padding, and of the output. *)
Definition padded_extent (d p : Z) : Z := if 0 <? p then d + 2 * p else d.
Definition out_extent (d p K : Z) : Z := padded_extent d p - K + 1.

(** The receptive field of output location [(b, z, y, x)] read from a
    grid [P]: all channels, kernel offsets [kz, ky, kx], in the column
    order (channel, kz, ky, kx). *)
Definition patch_row (P : tensor) (C K b z y x : Z) : list elt :=
  map (fun c => match unravel [C; K; K; K] c with
                | [ch; kz; ky; kx] => get P [b; ch; z + kz; y + ky; x + kx]
                | _ => zero
                end) (seqZ 0 (C * K * K * K)).

(** Row number of an output location, rows in batch-then-spatial
    row-major order. *)
Definition row_of (s : SparseTensor) (p K : Z) (b z y x : Z) : Z :=
  ravel [grid_b s; out_extent (grid_z s) p K; out_extent (grid_y s) p K;
         out_extent (grid_x s) p K] [b; z; y; x].

(** The matrix a run returns, if it returns one. *)
Definition result_matrix (r : heap * (exn + tensor)) : option (list (list elt)) :=
  match snd r with
  | inr t => Some (to_matrix t)
  | inl _ => None
  end.

(** The output location of row [r]. *)
Definition location_of (s : SparseTensor) (p K : Z) (r : Z) : Z * Z * Z * Z :=
  match unravel [grid_b s; out_extent (grid_z s) p K;
                 out_extent (grid_y s) p K; out_extent (grid_x s) p K] r with
  | [b; z; y; x] => (b, z, y, x)
  | _ => (0, 0, 0, 0)
  end.

Definition patch_at (P : tensor) (C K : Z) (l : Z * Z * Z * Z) : list elt :=
  patch_row P C K (loc_b l) (loc_z l) (loc_y l) (loc_x l).

(** Every coordinate has a cell in the output grid of kernel size [K]
    and padding [p]. *)
Definition fits (s : SparseTensor) (p K : Z) : Prop :=
  forall l, l ∈ locations s ->
    loc_z l < out_extent (grid_z s) p K /\ loc_y l < out_extent (grid_y s) p K
    /\ loc_x l < out_extent (grid_x s) p K.

(** *** Loop invariants *)

(** The kernel slots of [U] selected by [W] hold the patches of [P],
    the others are zero. *)
Definition filled (P U : tensor) (W : Z -> Z -> Z -> Prop) : Prop :=
  forall b c kz ky kx oz oy ox,
    (W kz ky kx ->
     get U [b; c; kz; ky; kx; oz; oy; ox] = get P [b; c; kz + oz; ky + oy; kx + ox])
    /\ (~ W kz ky kx -> get U [b; c; kz; ky; kx; oz; oy; ox] = zero).

(** The heap while [col_unconstrained] is filled: [h2] followed by
    [col_unconstrained] and [col]. *)
Definition cu_state (h2 : heap) (Cc P : tensor) (S8 : list Z)
  (W : Z -> Z -> Z -> Prop) (hp : heap) : Prop :=
  exists U, hp = h2 ++ [ODense U; ODense Cc] /\ shape U = S8 /\ filled P U W.

(** The locations of [Cc] selected by [V] hold the slabs of [U], the
    others are zero. *)
Definition masked (U Cc : tensor) (V : Z * Z * Z * Z -> Prop) : Prop :=
  forall b c kz ky kx oz oy ox,
    (V (b, oz, oy, ox) ->
     get Cc [b; c; kz; ky; kx; oz; oy; ox] = get U [b; c; kz; ky; kx; oz; oy; ox])
    /\ (~ V (b, oz, oy, ox) -> get Cc [b; c; kz; ky; kx; oz; oy; ox] = zero).

(** The heap while [col] is masked. *)
Definition col_state (h2 : heap) (U : tensor) (S8 : list Z)
  (V : Z * Z * Z * Z -> Prop) (hp : heap) : Prop :=
  exists Cc, hp = h2 ++ [ODense U; ODense Cc] /\ shape Cc = S8 /\ masked U Cc V.

(** The locations of the coordinate rows [done]. *)
Definition reached (s : SparseTensor) (done : list Z) (l : Z * Z * Z * Z)
  : Prop :=
  exists i c, i ∈ done /\ coordinates s !! Z.to_nat i = Some c
              /\ l = local_index (0, 0, 0) (tensor_stride s) c.

(** [m] leaves the first [n] objects of the heap as they are, whatever
    its outcome, and a value it returns satisfies [Q]. *)
Definition keeps {A} (n : nat) (m : M heap A) (Q : A -> Prop) : Prop :=
  forall h, (n <= length h)%nat ->
    take n (fst (m h)) = take n h /\ (n <= length (fst (m h)))%nat
    /\ forall a, snd (m h) = inr a -> Q a.

(** The location [l] has a cell in an output grid of the given spatial
    extents. *)
Definition fits_at (od oh ow : Z) (l : Z * Z * Z * Z) : bool :=
  (loc_z l <? od) && (loc_y l <? oh) && (loc_x l <? ow).

(** The heap during the masking loop, up to the content of [col]. *)
Definition mask_heap (h2 : heap) (U : tensor) (B C K od oh ow : Z)
  (hp : heap) : Prop :=
  exists Cc, hp = h2 ++ [ODense U; ODense Cc]
             /\ shape Cc = [B; C; K; K; K; od; oh; ow].

(** Row [i] of the coordinate list has a cell in the output grid. *)
Definition good_row (s : SparseTensor) (od oh ow : Z) (i : Z) : bool :=
  match coordinates s !! Z.to_nat i with
  | Some c => fits_at od oh ow (local_index (0, 0, 0) (tensor_stride s) c)
  | None => true
  end.

(** Feature row [i] of a sparse tensor, as the list of its channels. *)
Definition feature_row (s : SparseTensor) (i : nat) : list elt :=
  map (fun c => get (features s) [Z.of_nat i; c])
      (seqZ 0 (nth 1 (shape (features s)) 0)).

(** The rows of a sparse tensor: every coordinate row with its feature
    row, in the order of the tensor. *)
Definition rows (s : SparseTensor) : list (Z * Z * Z * Z * list elt) :=
  imap (fun i c => (c, feature_row s i)) (coordinates s).


(** The inputs of the hook taken by the properties: sparse tensors on
    the heap with every coordinate at or above the origin. *)
Definition hook_input (h : heap) (a : addr) : Prop :=
  exists s C, h !! a = Some (OSparse s) /\ wf_sparse s C.

(** The hook state with the heap [h] and the dictionary of [st]. *)
Definition with_objects (st : hook_state) (h : heap) : hook_state :=
  {| objects := h; in_activation := in_activation st |}.

End Model.

Arguments tensor : clear implicits.
Arguments SparseTensor : clear implicits.
Arguments obj : clear implicits.
Arguments hook_state : clear implicits.
Abbreviation heap elt := (list (obj elt)) (only parsing).

(** ** Colour normalisation

    [normalize_color] works on a tensor of some dtype by in-place
    arithmetic.  The operations are those of a class, [ColorArith]; the
    instance [IEEE_arith] below gives them on floating-point values. *)

Inductive dtype : Type := Float32 | Float64 | Int64.

Definition is_floating (d : dtype) : bool :=
  match d with Int64 => false | _ => true end.

Class ColorArith (A : Type) := {
  (** [x / 255] in the given dtype *)
  div_255 : dtype -> A -> A;
  (** [x - 0.5] in the given dtype *)
  sub_half : dtype -> A -> A;
  (** conversion from the given dtype to float32 *)
  to_float32 : dtype -> A -> A
}.

Section Color.
Context {elt : Type} `{!ColorArith elt}.

(** An [N x 3] colour matrix with its dtype. *)
Record color_tensor : Type := {
  c_dtype : dtype;
  c_rows : list (list elt)
}.

Local Abbreviation color_heap := (list color_tensor).

Definition map_elements (f : elt -> elt) (t : color_tensor) : color_tensor :=
  {| c_dtype := c_dtype t; c_rows := map (map f) (c_rows t) |}.

(** [color /= 255]: in place; torch refuses to write the floating
    result into an integer tensor. *)
Definition idiv_255 (color : addr) : M color_heap unit :=
  fun h => match h !! color with
           | Some t =>
               if is_floating (c_dtype t)
               then (<[color := map_elements (div_255 (c_dtype t)) t]> h, inr tt)
               else (h, inl RuntimeError)
           | None => (h, inl RuntimeError)
           end.

(** [color -= 0.5]: in place, likewise. *)
Definition isub_half (color : addr) : M color_heap unit :=
  fun h => match h !! color with
           | Some t =>
               if is_floating (c_dtype t)
               then (<[color := map_elements (sub_half (c_dtype t)) t]> h, inr tt)
               else (h, inl RuntimeError)
           | None => (h, inl RuntimeError)
           end.

(** The float32 conversion of a tensor: itself when it is float32. *)
Definition float_of (t : color_tensor) : color_tensor :=
  match c_dtype t with
  | Float32 => t
  | d => {| c_dtype := Float32; c_rows := map (map (to_float32 d)) (c_rows t) |}
  end.

(** [color.float()]: the tensor itself when it is float32 already, a
    new tensor otherwise. *)
Definition float (color : addr) : M color_heap addr :=
  fun h => match h !! color with
           | Some t =>
               match c_dtype t with
               | Float32 => (h, inr color)
               | _ => (h ++ [float_of t], inr (length h))
               end
           | None => (h, inl RuntimeError)
           end.

Definition normalize_color (color : addr) (is_color_in_range_0_255 : bool)
  : M color_heap addr :=
  (if is_color_in_range_0_255 then idiv_255 color else ret tt) ;;
  isub_half color ;;
  float color.

End Color.

Arguments color_tensor : clear implicits.
Abbreviation color_heap elt := (list (color_tensor elt)) (only parsing).

(** ** Floating-point arithmetic

    The values of a floating tensor: the finite ones as rationals, the
    infinities and NaN (the sign of zero is not kept).  On the CPU,
    where the script normalises the colours, every operation gives the
    exact result rounded to the nearest value of the dtype, the one with
    an even significand of two nearest. *)

Inductive fval : Type :=
| Finite (q : Q)
| Infinity (negative : bool)
| NaN.

(** Bits of the significand, exponent of the smallest positive value
    and exponent of the overflow threshold of a floating dtype. *)
Definition precision (d : dtype) : Z :=
  match d with Float32 => 24 | _ => 53 end.
Definition emin (d : dtype) : Z :=
  match d with Float32 => -149 | _ => -1074 end.
Definition emax (d : dtype) : Z :=
  match d with Float32 => 128 | _ => 1024 end.

(** [n / d / 2^e] as a fraction. *)
Definition scale2 (n d e : Z) : Z * Z :=
  if 0 <=? e then (n, d * 2 ^ e) else (n * 2 ^ (- e), d).

(** [floor (log2 (n / d))], for positive [n] and [d]. *)
Definition log2_ratio (n d : Z) : Z :=
  let k := Z.log2 n - Z.log2 d in
  let '(n', d') := scale2 n d k in
  if d' <=? n' then k else k - 1.

(** The integer nearest to [n / d], the even one of two. *)
Definition nearest_even (n d : Z) : Z :=
  let q := n / d in
  match 2 * (n mod d) ?= d with
  | Lt => q
  | Gt => q + 1
  | Eq => if Z.even q then q else q + 1
  end.

(** The rational [q] rounded to the dtype. *)
Definition fround (dt : dtype) (q : Q) : fval :=
  let n := Z.abs (Qnum q) in
  let d := Zpos (Qden q) in
  if n =? 0 then Finite 0
  else
    let e := Z.max (log2_ratio n d - (precision dt - 1)) (emin dt) in
    let '(n', d') := scale2 n d e in
    let m := nearest_even n' d' in
    if (0 <=? e) && (2 ^ emax dt <=? m * 2 ^ e)
    then Infinity (Qnum q <? 0)
    else
      let mag := if 0 <=? e then Qmake (m * 2 ^ e) 1
                 else Qred (Qmake m (Z.to_pos (2 ^ (- e)))) in
      Finite (if Qnum q <? 0 then Qopp mag else mag).

Definition fdiv_255 (dt : dtype) (v : fval) : fval :=
  match v with
  | Finite q => fround dt (Qdiv q (Qmake 255 1))
  | _ => v
  end.

Definition fsub_half (dt : dtype) (v : fval) : fval :=
  match v with
  | Finite q => fround dt (Qminus q (Qmake 1 2))
  | _ => v
  end.

Definition fto_float32 (_ : dtype) (v : fval) : fval :=
  match v with
  | Finite q => fround Float32 q
  | _ => v
  end.

#[global] Instance IEEE_arith : ColorArith fval := {
  div_255 := fdiv_255;
  sub_half := fsub_half;
  to_float32 := fto_float32
}.

(** ** Concrete inputs *)

#[global] Instance Z_zero : Zero Z := 0.

(** A feature matrix given by its rows. *)
Definition feature_rows (rows : list (list Z)) : tensor Z :=
  {| shape := [Z.of_nat (length rows);
               match rows with r :: _ => Z.of_nat (length r) | [] => 0 end];
     get := fun idx =>
       match idx with
       | [i; c] => nth (Z.to_nat c) (nth (Z.to_nat i) rows []) 0
       | _ => 0
       end |}.

(** One batch, one channel, voxels at (0,0,0) and (2,2,2), stride 1. *)
Definition two_voxel (f1 f2 : Z) : SparseTensor Z :=
  {| coordinates := [(0, 0, 0, 0); (0, 2, 2, 2)];
     features := feature_rows [[f1]; [f2]];
     tensor_stride := (1, 1, 1) |}.

(** The same two voxels with the rows in another order and one row
    twice. *)
Definition two_voxel_shuffled (f1 f2 : Z) : SparseTensor Z :=
  {| coordinates := [(0, 2, 2, 2); (0, 0, 0, 0); (0, 2, 2, 2)];
     features := feature_rows [[f2]; [f1]; [f2]];
     tensor_stride := (1, 1, 1) |}.


(** Two voxels, the second one cell below the origin on the depth
    axis. *)
Definition below_origin (f1 f2 : Z) : SparseTensor Z :=
  {| coordinates := [(0, 0, 0, 0); (0, -1, 1, 1)];
     features := feature_rows [[f1]; [f2]];
     tensor_stride := (1, 1, 1) |}.

(** The state of a hook before the first forward pass: the two-voxel
    tensor and its shuffled copy on the heap, [in_activation] empty. *)
Definition two_voxel_state : hook_state Z :=
  {| objects := [OSparse (two_voxel 5 7); OSparse (two_voxel_shuffled 5 7)];
     in_activation := [] |}.

(** A kernel of shape [2; 3; 4] whose elements are their own offsets. *)
Definition sample_kernel : tensor Z :=
  {| shape := [2; 3; 4]; get := ravel [2; 3; 4] |}.

(** A float64 colour matrix in the range [0, 255]. *)
Definition sample_color : color_tensor fval :=
  {| c_dtype := Float64;
     c_rows := [[Finite (Qmake 255 1); Finite (Qmake 0 1); Finite (Qmake 51 1)]] |}.

(** A kernel with two axes, shape [2; 3]. *)
Definition sample_matrix_kernel : tensor Z :=
  {| shape := [2; 3]; get := ravel [2; 3] |}.

(** An integer colour matrix in the range [0, 255]. *)
Definition sample_int_color : color_tensor fval :=
  {| c_dtype := Int64;
     c_rows := [[Finite (Qmake 255 1); Finite (Qmake 0 1); Finite (Qmake 51 1)]] |}.

(** ** Output directories

    [EnsureDirExists] works on the file system and the standard output.
    The file system is a finite map from paths, the lists of their
    components below the root, to the kind of entry found there; the
    root itself always exists.  [os.path.exists] and [os.makedirs]
    follow the Python library on such a tree: [makedirs] creates every
    missing directory on the way down to the leaf, refuses a leaf that
    is already there and cannot pass through a regular file. *)

Module Files.
Import stdpp.strings stdpp.gmap.

Inductive entry : Type := File | Dir.

Inductive os_error : Type := FileExistsError | NotADirectoryError.

(** A path: its components below the root. *)
Abbreviation path := (list string).

Record os_state : Type := {
  entries : gmap path entry;
  stdout : list string
}.

(** [os.path.exists(p)] *)
Definition path_exists (m : gmap path entry) (p : path) : bool :=
  match p with
  | [] => true
  | _ => bool_decide (is_Some (m !! p))
  end.

(** The directories below [done] on the way to [done ++ rest]. *)
Fixpoint mkdirs (done rest : path) (m : gmap path entry)
  : os_error + gmap path entry :=
  match rest with
  | [] => inr m
  | c :: rest' =>
      let q := done ++ [c] in
      match m !! q, rest' with
      | Some _, [] => inl FileExistsError
      | Some Dir, _ => mkdirs q rest' m
      | Some File, _ => inl NotADirectoryError
      | None, _ => mkdirs q rest' (<[q := Dir]> m)
      end
  end.

(** [os.makedirs(p)] *)
Definition makedirs (p : path) (m : gmap path entry)
  : os_error + gmap path entry :=
  match p with
  | [] => inl FileExistsError
  | _ => mkdirs [] p m
  end.

(** The text of a path. *)
Definition render (p : path) : string :=
  String.append "/" (String.concat "/" p).

(** [print("Creating %s" % dir)] *)
Definition print_creating (dir : path) (st : os_state) : os_state :=
  {| entries := entries st;
     stdout := stdout st ++ [String.append "Creating " (render dir)] |}.

Definition EnsureDirExists (dir : path) (st : os_state)
  : os_state * (os_error + unit) :=
  if negb (path_exists (entries st) dir)
  then
    let st1 := print_creating dir st in
    match makedirs dir (entries st1) with
    | inr m => ({| entries := m; stdout := stdout st1 |}, inr tt)
    | inl e => (st1, inl e)
    end
  else (st, inr tt).

(** A file system with the directory [/scratch] and the file
    [/scratch/notes]. *)
Definition sample_fs : os_state :=
  {| entries := <[ ["scratch"; "notes"] := File ]>
                  (<[ ["scratch"] := Dir ]> ∅);
     stdout := [] |}.

End Files.

(** ** Class labels and colours *)

Module Labels.
Import stdpp.strings stdpp.gmap.
Local Open Scope Z_scope.

Definition CLASS_LABELS : list string :=
  ["wall"; "floor"; "cabinet"; "bed"; "chair"; "sofa"; "table";
   "door"; "window"; "bookshelf"; "picture"; "counter"; "desk";
   "curtain"; "refrigerator"; "shower curtain"; "toilet"; "sink";
   "bathtub"; "otherfurniture"]%string.

Definition VALID_CLASS_IDS : list Z :=
  [1; 2; 3; 4; 5; 6; 7; 8; 9; 10; 11; 12; 14; 16; 24; 28; 33; 34; 36; 39].

Definition SCANNET_COLOR_MAP : gmap Z (Z * Z * Z) :=
  list_to_map
    [(0, (0, 0, 0)); (1, (174, 199, 232)); (2, (152, 223, 138));
     (3, (31, 119, 180)); (4, (255, 187, 120)); (5, (188, 189, 34));
     (6, (140, 86, 75)); (7, (255, 152, 150)); (8, (214, 39, 40));
     (9, (197, 176, 213)); (10, (148, 103, 189)); (11, (196, 156, 148));
     (12, (23, 190, 207)); (14, (247, 182, 210)); (15, (66, 188, 102));
     (16, (219, 219, 141)); (17, (140, 57, 197)); (18, (202, 185, 52));
     (19, (51, 176, 203)); (20, (200, 54, 131)); (21, (92, 193, 61));
     (22, (78, 71, 183)); (23, (172, 114, 82)); (24, (255, 127, 14));
     (25, (91, 163, 138)); (26, (153, 98, 156)); (27, (140, 153, 101));
     (28, (158, 218, 229)); (29, (100, 125, 154)); (30, (178, 127, 135));
     (32, (146, 111, 194)); (33, (44, 160, 44)); (34, (112, 128, 144));
     (35, (96, 207, 209)); (36, (227, 119, 194)); (37, (213, 92, 176));
     (38, (94, 106, 211)); (39, (82, 84, 163)); (40, (100, 85, 144))].

Inductive lookup_error : Type := ListIndexError | KeyError.

(** [l[i]] on a list: negative indices count from the end. *)
Definition list_item {A} (l : list A) (i : Z) : lookup_error + A :=
  let n := Z.of_nat (length l) in
  let j := if i <? 0 then i + n else i in
  if (0 <=? j) && (j <? n)
  then match l !! Z.to_nat j with
       | Some x => inr x
       | None => inl ListIndexError
       end
  else inl ListIndexError.

(** [SCANNET_COLOR_MAP[VALID_CLASS_IDS[l]]] *)
Definition class_color (l : Z) : lookup_error + Z * Z * Z :=
  match list_item VALID_CLASS_IDS l with
  | inr k => match SCANNET_COLOR_MAP !! k with
             | Some c => inr c
             | None => inl KeyError
             end
  | inl e => inl e
  end.

(** [[SCANNET_COLOR_MAP[VALID_CLASS_IDS[l]] for l in pred]] *)
Fixpoint prediction_colors (pred : list Z) : lookup_error + list (Z * Z * Z) :=
  match pred with
  | [] => inr []
  | l :: pred' =>
      match class_color l with
      | inr c => match prediction_colors pred' with
                 | inr cs => inr (c :: cs)
                 | inl e => inl e
                 end
      | inl e => inl e
      end
  end.

#[export] Instance lookup_error_eq_dec : EqDecision lookup_error.
Proof. solve_decision. Defined.

(** A colour with components in [0, 255]. *)
Definition is_byte_triple (c : Z * Z * Z) : Prop :=
  (0 <= fst (fst c) <= 255) /\ (0 <= snd (fst c) <= 255) /\ (0 <= snd c <= 255).

End Labels.

(** * Properties *)

Section Properties.
Context {elt : Type} `{!Zero elt}.

(** ** The monad *)

Lemma bind_ok {St A B} (m : M St A) (k : A -> M St B) h h' a :
  m h = (h', inr a) -> bind m k h = k a h'.
Proof. intros E. unfold bind. now rewrite E. Qed.

Lemma bind_err {St A B} (m : M St A) (k : A -> M St B) h h' e :
  m h = (h', inl e) -> bind m k h = (h', inl e).
Proof. intros E. unfold bind. now rewrite E. Qed.

(** A loop whose body keeps an invariant over the items done so far
    runs to its end and establishes the invariant for the whole list. *)
Lemma for_each_inv {St A} (I : list A -> St -> Prop) (body : A -> M St unit) :
  forall l done h,
    I done h ->
    (forall pre x post h',
        done ++ l = pre ++ x :: post -> (length done <= length pre)%nat ->
        I pre h' -> exists h'', body x h' = (h'', inr tt) /\ I (pre ++ [x]) h'') ->
    exists h', for_each l body h = (h', inr tt) /\ I (done ++ l) h'.
Proof.
  induction l as [|x l IH]; intros done h HI Hstep.
  - exists h. rewrite app_nil_r. now split.
  - destruct (Hstep done x l h eq_refl ltac:(lia) HI) as (h1 & E1 & HI1).
    destruct (IH (done ++ [x]) h1 HI1) as (h2 & E2 & HI2).
    + intros pre y post h' E Hlen HIp. rewrite <- app_assoc in E.
      apply (Hstep pre y post h' E); [|exact HIp].
      rewrite length_app in Hlen. simpl in Hlen. lia.
    + exists h2. split.
      * simpl. rewrite (bind_ok _ _ _ _ _ E1). exact E2.
      * now rewrite <- app_assoc in HI2.
Qed.

(** ** Index arithmetic *)

Lemma ravel_bound shp idx :
  in_range shp idx -> 0 <= ravel shp idx < numel shp.
Proof.
  induction 1 as [|d i shp idx Hi _ IH]; simpl; [lia|].
  change (foldr Z.mul 1 shp) with (numel shp). nia.
Qed.

Lemma unravel_ravel shp idx :
  in_range shp idx -> unravel shp (ravel shp idx) = idx.
Proof.
  induction 1 as [|d i shp idx Hi H IH]; simpl; [reflexivity|].
  pose proof (ravel_bound _ _ H) as Hb.
  rewrite Z.div_add_l, Z.div_small, Z.add_0_r by lia.
  rewrite Z.add_comm, Z.mod_add, Z.mod_small by lia.
  now rewrite IH.
Qed.

Lemma numel_pos shp : Forall (fun d => 0 < d) shp -> 0 < numel shp.
Proof. induction 1; simpl; [lia|]. change (foldr Z.mul 1 l) with (numel l). nia. Qed.

Lemma unravel_in_range shp : Forall (fun d => 0 < d) shp ->
  forall off, 0 <= off < numel shp -> in_range shp (unravel shp off).
Proof.
  induction 1 as [|d shp Hd Hs IH]; intros off Hoff; simpl; [constructor|].
  pose proof (numel_pos _ Hs) as Hn.
  simpl in Hoff. change (foldr Z.mul 1 shp) with (numel shp) in Hoff.
  constructor.
  - split; [apply Z.div_pos; lia|]. apply Z.div_lt_upper_bound; lia.
  - apply IH. apply Z.mod_pos_bound; lia.
Qed.

Lemma ravel_unravel shp : Forall (fun d => 0 < d) shp ->
  forall off, 0 <= off < numel shp -> ravel shp (unravel shp off) = off.
Proof.
  induction 1 as [|d shp Hd Hs IH]; intros off Hoff; simpl.
  - simpl in Hoff. lia.
  - pose proof (numel_pos _ Hs) as Hn.
    rewrite IH by (apply Z.mod_pos_bound; lia).
    rewrite Z.mul_comm. symmetry. apply Z.div_mod. lia.
Qed.


Implicit Types (h : heap elt) (s : SparseTensor elt) (t P U : tensor elt).

(** ** Heap and torch operations *)


Lemma lookup_snoc h (o : obj elt) : (h ++ [o]) !! length h = Some o.
Proof. rewrite lookup_app_r by lia. now rewrite Nat.sub_diag. Qed.

Lemma load_dense_run h a t :
  h !! a = Some (ODense t) -> load_dense a h = (h, inr t).
Proof. intros E. unfold load_dense. now rewrite E. Qed.

Lemma load_sparse_run h a s :
  h !! a = Some (OSparse s) -> load_sparse a h = (h, inr s).
Proof. intros E. unfold load_sparse. now rewrite E. Qed.

Lemma extent_bound (l : list Z) x : x ∈ l -> x < extent l.
Proof.
  unfold extent. induction 1 as [x l|x y l _ IH]; simpl; lia.
Qed.

Lemma extent_pos (l : list Z) : 0 < extent l.
Proof. unfold extent. induction l; simpl; lia. Qed.

Lemma local_index_nonneg s C c :
  wf_sparse s C -> c ∈ coordinates s ->
  let l := local_index (0, 0, 0) (tensor_stride s) c in
  0 <= loc_b l /\ 0 <= loc_z l /\ 0 <= loc_y l /\ 0 <= loc_x l.
Proof.
  intros (_ & _ & _ & (H0 & H1 & H2) & Hc) Hin.
  rewrite list.Forall_forall in Hc. specialize (Hc _ Hin).
  destruct c as [[[b z] y] x]. destruct (tensor_stride s) as [[t0 t1] t2].
  unfold loc_b, loc_z, loc_y, loc_x in *. simpl in *.
  rewrite !Z.sub_0_r. repeat split; try apply Z.div_pos; lia.
Qed.

Lemma locations_in_grid s C l :
  wf_sparse s C -> l ∈ locations s ->
  0 <= loc_b l < grid_b s /\ 0 <= loc_z l < grid_z s
  /\ 0 <= loc_y l < grid_y s /\ 0 <= loc_x l < grid_x s.
Proof.
  intros Hwf Hin. pose proof Hin as Hin'.
  unfold locations in Hin. apply list_elem_of_fmap in Hin as (c & -> & Hc).
  destruct (local_index_nonneg s C c Hwf Hc) as (? & ? & ? & ?).
  unfold grid_b, grid_z, grid_y, grid_x.
  repeat split; try assumption; apply extent_bound;
    apply list_elem_of_fmap; eexists; (split; [reflexivity | exact Hin']).
Qed.

Lemma norm_index_in size i : 0 <= i < size -> norm_index size i = inr i.
Proof.
  intros Hi. unfold norm_index.
  assert (E : (0 <=? i) && (i <? size) = true).
  { rewrite andb_true_iff, Z.leb_le, Z.ltb_lt. lia. }
  now rewrite E.
Qed.

Lemma max_plus_1_extent (l : list Z) :
  l <> [] -> Forall (fun x => 0 <= x) l -> max_plus_1 l = extent l.
Proof.
  intros Hne Hl. unfold max_plus_1, extent. f_equal.
  destruct l as [|x l]; [congruence|]. cbn [hd].
  inversion Hl as [|? ? Hx _]; subst. clear Hne Hl.
  simpl. induction l as [|y l IH]; simpl; lia.
Qed.

Lemma cells_of_in_range shp locs :
  Forall (fun l => cell_of shp l = inr l) locs -> cells_of shp locs = inr locs.
Proof.
  induction 1 as [|l locs Hl _ IH]; [reflexivity|].
  cbn [cells_of]. now rewrite Hl, IH.
Qed.

Lemma dense_run h a s C :
  h !! a = Some (OSparse s) -> wf_sparse s C ->
  dense a (0, 0, 0) h
  = (h ++ [ODense (dense_tensor s)], inr (length h, (0, 0, 0), tensor_stride s)).
Proof.
  intros Ha Hwf. pose proof Hwf as (Hsh & HC & Hne & (H0 & H1 & H2) & Hc).
  unfold dense. rewrite (bind_ok _ _ _ _ _ (load_sparse_run _ _ _ Ha)).
  rewrite Hsh.
  assert (E1 : negb (length (coordinates s) =? 0)%nat = true).
  { destruct (coordinates s); [congruence | reflexivity]. }
  rewrite E1. unfold assert. 
  assert (E2 : ((tensor_stride s).1.1 =? 0) || ((tensor_stride s).1.2 =? 0)
               || ((tensor_stride s).2 =? 0) = false).
  { rewrite !orb_false_iff, !Z.eqb_neq. lia. }
  fold (locations s).
  assert (Hax : forall f : Z * Z * Z * Z -> Z,
            (forall l, l ∈ locations s -> 0 <= f l) ->
            max_plus_1 (map f (locations s)) = extent (map f (locations s))).
  { intros f Hf. apply max_plus_1_extent.
    - unfold locations. destruct (coordinates s); [congruence|discriminate].
    - apply list.Forall_forall. intros x Hx.
      apply list_elem_of_fmap in Hx as (l & -> & Hl). now apply Hf. }
  assert (Es : index_shape C (locations s) = dense_shape C (locations s)).
  { unfold index_shape, dense_shape.
    rewrite !Hax; [reflexivity|..]; intros l Hl;
      destruct (locations_in_grid s C l Hwf Hl) as (? & ? & ? & ?); lia. }
  rewrite Es.
  assert (E3 : negb (forallb (fun d => 0 <=? d) (dense_shape C (locations s)))
               = false).
  { apply negb_false_iff. unfold dense_shape. cbn [forallb].
    rewrite !andb_true_iff, !Z.leb_le.
    pose proof (extent_pos (map loc_b (locations s))).
    pose proof (extent_pos (map loc_z (locations s))).
    pose proof (extent_pos (map loc_y (locations s))).
    pose proof (extent_pos (map loc_x (locations s))). lia. }
  assert (E4 : cells_of (dense_shape C (locations s)) (locations s)
               = inr (locations s)).
  { apply cells_of_in_range. apply list.Forall_forall. intros l Hl.
    destruct (locations_in_grid s C l Hwf Hl) as (Hb & Hz & Hy & Hx).
    fold (grid_b s) (grid_z s) (grid_y s) (grid_x s).
    unfold cell_of, dense_shape.
    fold (grid_b s) (grid_z s) (grid_y s) (grid_x s).
    rewrite !norm_index_in by lia.
    now destruct l as [[[? ?] ?] ?]. }
  unfold bind at 1. unfold ret at 1. rewrite E2, E3, E4.
  unfold bind, alloc, ret. unfold dense_tensor. rewrite Hsh. reflexivity.
Qed.



Lemma ceil_div_1 a : ceil_div a 1 = a.
Proof. unfold ceil_div. rewrite Z.div_1_r. lia. Qed.

Lemma slice_len_1 z n d : 0 <= z -> 0 <= n -> z + n <= d ->
  slice_len z (z + 1 * n) 1 d = n.
Proof.
  intros. unfold slice_len. rewrite ceil_div_1. lia.
Qed.

Lemma torch_zeros_run h shp :
  Forall (fun d => 0 <= d) shp ->
  torch_zeros shp h
  = (h ++ [ODense {| shape := shp; get := fun _ => zero |}], inr (length h)).
Proof.
  intros Hs. unfold torch_zeros.
  assert (E : forallb (fun d => 0 <=? d) shp = true).
  { apply forallb_forall. intros d Hd. apply Z.leb_le.
    rewrite list.Forall_forall in Hs. apply Hs. now apply list_elem_of_In. }
  now rewrite E.
Qed.

Lemma insert_snoc2_l h (a b c : obj elt) :
  <[length h := c]> (h ++ [a; b]) = h ++ [c; b].
Proof. rewrite insert_app_r_alt by lia. now rewrite Nat.sub_diag. Qed.

Lemma insert_snoc2_r h (a b c : obj elt) :
  <[S (length h) := c]> (h ++ [a; b]) = h ++ [a; c].
Proof.
  rewrite insert_app_r_alt by lia.
  replace (S (length h) - length h)%nat with 1%nat by lia. reflexivity.
Qed.

Lemma cu_state_iff h2 Cc P S8 W W' hp :
  (forall kz ky kx, W kz ky kx <-> W' kz ky kx) ->
  cu_state h2 Cc P S8 W hp -> cu_state h2 Cc P S8 W' hp.
Proof.
  intros Hiff (U & -> & Hs & Hf). exists U. repeat split; try assumption.
  all: intros HW; apply Hf; rewrite Hiff; exact HW.
Qed.

Lemma range_elem n i : i ∈ range n <-> 0 <= i < n.
Proof. unfold range. rewrite elem_of_seqZ. lia. Qed.

Lemma in_middle {A} (l pre post : list A) x : l = pre ++ x :: post -> x ∈ l.
Proof. intros ->. rewrite elem_of_app, elem_of_cons. tauto. Qed.

Section Fill.
Variables (h2 : heap elt) (ia : addr) (Cc P : tensor elt).
Variables (B C K Dp Hp Wp od oh ow : Z).
Hypothesis HP : h2 !! ia = Some (ODense P).
Hypothesis HPs : shape P = [B; C; Dp; Hp; Wp].
Hypothesis Hod : 0 <= od /\ od + K - 1 <= Dp.
Hypothesis Hoh : 0 <= oh /\ oh + K - 1 <= Hp.
Hypothesis How : 0 <= ow /\ ow + K - 1 <= Wp.

Let S8 := [B; C; K; K; K; od; oh; ow].

Lemma slot_step W z y x hp :
  0 <= z < K -> 0 <= y < K -> 0 <= x < K ->
  cu_state h2 Cc P S8 W hp ->
  exists hp',
    (src <- load_dense ia ;;
     v <- lift (slice3 src z (z + 1 * od) y (y + 1 * oh) x (x + 1 * ow) 1) ;;
     setitem_slot (length h2) z y x v) hp = (hp', inr tt)
    /\ cu_state h2 Cc P S8
         (fun kz ky kx => W kz ky kx \/ (kz = z /\ ky = y /\ kx = x)) hp'.
Proof using HP HPs Hod Hoh How.
  intros Hz Hy Hx (U & -> & Hs & Hf).
  assert (Hia : (h2 ++ [ODense U; ODense Cc]) !! ia = Some (ODense P)).
  { rewrite lookup_app_l; [exact HP|]. now apply lookup_lt_Some in HP. }
  rewrite (bind_ok _ _ _ _ _ (load_dense_run _ _ _ Hia)).
  unfold slice3. rewrite HPs. unfold lift at 1.
  rewrite !slice_len_1 by lia.
  unfold bind at 1, ret at 1.
  unfold setitem_slot.
  assert (Hcu : (h2 ++ [ODense U; ODense Cc]) !! length h2 = Some (ODense U)).
  { rewrite lookup_app_r by lia. now rewrite Nat.sub_diag. }
  rewrite (bind_ok _ _ _ _ _ (load_dense_run _ _ _ Hcu)).
  rewrite Hs. unfold S8.
  rewrite !norm_index_in by lia. unfold lift, bind, ret. cbn [shape].
  rewrite decide_True by reflexivity.
  eexists. split.
  - unfold store. reflexivity.
  - eexists. split; [|split].
    + apply insert_snoc2_l.
    + exact Hs.
    + intros b c kz ky kx oz oy ox. cbn [get set_slot].
      destruct (Hf b c kz ky kx oz oy ox) as [Hf1 Hf2].
      destruct ((kz =? z) && (ky =? y) && (kx =? x)) eqn:E.
      * rewrite !andb_true_iff, !Z.eqb_eq in E. destruct E as [[-> ->] ->].
        split; [intros _|intros Hn; exfalso; apply Hn; right; auto].
        now rewrite !Z.mul_1_r.
      * assert (Hne : ~ (kz = z /\ ky = y /\ kx = x)).
        { intros (-> & -> & ->). rewrite !Z.eqb_refl in E. discriminate. }
        split.
        -- intros [HW|HW]; [now apply Hf1 | contradiction].
        -- intros Hn. apply Hf2. tauto.
Qed.

Lemma fill_x W z y hp :
  0 <= z < K -> 0 <= y < K ->
  cu_state h2 Cc P S8 W hp ->
  exists hp',
    for_each (range K) (fun x =>
      src <- load_dense ia ;;
      v <- lift (slice3 src z (z + 1 * od) y (y + 1 * oh) x (x + 1 * ow) 1) ;;
      setitem_slot (length h2) z y x v) hp = (hp', inr tt)
    /\ cu_state h2 Cc P S8
         (fun kz ky kx => W kz ky kx \/ (kz = z /\ ky = y /\ kx ∈ range K)) hp'.
Proof using HP HPs Hod Hoh How.
  intros Hz Hy Hst.
  destruct (for_each_inv
    (fun done => cu_state h2 Cc P S8
       (fun kz ky kx => W kz ky kx \/ (kz = z /\ ky = y /\ kx ∈ done)))
    (fun x => src <- load_dense ia ;;
      v <- lift (slice3 src z (z + 1 * od) y (y + 1 * oh) x (x + 1 * ow) 1) ;;
      setitem_slot (length h2) z y x v) (range K) [] hp) as (hp' & E & HI).
  - revert Hst. apply cu_state_iff. intros. rewrite elem_of_nil. tauto.
  - intros pre x post h' Heq _ HI. simpl in Heq.
    apply in_middle in Heq. apply range_elem in Heq.
    destruct (slot_step _ z y x h' Hz Hy Heq HI) as (h'' & E & HI').
    exists h''. split; [exact E|]. revert HI'. apply cu_state_iff.
    intros. rewrite elem_of_app, list_elem_of_singleton. tauto.
  - exists hp'. split; [exact E|exact HI].
Qed.

Lemma fill_y W z hp :
  0 <= z < K ->
  cu_state h2 Cc P S8 W hp ->
  exists hp',
    for_each (range K) (fun y => for_each (range K) (fun x =>
      src <- load_dense ia ;;
      v <- lift (slice3 src z (z + 1 * od) y (y + 1 * oh) x (x + 1 * ow) 1) ;;
      setitem_slot (length h2) z y x v)) hp = (hp', inr tt)
    /\ cu_state h2 Cc P S8
         (fun kz ky kx => W kz ky kx
                          \/ (kz = z /\ ky ∈ range K /\ kx ∈ range K)) hp'.
Proof using HP HPs Hod Hoh How.
  intros Hz Hst.
  destruct (for_each_inv
    (fun done => cu_state h2 Cc P S8
       (fun kz ky kx => W kz ky kx \/ (kz = z /\ ky ∈ done /\ kx ∈ range K)))
    (fun y => for_each (range K) (fun x =>
      src <- load_dense ia ;;
      v <- lift (slice3 src z (z + 1 * od) y (y + 1 * oh) x (x + 1 * ow) 1) ;;
      setitem_slot (length h2) z y x v)) (range K) [] hp) as (hp' & E & HI).
  - revert Hst. apply cu_state_iff. intros. rewrite elem_of_nil. tauto.
  - intros pre y post h' Heq _ HI. simpl in Heq.
    apply in_middle in Heq. apply range_elem in Heq.
    destruct (fill_x _ z y h' Hz Heq HI) as (h'' & E & HI').
    exists h''. split; [exact E|]. revert HI'. apply cu_state_iff.
    intros. rewrite elem_of_app, list_elem_of_singleton.
    split; [intros [[?|?]|(? & ? & ?)]|intros [?|(? & [?|?] & ?)]]; subst; tauto.
  - exists hp'. split; [exact E|exact HI].
Qed.

Lemma fill_z hp :
  cu_state h2 Cc P S8 (fun _ _ _ => False) hp ->
  exists hp',
    for_each (range K) (fun z => for_each (range K) (fun y =>
      for_each (range K) (fun x =>
      src <- load_dense ia ;;
      v <- lift (slice3 src z (z + 1 * od) y (y + 1 * oh) x (x + 1 * ow) 1) ;;
      setitem_slot (length h2) z y x v))) hp = (hp', inr tt)
    /\ cu_state h2 Cc P S8
         (fun kz ky kx => 0 <= kz < K /\ 0 <= ky < K /\ 0 <= kx < K) hp'.
Proof using HP HPs Hod Hoh How.
  intros Hst.
  destruct (for_each_inv
    (fun done => cu_state h2 Cc P S8
       (fun kz ky kx => kz ∈ done /\ ky ∈ range K /\ kx ∈ range K))
    (fun z => for_each (range K) (fun y => for_each (range K) (fun x =>
      src <- load_dense ia ;;
      v <- lift (slice3 src z (z + 1 * od) y (y + 1 * oh) x (x + 1 * ow) 1) ;;
      setitem_slot (length h2) z y x v))) (range K) [] hp) as (hp' & E & HI).
  - revert Hst. apply cu_state_iff. intros. rewrite elem_of_nil. tauto.
  - intros pre z post h' Heq _ HI. simpl in Heq.
    apply in_middle in Heq. apply range_elem in Heq.
    destruct (fill_y _ z h' Heq HI) as (h'' & E & HI').
    exists h''. split; [exact E|]. revert HI'. apply cu_state_iff.
    intros. rewrite elem_of_app, list_elem_of_singleton.
    split; [intros [?|(? & ? & ?)]|intros ([?|?] & ? & ?)]; subst; tauto.
  - exists hp'. split; [exact E|]. revert HI. apply cu_state_iff.
    intros. simpl. rewrite !range_elem. tauto.
Qed.

End Fill.


Lemma col_state_iff h2 U S8 V V' hp :
  (forall l, V l <-> V' l) ->
  col_state h2 U S8 V hp -> col_state h2 U S8 V' hp.
Proof.
  intros Hiff (Cc & -> & Hs & Hf). exists Cc. repeat split; try assumption.
  all: intros HV; apply Hf; rewrite Hiff; exact HV.
Qed.

Lemma floordiv_run h a b : b <> 0 -> floordiv a b h = (h, inr (a / b)).
Proof. intros Hb. unfold floordiv. apply Z.eqb_neq in Hb. now rewrite Hb. Qed.

Lemma local_index_eq ts c :
  local_index (0, 0, 0) ts c
  = (loc_b c, (loc_z c - fst (fst (0, 0, 0))) / fst (fst ts),
     (loc_y c - snd (fst (0, 0, 0))) / snd (fst ts),
     (loc_x c - snd (0, 0, 0)) / snd ts).
Proof. destruct c as [[[b z] y] x], ts as [[t0 t1] t2]. reflexivity. Qed.

Section Mask.
Variables (h2 : heap elt) (a : addr) (s : SparseTensor elt) (U : tensor elt).
Variables (B C K od oh ow : Z).
Let S8 := [B; C; K; K; K; od; oh; ow].
Hypothesis Ha : h2 !! a = Some (OSparse s).
Hypothesis Hts : fst (fst (tensor_stride s)) <> 0 /\ snd (fst (tensor_stride s)) <> 0
                 /\ snd (tensor_stride s) <> 0.
Hypothesis HU : shape U = S8.
Hypothesis Hfit : forall l, l ∈ locations s ->
  0 <= loc_b l < B /\ 0 <= loc_z l < od /\ 0 <= loc_y l < oh /\ 0 <= loc_x l < ow.

Lemma mask_step done i hp :
  0 <= i < Z.of_nat (length (coordinates s)) ->
  col_state h2 U S8 (reached s done) hp ->
  exists hp',
    (s' <- load_sparse a ;;
     crds <- (match coordinates s' !! Z.to_nat i with
              | Some c => ret c
              | None => raise IndexError
              end) ;;
     let batch := loc_b crds in
     z <- floordiv (loc_z crds - fst (fst (0, 0, 0)))
                   (fst (fst (tensor_stride s))) ;;
     y <- floordiv (loc_y crds - snd (fst (0, 0, 0)))
                   (snd (fst (tensor_stride s))) ;;
     x <- floordiv (loc_x crds - snd (0, 0, 0)) (snd (tensor_stride s)) ;;
     u <- load_dense (length h2) ;;
     v <- lift (getitem_loc u batch z y x) ;;
     setitem_loc (S (length h2)) batch z y x v) hp = (hp', inr tt)
    /\ col_state h2 U S8 (reached s (done ++ [i])) hp'.
Proof using Ha Hts HU Hfit.
  intros Hi (Cc & -> & Hs & Hm).
  destruct (lookup_lt_is_Some_2 (coordinates s) (Z.to_nat i) ltac:(lia)) as [c Hc].
  assert (Hl : local_index (0, 0, 0) (tensor_stride s) c ∈ locations s).
  { unfold locations. apply list_elem_of_fmap. exists c. split; [reflexivity|].
    eapply list_elem_of_lookup_2; eauto. }
  destruct (Hfit _ Hl) as (Hb & Hz & Hy & Hx).
  rewrite local_index_eq in Hb, Hz, Hy, Hx.
  unfold loc_b at 1 in Hb. unfold loc_z at 1 in Hz. unfold loc_y at 1 in Hy.
  unfold loc_x at 1 in Hx. cbn [fst snd] in Hb, Hz, Hy, Hx.
  assert (Hia : (h2 ++ [ODense U; ODense Cc]) !! a = Some (OSparse s)).
  { rewrite lookup_app_l; [exact Ha|]. now apply lookup_lt_Some in Ha. }
  rewrite (bind_ok _ _ _ _ _ (load_sparse_run _ _ _ Hia)).
  rewrite Hc. unfold bind at 1, ret at 1. cbv zeta.
  destruct Hts as (T0 & T1 & T2).
  rewrite (bind_ok _ _ _ _ _ (floordiv_run _ _ _ T0)).
  rewrite (bind_ok _ _ _ _ _ (floordiv_run _ _ _ T1)).
  rewrite (bind_ok _ _ _ _ _ (floordiv_run _ _ _ T2)).
  assert (Hcu : (h2 ++ [ODense U; ODense Cc]) !! length h2 = Some (ODense U)).
  { rewrite lookup_app_r by lia. now rewrite Nat.sub_diag. }
  rewrite (bind_ok _ _ _ _ _ (load_dense_run _ _ _ Hcu)).
  unfold getitem_loc. rewrite HU. unfold S8.
  cbn [fst snd] in *.
  rewrite !norm_index_in by assumption.
  unfold lift at 1. unfold bind at 1, ret at 1.
  unfold setitem_loc.
  assert (Hcol : (h2 ++ [ODense U; ODense Cc]) !! S (length h2) = Some (ODense Cc)).
  { rewrite lookup_app_r by lia.
    replace (S (length h2) - length h2)%nat with 1%nat by lia. reflexivity. }
  rewrite (bind_ok _ _ _ _ _ (load_dense_run _ _ _ Hcol)).
  rewrite Hs. unfold S8. rewrite !norm_index_in by assumption.
  cbn [shape]. rewrite decide_True by reflexivity.
  eexists. split; [reflexivity|].
  eexists. split; [apply insert_snoc2_r|]. split; [exact Hs|].
  intros b ch kz ky kx oz oy ox. cbn [get set_loc].
  destruct (Hm b ch kz ky kx oz oy ox) as [Hm1 Hm2].
  set (lz := (loc_z c - 0) / (tensor_stride s).1.1) in *.
  set (ly := (loc_y c - 0) / (tensor_stride s).1.2) in *.
  set (lx := (loc_x c - 0) / (tensor_stride s).2) in *.
  assert (Hli : local_index (0, 0, 0) (tensor_stride s) c = (loc_b c, lz, ly, lx)).
  { rewrite local_index_eq. reflexivity. }
  destruct ((b =? loc_b c) && (oz =? lz) && (oy =? ly) && (ox =? lx)) eqn:E.
  - rewrite !andb_true_iff, !Z.eqb_eq in E. destruct E as [[[-> ->] ->] ->].
    split; [reflexivity|]. intros Hn. exfalso. apply Hn.
    exists i, c. rewrite elem_of_app, list_elem_of_singleton. auto.
  - assert (Hne : (b, oz, oy, ox) <> (loc_b c, lz, ly, lx)).
    { intros Heq. injection Heq as -> -> -> ->. rewrite !Z.eqb_refl in E. discriminate. }
    split.
    + intros (j & c' & Hj & Hc' & Hl'). apply Hm1.
      rewrite elem_of_app, list_elem_of_singleton in Hj. destruct Hj as [Hj | ->].
      * exists j, c'. auto.
      * rewrite Hc in Hc'. injection Hc' as <-. congruence.
    + intros Hn. apply Hm2. intros (j & c' & Hj & Hc' & Hl'). apply Hn.
      exists j, c'. rewrite elem_of_app. auto.
Qed.

Lemma reached_all l :
  reached s (range (Z.of_nat (length (coordinates s)))) l <-> l ∈ locations s.
Proof using Type.
  unfold reached, locations. rewrite list_elem_of_fmap. split.
  - intros (i & c & _ & Hc & ->). exists c. split; [reflexivity|].
    eapply list_elem_of_lookup_2; eauto.
  - intros (c & -> & Hc). apply list_elem_of_lookup_1 in Hc as [j Hj].
    exists (Z.of_nat j), c. rewrite Nat2Z.id. split; [|auto].
    apply range_elem. apply lookup_lt_Some in Hj. lia.
Qed.

Lemma mask_loop hp :
  col_state h2 U S8 (fun _ => False) hp ->
  exists hp',
    for_each (range (Z.of_nat (length (coordinates s)))) (fun i =>
     s' <- load_sparse a ;;
     crds <- (match coordinates s' !! Z.to_nat i with
              | Some c => ret c
              | None => raise IndexError
              end) ;;
     let batch := loc_b crds in
     z <- floordiv (loc_z crds - fst (fst (0, 0, 0)))
                   (fst (fst (tensor_stride s))) ;;
     y <- floordiv (loc_y crds - snd (fst (0, 0, 0)))
                   (snd (fst (tensor_stride s))) ;;
     x <- floordiv (loc_x crds - snd (0, 0, 0)) (snd (tensor_stride s)) ;;
     u <- load_dense (length h2) ;;
     v <- lift (getitem_loc u batch z y x) ;;
     setitem_loc (S (length h2)) batch z y x v) hp = (hp', inr tt)
    /\ col_state h2 U S8 (fun l => l ∈ locations s) hp'.
Proof using Ha Hts HU Hfit.
  intros Hst.
  match goal with |- exists hp', for_each ?l ?body _ = _ /\ _ =>
    destruct (for_each_inv (fun done => col_state h2 U S8 (reached s done))
                body l [] hp) as (hp' & E & HI) end.
  - revert Hst. apply col_state_iff. intros l. split; [tauto|].
    intros (i & c & Hi & _). now apply elem_of_nil in Hi.
  - intros pre i post h' Heq _ HI. simpl in Heq.
    apply in_middle in Heq. apply range_elem in Heq.
    exact (mask_step pre i h' Heq HI).
  - exists hp'. split; [exact E|]. revert HI. apply col_state_iff.
    intros l. simpl. apply reached_all.
Qed.

End Mask.

(** ** The final layout *)


Lemma infer_shape_mid n a b m :
  0 <= a -> 0 <= b -> a * b <> 0 -> n = m * (a * b) ->
  infer_shape n [a; -1; b] = Some [a; m; b].
Proof.
  intros Ha Hb Hab ->. unfold infer_shape.
  assert (E : forallb (fun d => -1 <=? d) [a; -1; b] = true).
  { cbn. rewrite !andb_true_iff, !Z.leb_le. lia. }
  rewrite E. cbn [negb].
  rewrite !filter_cons, !filter_nil.
  rewrite (decide_True (P := a <> -1)), (decide_False (P := -1 <> -1)),
    (decide_True (P := b <> -1)), (decide_False (P := a = -1)),
    (decide_True (P := -1 = -1)), (decide_False (P := b = -1)) by lia.
  cbn [length numel foldr map].
  replace (a * (b * 1)) with (a * b) by ring.
  apply Z.eqb_neq in Hab as Hab'. rewrite Hab'.
  rewrite Z.mod_mul, Z.div_mul by assumption. cbn [Z.eqb].
  assert (Ea : (a =? -1) = false) by (apply Z.eqb_neq; lia).
  assert (Eb : (b =? -1) = false) by (apply Z.eqb_neq; lia).
  rewrite Ea, Eb. reflexivity.
Qed.

Lemma infer_shape_last n a m :
  0 <= a -> a <> 0 -> n = m * a -> infer_shape n [a; -1] = Some [a; m].
Proof.
  intros Ha Ha0 ->. unfold infer_shape.
  assert (E : forallb (fun d => -1 <=? d) [a; -1] = true).
  { cbn. rewrite !andb_true_iff, !Z.leb_le. lia. }
  rewrite E. cbn [negb].
  rewrite !filter_cons, !filter_nil.
  rewrite (decide_True (P := a <> -1)), (decide_False (P := -1 <> -1)),
    (decide_False (P := a = -1)), (decide_True (P := -1 = -1)) by lia.
  cbn [length numel foldr map].
  replace (a * 1) with a by ring.
  apply Z.eqb_neq in Ha0 as Ha0'. rewrite Ha0'.
  rewrite Z.mod_mul, Z.div_mul by assumption. cbn [Z.eqb].
  assert (Ea : (a =? -1) = false) by (apply Z.eqb_neq; lia).
  rewrite Ea. reflexivity.
Qed.

Lemma infer_shape_first n a m :
  0 <= a -> a <> 0 -> n = m * a -> infer_shape n [-1; a] = Some [m; a].
Proof.
  intros Ha Ha0 ->. unfold infer_shape.
  assert (E : forallb (fun d => -1 <=? d) [-1; a] = true).
  { cbn. rewrite !andb_true_iff, !Z.leb_le. lia. }
  rewrite E. cbn [negb].
  rewrite !filter_cons, !filter_nil.
  rewrite (decide_True (P := a <> -1)), (decide_False (P := -1 <> -1)),
    (decide_False (P := a = -1)), (decide_True (P := -1 = -1)) by lia.
  cbn [length numel foldr map].
  replace (a * 1) with a by ring.
  apply Z.eqb_neq in Ha0 as Ha0'. rewrite Ha0'.
  rewrite Z.mod_mul, Z.div_mul by assumption. cbn [Z.eqb].
  assert (Ea : (a =? -1) = false) by (apply Z.eqb_neq; lia).
  rewrite Ea. reflexivity.
Qed.

Lemma swap_12 (a b c : Z) : swap 1 2 [a; b; c] = [a; c; b].
Proof. reflexivity. Qed.

Lemma in_range_cons d i shp idx :
  0 <= i < d -> in_range shp idx -> in_range (d :: shp) (i :: idx).
Proof. intros. now constructor. Qed.

Lemma in_range_inv d i shp idx :
  in_range (d :: shp) (i :: idx) -> 0 <= i < d /\ in_range shp idx.
Proof. intros H. inversion H; subst. auto. Qed.

Lemma layout col B C K od oh ow :
  shape col = [B; C; K; K; K; od; oh; ow] ->
  0 < B -> 0 < C -> 0 < K -> 0 < od -> 0 < oh -> 0 < ow ->
  exists c1 c2 t,
    view col [B; -1; od * oh * ow] = inr c1
    /\ transpose 1 2 c1 = inr c2
    /\ view c2 [B * od * oh * ow; -1] = inr t
    /\ shape t = [B * od * oh * ow; C * K * K * K]
    /\ forall b z y x ch kz ky kx,
         in_range [B; od; oh; ow] [b; z; y; x] ->
         in_range [C; K; K; K] [ch; kz; ky; kx] ->
         get t [ravel [B; od; oh; ow] [b; z; y; x];
                ravel [C; K; K; K] [ch; kz; ky; kx]]
         = get col [b; ch; kz; ky; kx; z; y; x].
Proof.
  intros Hs HB HC HK Hod Hoh How.
  assert (Hsp : 0 < od * oh * ow) by nia.
  assert (Hck : 0 < C * K * K * K) by nia.
  assert (Hrows : 0 < B * od * oh * ow) by nia.
  unfold view at 1. rewrite Hs.
  rewrite (infer_shape_mid _ B (od * oh * ow) (C * K * K * K))
    by (try nia; cbn [numel foldr]; ring).
  eexists. eexists. eexists. split; [reflexivity|].
  unfold transpose. cbn [shape length].
  rewrite decide_True by lia.
  split; [reflexivity|].
  unfold view. cbn [shape]. rewrite !swap_12.
  rewrite (infer_shape_last _ (B * od * oh * ow) (C * K * K * K))
    by (try lia; cbn [numel foldr]; ring).
  split; [reflexivity|]. split; [reflexivity|].
  intros b z y x ch kz ky kx Hr Hc. cbn [get].
  pose proof (ravel_bound _ _ Hc) as Hcb.
  apply in_range_inv in Hr as [Hb Hr].
  pose proof (ravel_bound _ _ Hr) as Hsb.
  replace (numel [od; oh; ow]) with (od * oh * ow) in Hsb by (cbn [numel foldr]; ring).
  replace (numel [C; K; K; K]) with (C * K * K * K) in Hcb by (cbn [numel foldr]; ring).
  set (sp := ravel [od; oh; ow] [z; y; x]) in *.
  set (cc := ravel [C; K; K; K] [ch; kz; ky; kx]) in *.
  replace (ravel [B * od * oh * ow; C * K * K * K] [ravel [B; od; oh; ow] [b; z; y; x]; cc])
    with (ravel [B; od * oh * ow; C * K * K * K] [b; sp; cc]).
  2:{ unfold sp. cbn [ravel numel foldr]. ring. }
  rewrite unravel_ravel.
  2:{ repeat (apply in_range_cons; [lia|]). constructor. }
  rewrite swap_12.
  replace (ravel [B; C * K * K * K; od * oh * ow] [b; cc; sp])
    with (ravel [B; C; K; K; K; od; oh; ow] [b; ch; kz; ky; kx; z; y; x]).
  2:{ unfold sp, cc. cbn [ravel numel foldr]. ring. }
  rewrite unravel_ravel; [reflexivity|].
  apply in_range_cons; [lia|].
  apply in_range_inv in Hc as [? Hc]. apply in_range_cons; [lia|].
  apply in_range_inv in Hc as [? Hc]. apply in_range_cons; [lia|].
  apply in_range_inv in Hc as [? Hc]. apply in_range_cons; [lia|].
  apply in_range_inv in Hc as [? Hc]. apply in_range_cons; [lia|].
  exact Hr.
Qed.


(** ** The run of the extractor *)


Lemma dense_tensor_shape s C :
  wf_sparse s C ->
  shape (dense_tensor s) = [grid_b s; C; grid_z s; grid_y s; grid_x s].
Proof. intros (Hsh & _). unfold dense_tensor. cbn [shape]. now rewrite Hsh. Qed.

Lemma padded_tensor_shape s C p :
  wf_sparse s C ->
  shape (padded_tensor s p)
  = [grid_b s; C; padded_extent (grid_z s) p; padded_extent (grid_y s) p;
     padded_extent (grid_x s) p].
Proof.
  intros Hwf. unfold padded_tensor, padded_extent.
  destruct (0 <? p); cbn [shape]; rewrite (dense_tensor_shape s C Hwf); reflexivity.
Qed.

Lemma pad_run h a t p b c d hh w :
  h !! a = Some (ODense t) -> shape t = [b; c; d; hh; w] ->
  pad a p h
  = (h ++ [ODense {| shape := pad_shape (shape t) p; get := pad_get t p |}],
     inr (length h)).
Proof.
  intros Ha Hs. unfold pad.
  rewrite (bind_ok _ _ _ _ _ (load_dense_run _ _ _ Ha)). rewrite Hs. reflexivity.
Qed.

Lemma size5_run h a t b c d hh w :
  h !! a = Some (ODense t) -> shape t = [b; c; d; hh; w] ->
  size5 a h = (h, inr (b, c, d, hh, w)).
Proof.
  intros Ha Hs. unfold size5.
  rewrite (bind_ok _ _ _ _ _ (load_dense_run _ _ _ Ha)). now rewrite Hs.
Qed.

Lemma input_run h a s C p :
  h !! a = Some (OSparse s) -> wf_sparse s C ->
  exists e ia,
    (if 0 <? p then pad (length h) p else ret (length h))
      (h ++ [ODense (dense_tensor s)]) = (h ++ e, inr ia)
    /\ (h ++ e) !! ia = Some (ODense (padded_tensor s p)).
Proof.
  intros Ha Hwf. unfold padded_tensor. destruct (0 <? p).
  - exists [ODense (dense_tensor s);
            ODense {| shape := pad_shape (shape (dense_tensor s)) p;
                      get := pad_get (dense_tensor s) p |}].
    exists (S (length h)). split.
    + erewrite pad_run; [|apply lookup_snoc|apply (dense_tensor_shape s C Hwf)].
      rewrite <- app_assoc, length_app. cbn [app length].
      now rewrite Nat.add_1_r.
    + rewrite lookup_app_r by lia.
      replace (S (length h) - length h)%nat with 1%nat by lia. reflexivity.
  - exists [ODense (dense_tensor s)], (length h). split; [reflexivity|].
    apply lookup_snoc.
Qed.

Lemma im2col_3d_run h a s C K p :
  h !! a = Some (OSparse s) -> wf_sparse s C -> 0 < K -> fits s p K ->
  exists e t,
    im2col_3d a K 1 p h = (h ++ e, inr t)
    /\ shape t
       = [grid_b s * out_extent (grid_z s) p K * out_extent (grid_y s) p K
          * out_extent (grid_x s) p K; C * K * K * K]
    /\ forall b z y x ch kz ky kx,
         in_range [grid_b s; out_extent (grid_z s) p K;
                   out_extent (grid_y s) p K; out_extent (grid_x s) p K]
                  [b; z; y; x] ->
         in_range [C; K; K; K] [ch; kz; ky; kx] ->
         get t [row_of s p K b z y x; ravel [C; K; K; K] [ch; kz; ky; kx]]
         = if decide ((b, z, y, x) ∈ locations s)
           then get (padded_tensor s p) [b; ch; z + kz; y + ky; x + kx]
           else zero.
Proof.
  intros Ha Hwf HK Hfit.
  pose proof Hwf as (Hsh & HC & Hne & (T0 & T1 & T2) & Hcs).
  (* some location exists, hence the extents are positive *)
  assert (Hex : exists l, l ∈ locations s).
  { unfold locations. destruct (coordinates s) as [|c cs]; [congruence|].
    eexists. left. }
  destruct Hex as [l0 Hl0].
  destruct (locations_in_grid s C l0 Hwf Hl0) as (Hb0 & Hz0 & Hy0 & Hx0).
  destruct (Hfit l0 Hl0) as (Fz0 & Fy0 & Fx0).
  set (B := grid_b s) in *.
  set (od := out_extent (grid_z s) p K) in *.
  set (oh := out_extent (grid_y s) p K) in *.
  set (ow := out_extent (grid_x s) p K) in *.
  unfold im2col_3d.
  rewrite (bind_ok _ _ h h tt eq_refl).
  rewrite (bind_ok _ _ _ _ _ (dense_run h a s C Ha Hwf)).
  cbv beta iota zeta.
  destruct (input_run h a s C p Ha Hwf) as (e & ia & Ein & Hia).
  rewrite (bind_ok _ _ _ _ _ Ein).
  set (h2 := h ++ e) in *.
  assert (Ha2 : h2 !! a = Some (OSparse s)).
  { unfold h2. rewrite lookup_app_l; [exact Ha|]. now apply lookup_lt_Some in Ha. }
  pose proof (padded_tensor_shape s C p Hwf) as HPs. fold B in HPs.
  set (P := padded_tensor s p) in *.
  rewrite (bind_ok _ _ _ _ _ (size5_run _ _ _ _ _ _ _ _ Hia HPs)).
  cbv beta iota.
  rewrite !ceil_div_1.
  change (padded_extent (grid_z s) p - K + 1) with od.
  change (padded_extent (grid_y s) p - K + 1) with oh.
  change (padded_extent (grid_x s) p - K + 1) with ow.
  assert (HS8 : Forall (fun d => 0 <= d) [B; C; K; K; K; od; oh; ow]).
  { repeat (constructor; [lia|]). constructor. }
  rewrite (bind_ok _ _ _ _ _ (torch_zeros_run _ _ HS8)).
  rewrite (bind_ok _ _ _ _ _ (torch_zeros_run _ _ HS8)).
  rewrite <- app_assoc. cbn [app].
  rewrite length_app. cbn [length]. rewrite Nat.add_1_r.
  set (Z8 := {| shape := [B; C; K; K; K; od; oh; ow]; get := fun _ => zero |}).
  (* the first loop *)
  assert (Hod : 0 <= od /\ od + K - 1 <= padded_extent (grid_z s) p)
    by (split; [lia | unfold od, out_extent; lia]).
  assert (Hoh : 0 <= oh /\ oh + K - 1 <= padded_extent (grid_y s) p)
    by (split; [lia | unfold oh, out_extent; lia]).
  assert (How : 0 <= ow /\ ow + K - 1 <= padded_extent (grid_x s) p)
    by (split; [lia | unfold ow, out_extent; lia]).
  destruct (fill_z h2 ia Z8 P B C K _ _ _ od oh ow Hia HPs Hod Hoh How
              (h2 ++ [ODense Z8; ODense Z8]))
    as (hp1 & E1 & (U & -> & HUs & HU)).
  { exists Z8. split; [reflexivity|]. split; [reflexivity|].
    intros. split; [tauto|reflexivity]. }
  rewrite (bind_ok _ _ _ _ _ E1).
  (* the second loop *)
  assert (Hn : (bind (load_sparse a)
                 (fun s0 => ret (Z.of_nat (length (coordinates s0)))))
                 (h2 ++ [ODense U; ODense Z8])
               = ret (Z.of_nat (length (coordinates s)))
                   (h2 ++ [ODense U; ODense Z8])).
  { assert (L : (h2 ++ [ODense U; ODense Z8]) !! a = Some (OSparse s)).
    { rewrite lookup_app_l; [exact Ha2|]. now apply lookup_lt_Some in Ha2. }
    now rewrite (bind_ok _ _ _ _ _ (load_sparse_run _ _ _ L)). }
  rewrite (bind_ok _ _ _ _ _ Hn).
  destruct (mask_loop h2 a s U B C K od oh ow Ha2 ltac:(lia) HUs
              ltac:(intros l Hl; destruct (locations_in_grid s C l Hwf Hl)
                      as (? & ? & ? & ?); destruct (Hfit l Hl) as (? & ? & ?);
                    fold B; lia)
              (h2 ++ [ODense U; ODense Z8]))
    as (hp2 & E2 & (Cc & -> & HCs & HCm)).
  { exists Z8. split; [reflexivity|]. split; [reflexivity|].
    intros. split; [tauto|reflexivity]. }
  rewrite (bind_ok _ _ _ _ _ E2).
  (* the layout *)
  assert (Hcol : (h2 ++ [ODense U; ODense Cc]) !! S (length h2) = Some (ODense Cc)).
  { rewrite lookup_app_r by lia.
    replace (S (length h2) - length h2)%nat with 1%nat by lia. reflexivity. }
  rewrite (bind_ok _ _ _ _ _ (load_dense_run _ _ _ Hcol)).
  destruct (layout Cc B C K od oh ow HCs ltac:(lia) HC HK ltac:(lia) ltac:(lia)
              ltac:(lia)) as (c1 & c2 & t & V1 & V2 & V3 & Hts & Hget).
  rewrite V1. unfold lift at 1. unfold bind at 1, ret at 1.
  rewrite V2. unfold lift at 1. unfold bind at 1, ret at 1.
  unfold contiguous, alloc, bind at 1.
  rewrite (bind_ok _ _ _ _ _ (load_dense_run _ _ _ (lookup_snoc _ _))).
  rewrite V3. unfold lift, ret.
  exists (e ++ [ODense U; ODense Cc; ODense c2]), t. split; [|split].
  - unfold h2. rewrite <- !app_assoc. reflexivity.
  - exact Hts.
  - intros b z y x ch kz ky kx Hr Hc. unfold row_of. fold B od oh ow.
    rewrite (Hget b z y x ch kz ky kx Hr Hc).
    destruct (HCm b ch kz ky kx z y x) as [M1 M2].
    destruct (HU b ch kz ky kx z y x) as [F1 _].
    destruct (decide ((b, z, y, x) ∈ locations s)) as [Hin|Hnin].
    + rewrite (M1 Hin). rewrite F1.
      * now rewrite (Z.add_comm kz), (Z.add_comm ky), (Z.add_comm kx).
      * apply in_range_inv in Hc as [_ Hc].
        apply in_range_inv in Hc as [? Hc].
        apply in_range_inv in Hc as [? Hc].
        apply in_range_inv in Hc as [? Hc]. lia.
    + exact (M2 Hnin).
Qed.



(** ** The exported matrix *)

Lemma map_lookup {A B} (f : A -> B) (l : list A) i :
  map f l !! i = option_map f (l !! i).
Proof. revert i. induction l as [|x l IH]; intros [|i]; simpl; auto. Qed.

Lemma map_const_replicate {A B} (l : list A) (x : B) :
  map (fun _ => x) l = replicate (length l) x.
Proof. induction l; simpl; congruence. Qed.

Lemma to_matrix_length t R Cn :
  shape t = [R; Cn] -> length (to_matrix t) = Z.to_nat R.
Proof.
  intros Hs. unfold to_matrix. rewrite Hs, length_map. apply length_seqZ.
Qed.

Lemma to_matrix_lookup t R Cn r :
  shape t = [R; Cn] -> 0 <= r < R ->
  to_matrix t !! Z.to_nat r = Some (map (fun j => get t [r; j]) (seqZ 0 Cn)).
Proof.
  intros Hs Hr. unfold to_matrix. rewrite Hs, map_lookup.
  rewrite lookup_seqZ_lt by lia. simpl. now rewrite Z2Nat.id by lia.
Qed.

Lemma fits_half s C K : wf_sparse s C -> 0 < K -> fits s (K / 2) K.
Proof.
  intros Hwf HK l Hl.
  destruct (locations_in_grid s C l Hwf Hl) as (_ & Hz & Hy & Hx).
  unfold out_extent, padded_extent.
  pose proof (Z.div_mod K 2 ltac:(lia)) as Hdm.
  pose proof (Z.mod_pos_bound K 2 ltac:(lia)) as Hmb.
  destruct (0 <? K / 2) eqn:E; [|apply Z.ltb_ge in E]; lia.
Qed.

Lemma run_rows h a s C K p :
  h !! a = Some (OSparse s) -> wf_sparse s C -> 0 < K -> fits s p K ->
  exists e t,
    im2col_3d a K 1 p h = (h ++ e, inr t)
    /\ shape t
       = [grid_b s * out_extent (grid_z s) p K * out_extent (grid_y s) p K
          * out_extent (grid_x s) p K; C * K * K * K]
    /\ 0 < grid_b s * out_extent (grid_z s) p K * out_extent (grid_y s) p K
           * out_extent (grid_x s) p K
    /\ forall r,
         0 <= r < grid_b s * out_extent (grid_z s) p K
                  * out_extent (grid_y s) p K * out_extent (grid_x s) p K ->
         to_matrix t !! Z.to_nat r
         = Some (if decide (location_of s p K r ∈ locations s)
                 then patch_at (padded_tensor s p) C K (location_of s p K r)
                 else replicate (Z.to_nat (C * K * K * K)) zero).
Proof.
  intros Ha Hwf HK Hfit.
  destruct (im2col_3d_run h a s C K p Ha Hwf HK Hfit) as (e & t & E & Hs & Hget).
  pose proof Hwf as (_ & HC & Hne & _).
  assert (Hex : exists l, l ∈ locations s).
  { unfold locations. destruct (coordinates s) as [|c cs]; [congruence|].
    eexists. left. }
  destruct Hex as [l0 Hl0].
  destruct (locations_in_grid s C l0 Hwf Hl0) as (Hb0 & Hz0 & Hy0 & Hx0).
  destruct (Hfit l0 Hl0) as (Fz0 & Fy0 & Fx0).
  unfold location_of, row_of in *.
  set (B := grid_b s) in *.
  set (od := out_extent (grid_z s) p K) in *.
  set (oh := out_extent (grid_y s) p K) in *.
  set (ow := out_extent (grid_x s) p K) in *.
  assert (Hpos4 : Forall (fun d => 0 < d) [B; od; oh; ow]).
  { repeat (constructor; [lia|]). constructor. }
  assert (HposC : Forall (fun d => 0 < d) [C; K; K; K]).
  { repeat (constructor; [lia|]). constructor. }
  assert (Hn4 : numel [B; od; oh; ow] = B * od * oh * ow)
    by (cbn [numel foldr]; ring).
  assert (HnC : numel [C; K; K; K] = C * K * K * K)
    by (cbn [numel foldr]; ring).
  exists e, t. split; [exact E|]. split; [exact Hs|].
  split; [rewrite <- Hn4; now apply numel_pos|].
  intros r Hr.
  rewrite (to_matrix_lookup t _ _ r Hs Hr). f_equal.
  rewrite <- Hn4 in Hr.
  pose proof (unravel_in_range _ Hpos4 r Hr) as Hin.
  pose proof (ravel_unravel _ Hpos4 r Hr) as Hrav.
  cbn [unravel] in Hin, Hrav |- *.
  match type of Hin with in_range _ [?vb; ?vz; ?vy; ?vx] =>
    set (b := vb) in *; set (z := vz) in *; set (y := vy) in *;
    set (x := vx) in * end.
  destruct (decide ((b, z, y, x) ∈ locations s)) as [Hl|Hl].
  - unfold patch_at, patch_row. apply map_ext_in. intros j Hj.
    apply list_elem_of_In, elem_of_seqZ in Hj.
    rewrite <- HnC in Hj.
    pose proof (unravel_in_range _ HposC j ltac:(lia)) as Hinj.
    pose proof (ravel_unravel _ HposC j ltac:(lia)) as Hravj.
    cbn [unravel] in Hinj, Hravj |- *.
    rewrite <- Hrav at 1. rewrite <- Hravj at 1.
    rewrite (Hget _ _ _ _ _ _ _ _ Hin Hinj).
    rewrite decide_True by exact Hl. reflexivity.
  - rewrite <- (length_seqZ 0 (C * K * K * K)).
    rewrite <- map_const_replicate. apply map_ext_in. intros j Hj.
    apply list_elem_of_In, elem_of_seqZ in Hj.
    rewrite <- HnC in Hj.
    pose proof (unravel_in_range _ HposC j ltac:(lia)) as Hinj.
    pose proof (ravel_unravel _ HposC j ltac:(lia)) as Hravj.
    cbn [unravel] in Hinj, Hravj |- *.
    rewrite <- Hrav at 1. rewrite <- Hravj at 1.
    rewrite (Hget _ _ _ _ _ _ _ _ Hin Hinj).
    rewrite decide_False by exact Hl. reflexivity.
Qed.


(** ** The frame of the extractor *)

Lemma keeps_ret {A} n (a : A) (Q : A -> Prop) :
  Q a -> keeps (elt := elt) n (ret a) Q.
Proof. intros HQ h Hn. simpl. repeat split; auto. intros ? [= <-]. exact HQ. Qed.

Lemma keeps_raise {A} n e (Q : A -> Prop) : keeps (elt := elt) n (raise e) Q.
Proof. intros h Hn. simpl. repeat split; auto. discriminate. Qed.

Lemma keeps_lift {A} n (r : exn + A) :
  keeps (elt := elt) n (lift r) (fun _ => True).
Proof. destruct r; [apply keeps_raise|now apply keeps_ret]. Qed.

Lemma keeps_bind {A B} n (m : M (heap elt) A) (k : A -> M (heap elt) B)
  (Q : A -> Prop) (R : B -> Prop) :
  keeps n m Q -> (forall a, Q a -> keeps n (k a) R) -> keeps n (bind m k) R.
Proof.
  intros Hm Hk h Hn. unfold bind. destruct (Hm h Hn) as (Ht & Hl & HQ).
  destruct (m h) as [h' [e|a]]; simpl in *.
  - repeat split; auto. discriminate.
  - destruct (Hk a (HQ a eq_refl) h' Hl) as (Ht' & Hl' & HR).
    repeat split; auto. congruence.
Qed.

Lemma keeps_weaken {A} n (m : M (heap elt) A) (Q : A -> Prop) :
  keeps n m Q -> keeps n m (fun _ => True).
Proof. intros Hm h Hn. destruct (Hm h Hn) as (? & ? & _). auto. Qed.

Lemma keeps_for_each {A} n (l : list A) (body : A -> M (heap elt) unit) :
  (forall a, keeps n (body a) (fun _ => True)) ->
  keeps n (for_each l body) (fun _ => True).
Proof.
  intros Hb. induction l as [|a l IH]; simpl; [now apply keeps_ret|].
  eapply keeps_bind; [apply Hb|intros _ _; exact IH].
Qed.

Lemma keeps_alloc n (o : obj elt) : keeps n (alloc o) (fun a => (n <= a)%nat).
Proof.
  intros h Hn. unfold alloc. simpl. rewrite take_app_le by lia.
  rewrite length_app. repeat split; [lia|]. intros a [= <-]. exact Hn.
Qed.

Lemma keeps_load_dense n a : keeps n (load_dense (elt := elt) a) (fun _ => True).
Proof. intros h Hn. unfold load_dense. repeat case_match; simpl; auto. Qed.

Lemma keeps_load_sparse n a : keeps n (load_sparse (elt := elt) a) (fun _ => True).
Proof. intros h Hn. unfold load_sparse. repeat case_match; simpl; auto. Qed.

Lemma keeps_store n a (o : obj elt) :
  (n <= a)%nat -> keeps n (store a o) (fun _ => True).
Proof.
  intros Ha h Hn. unfold store. simpl. rewrite take_insert_ge by lia.
  rewrite length_insert. auto.
Qed.

Lemma keeps_floordiv n a b : keeps n (floordiv (elt := elt) a b) (fun _ => True).
Proof. unfold floordiv. destruct (b =? 0); [apply keeps_raise|now apply keeps_ret]. Qed.

Lemma keeps_torch_zeros n shp : keeps n (torch_zeros shp) (fun a => (n <= a)%nat).
Proof. unfold torch_zeros. destruct (forallb _ _); [apply keeps_alloc|apply keeps_raise]. Qed.

Lemma keeps_size5 n a : keeps n (size5 (elt := elt) a) (fun _ => True).
Proof.
  unfold size5. eapply keeps_bind; [apply keeps_load_dense|]. intros t _.
  repeat case_match; first [apply keeps_raise | now apply keeps_ret].
Qed.

Lemma keeps_pad n a p : keeps n (pad (elt := elt) a p) (fun _ => True).
Proof.
  unfold pad. eapply keeps_bind; [apply keeps_load_dense|]. intros t _.
  repeat case_match;
    first [apply keeps_raise | eapply keeps_weaken; apply keeps_alloc].
Qed.

Lemma keeps_setitem_slot n a z y x (v : tensor elt) :
  (n <= a)%nat -> keeps n (setitem_slot a z y x v) (fun _ => True).
Proof.
  intros Ha. unfold setitem_slot.
  eapply keeps_bind; [apply keeps_load_dense|]. intros t _.
  destruct (shape t) as [|? [|? [|? [|? [|? [|? [|? [|? [|]]]]]]]]];
    try apply keeps_raise.
  do 3 (eapply keeps_bind; [apply keeps_lift|intros ? _]).
  destruct (decide _); [now apply keeps_store|apply keeps_raise].
Qed.

Lemma keeps_setitem_loc n a b z y x (v : tensor elt) :
  (n <= a)%nat -> keeps n (setitem_loc a b z y x v) (fun _ => True).
Proof.
  intros Ha. unfold setitem_loc.
  eapply keeps_bind; [apply keeps_load_dense|]. intros t _.
  repeat case_match; first [apply keeps_raise | now apply keeps_store].
Qed.

Lemma keeps_dense n a mc : keeps n (dense (elt := elt) a mc) (fun _ => True).
Proof.
  unfold dense. eapply keeps_bind; [apply keeps_load_sparse|]. intros s _.
  destruct (shape (features s)) as [|? [|? [|]]]; try apply keeps_raise.
  eapply keeps_bind.
  { unfold assert. destruct (negb _); [now apply (keeps_ret _ _ (fun _ => True))
                                      |apply keeps_raise]. }
  intros _ _.
  destruct (_ || _); [apply keeps_raise|].
  destruct (negb _); [apply keeps_raise|].
  destruct (cells_of _ _); [apply keeps_raise|].
  eapply keeps_bind; [apply keeps_alloc|]. intros d _. now apply keeps_ret.
Qed.

Lemma keeps_im2col_3d n a K stride p :
  keeps n (im2col_3d (elt := elt) a K stride p) (fun _ => True).
Proof.
  unfold im2col_3d.
  eapply keeps_bind.
  { unfold assert. destruct (stride =? 1);
      [now apply (keeps_ret _ _ (fun _ => True))|apply keeps_raise]. }
  intros _ _.
  eapply keeps_bind; [apply keeps_dense|]. intros [[input_data mc] ts] _.
  eapply keeps_bind.
  { destruct (0 <? p); [apply keeps_pad|now apply (keeps_ret _ _ (fun _ => True))]. }
  intros ia _.
  eapply keeps_bind; [apply keeps_size5|]. intros [[[[B C] D] Hh] W] _.
  eapply keeps_bind; [apply keeps_torch_zeros|]. intros cu Hcu.
  eapply keeps_bind; [apply keeps_torch_zeros|]. intros col Hcol.
  eapply keeps_bind.
  { apply keeps_for_each. intros z. apply keeps_for_each. intros y.
    apply keeps_for_each. intros x.
    eapply keeps_bind; [apply keeps_load_dense|]. intros src _.
    eapply keeps_bind; [apply keeps_lift|]. intros v _.
    now apply keeps_setitem_slot. }
  intros _ _.
  eapply keeps_bind.
  { eapply keeps_bind; [apply keeps_load_sparse|]. intros s _.
    now apply (keeps_ret _ _ (fun _ => True)). }
  intros cnt _.
  eapply keeps_bind.
  { apply keeps_for_each. intros i.
    eapply keeps_bind; [apply keeps_load_sparse|]. intros s _.
    eapply keeps_bind.
    { destruct (_ !! _); [now apply (keeps_ret _ _ (fun _ => True))
                         |apply keeps_raise]. }
    intros crds _.
    do 3 (eapply keeps_bind; [apply keeps_floordiv|intros ? _]).
    eapply keeps_bind; [apply keeps_load_dense|]. intros u _.
    eapply keeps_bind; [apply keeps_lift|]. intros v _.
    now apply keeps_setitem_loc. }
  intros _ _.
  eapply keeps_bind; [apply keeps_load_dense|]. intros c _.
  eapply keeps_bind; [apply keeps_lift|]. intros c1 _.
  eapply keeps_bind; [apply keeps_lift|]. intros c2 _.
  eapply keeps_bind; [eapply keeps_weaken; apply keeps_alloc|]. intros c3 _.
  eapply keeps_bind; [apply keeps_load_dense|]. intros c4 _.
  apply keeps_lift.
Qed.

(** Whatever the arguments and the outcome, the objects of the heap the
    extractor is started on are still there, unchanged. *)
Lemma im2col_3d_frame h a K stride p a' o :
  h !! a' = Some o -> fst (im2col_3d a K stride p h) !! a' = Some o.
Proof.
  intros Ho.
  destruct (keeps_im2col_3d (length h) a K stride p h (Nat.le_refl _))
    as (Ht & Hl & _).
  rewrite firstn_all in Ht.
  rewrite <- (take_drop (length h) (fst (im2col_3d a K stride p h))), Ht.
  now apply lookup_app_l_Some.
Qed.


(** ** The claims on the extractor *)

Lemma location_of_row s C p K l :
  wf_sparse s C -> fits s p K -> l ∈ locations s ->
  0 <= row_of s p K (loc_b l) (loc_z l) (loc_y l) (loc_x l)
    < grid_b s * out_extent (grid_z s) p K * out_extent (grid_y s) p K
      * out_extent (grid_x s) p K
  /\ location_of s p K (row_of s p K (loc_b l) (loc_z l) (loc_y l) (loc_x l)) = l.
Proof.
  intros Hwf Hfit Hl.
  destruct (locations_in_grid s C l Hwf Hl) as (Hb & Hz & Hy & Hx).
  destruct (Hfit l Hl) as (Fz & Fy & Fx).
  unfold row_of, location_of.
  set (shp := [grid_b s; out_extent (grid_z s) p K; out_extent (grid_y s) p K;
               out_extent (grid_x s) p K]).
  assert (Hin : in_range shp [loc_b l; loc_z l; loc_y l; loc_x l]).
  { unfold shp. repeat (apply in_range_cons; [lia|]). constructor. }
  split.
  - pose proof (ravel_bound _ _ Hin) as Hb'. unfold shp in Hb' at 2.
    cbn [numel foldr] in Hb'.
    replace (grid_b s * out_extent (grid_z s) p K * out_extent (grid_y s) p K
             * out_extent (grid_x s) p K)
      with (grid_b s * (out_extent (grid_z s) p K * (out_extent (grid_y s) p K
             * (out_extent (grid_x s) p K * 1)))) by ring.
    exact Hb'.
  - rewrite (unravel_ravel _ _ Hin). destruct l as [[[b z] y] x]. reflexivity.
Qed.


(** C5.  Shape and layout: the output extents are
    [ceil((dim - K + 1) / stride)] of the padded extents, the matrix has
    [B * out_depth * out_height * out_width] rows of [C * K * K * K]
    columns, the row of location [(b, z, y, x)] is the row-major number
    of the location and the column of [(channel, kz, ky, kx)] the
    row-major number with the channel outermost. *)
Theorem output_shape_and_layout h a s K p B C depth height width :
  h !! a = Some (OSparse s) -> wf_sparse s C -> 0 < K -> fits s p K ->
  shape (padded_tensor s p) = [B; C; depth; height; width] ->
  let out_depth := ceil_div (depth - K + 1) 1 in
  let out_height := ceil_div (height - K + 1) 1 in
  let out_width := ceil_div (width - K + 1) 1 in
  exists h' t,
    im2col_3d a K 1 p h = (h', inr t)
    /\ shape t = [B * out_depth * out_height * out_width; C * K * K * K]
    /\ length (to_matrix t) = Z.to_nat (B * out_depth * out_height * out_width)
    /\ Forall (fun row => length row = Z.to_nat (C * K * K * K)) (to_matrix t)
    /\ forall b z y x ch kz ky kx,
         0 <= b < B -> 0 <= z < out_depth -> 0 <= y < out_height ->
         0 <= x < out_width ->
         0 <= ch < C -> 0 <= kz < K -> 0 <= ky < K -> 0 <= kx < K ->
         get t [((b * out_depth + z) * out_height + y) * out_width + x;
                ((ch * K + kz) * K + ky) * K + kx]
         = if decide ((b, z, y, x) ∈ locations s)
           then get (padded_tensor s p) [b; ch; z + kz; y + ky; x + kx]
           else zero.
Proof.
  intros Ha Hwf HK Hfit HP od oh ow.
  rewrite (padded_tensor_shape s C p Hwf) in HP.
  injection HP as <- <- <- <-.
  subst od oh ow. rewrite !ceil_div_1.
  fold (out_extent (grid_z s) p K) (out_extent (grid_y s) p K)
       (out_extent (grid_x s) p K).
  destruct (im2col_3d_run h a s C K p Ha Hwf HK Hfit) as (e & t & E & Hs & Hget).
  exists (h ++ e), t. split; [exact E|]. split; [exact Hs|].
  split; [exact (to_matrix_length t _ _ Hs)|]. split.
  - unfold to_matrix. rewrite Hs. apply Forall_forall. intros row Hrow.
    apply in_map_iff in Hrow as (r & <- & _).
    rewrite length_map. apply length_seqZ.
  - intros b z y x ch kz ky kx Hb Hz Hy Hx Hch Hkz Hky Hkx.
    rewrite <- (Hget b z y x ch kz ky kx).
    + unfold row_of. f_equal. f_equal; [|f_equal]; cbn [ravel numel foldr]; ring.
    + repeat (apply in_range_cons; [lia|]). constructor.
    + repeat (apply in_range_cons; [lia|]). constructor.
Qed.

(** C6.  The extractor does not change its input, whatever its
    arguments and its outcome; a run that returns leaves every object
    of the heap it was started on as it was, and a second run on the
    same input returns the same matrix. *)
Theorem idempotent_and_input_preserved h a s C K p :
  h !! a = Some (OSparse s) -> wf_sparse s C -> 0 < K -> fits s p K ->
  (forall K' stride' p',
     fst (im2col_3d a K' stride' p' h) !! a = Some (OSparse s))
  /\ exists h1 t1 h2 t2,
       im2col_3d a K 1 p h = (h1, inr t1)
       /\ im2col_3d a K 1 p h1 = (h2, inr t2)
       /\ (forall a' o, h !! a' = Some o ->
             h1 !! a' = Some o /\ h2 !! a' = Some o)
       /\ shape t1 = shape t2
       /\ to_matrix t1 = to_matrix t2.
Proof.
  intros Ha Hwf HK Hfit.
  split; [intros K' stride' p'; now apply im2col_3d_frame|].
  destruct (run_rows h a s C K p Ha Hwf HK Hfit)
    as (e1 & t1 & E1 & Hs1 & HR & Hrows1).
  assert (Ha1 : (h ++ e1) !! a = Some (OSparse s)).
  { rewrite lookup_app_l; [exact Ha|]. now apply lookup_lt_Some in Ha. }
  destruct (run_rows (h ++ e1) a s C K p Ha1 Hwf HK Hfit)
    as (e2 & t2 & E2 & Hs2 & _ & Hrows2).
  exists (h ++ e1), t1, ((h ++ e1) ++ e2), t2.
  split; [exact E1|]. split; [exact E2|]. split; [|split].
  - intros a' o Ho. split.
    + now apply lookup_app_l_Some.
    + now apply lookup_app_l_Some, lookup_app_l_Some.
  - now rewrite Hs1, Hs2.
  - apply list_eq. intros i.
    set (R := grid_b s * out_extent (grid_z s) p K * out_extent (grid_y s) p K
              * out_extent (grid_x s) p K) in *.
    destruct (decide (i < Z.to_nat R)%nat) as [Hi|Hi].
    + specialize (Hrows1 (Z.of_nat i) ltac:(lia)).
      specialize (Hrows2 (Z.of_nat i) ltac:(lia)).
      rewrite Nat2Z.id in Hrows1, Hrows2. now rewrite Hrows1, Hrows2.
    + rewrite !lookup_ge_None_2; [reflexivity| |].
      * rewrite (to_matrix_length t2 _ _ Hs2). lia.
      * rewrite (to_matrix_length t1 _ _ Hs1). lia.
Qed.

(** C9, as amended.  For an input without a coordinate below the
    minimum coordinate (0,0,0), an odd kernel size, stride 1 and padding
    [K / 2], the output extents are the extents of the dense grid, the
    local index of every coordinate row lies in [0, out_dim) on every
    spatial axis, and the extractor runs to its end. *)
Theorem mask_indices_in_bounds h a s C K :
  h !! a = Some (OSparse s) -> wf_sparse s C -> 0 < K -> Z.odd K = true ->
  (out_extent (grid_z s) (K / 2) K = grid_z s
   /\ out_extent (grid_y s) (K / 2) K = grid_y s
   /\ out_extent (grid_x s) (K / 2) K = grid_x s)
  /\ (forall i crd, coordinates s !! i = Some crd ->
        0 <= (loc_z crd - 0) / fst (fst (tensor_stride s))
          < out_extent (grid_z s) (K / 2) K
        /\ 0 <= (loc_y crd - 0) / snd (fst (tensor_stride s))
             < out_extent (grid_y s) (K / 2) K
        /\ 0 <= (loc_x crd - 0) / snd (tensor_stride s)
             < out_extent (grid_x s) (K / 2) K)
  /\ exists h' t, im2col_3d a K 1 (K / 2) h = (h', inr t).
Proof.
  intros Ha Hwf HK Hodd.
  assert (Hext : forall d, out_extent d (K / 2) K = d).
  { intros d. unfold out_extent, padded_extent.
    pose proof (Z.div_mod K 2 ltac:(lia)) as Hdm.
    rewrite Zmod_odd, Hodd in Hdm.
    destruct (0 <? K / 2) eqn:E; [|apply Z.ltb_ge in E]; lia. }
  split; [now rewrite !Hext|]. split.
  - intros i crd Hcrd. rewrite !Hext.
    assert (Hl : local_index (0, 0, 0) (tensor_stride s) crd ∈ locations s).
    { unfold locations. apply list_elem_of_fmap. exists crd. split; [reflexivity|].
      eapply list_elem_of_lookup_2; eauto. }
    destruct (locations_in_grid s C _ Hwf Hl) as (_ & Hz & Hy & Hx).
    rewrite local_index_eq in Hz, Hy, Hx.
    unfold loc_z at 1 in Hz. unfold loc_y at 1 in Hy. unfold loc_x at 1 in Hx.
    cbn [fst snd] in Hz, Hy, Hx. auto.
  - pose proof (fits_half s C K Hwf HK) as Hfit.
    destruct (im2col_3d_run h a s C K (K / 2) Ha Hwf HK Hfit) as (e & t & E & _).
    eauto.
Qed.



(** ** Densification and the order of the rows *)









(** ** Which exceptions a computation can raise *)

Lemma nr_ret {St A} e (a : A) : never_raises (St := St) e (ret a).
Proof. intros st. discriminate. Qed.

Lemma nr_raise {St A} e e' : e' <> e -> never_raises (St := St) (A := A) e (raise e').
Proof. intros Hne st. simpl. congruence. Qed.

Lemma nr_bind {St A B} e (m : M St A) (k : A -> M St B) :
  never_raises e m -> (forall a, never_raises e (k a)) ->
  never_raises e (bind m k).
Proof.
  intros Hm Hk st. unfold bind. specialize (Hm st).
  destruct (m st) as [st' [e'|a]]; simpl in *; [congruence|apply Hk].
Qed.

Lemma nr_for_each {St A} e (l : list A) (body : A -> M St unit) :
  (forall a, never_raises e (body a)) -> never_raises e (for_each l body).
Proof.
  intros Hb. induction l as [|a l IH]; simpl; [apply nr_ret|].
  apply nr_bind; [apply Hb|intros _; exact IH].
Qed.

Lemma nr_lift {St A} e (r : exn + A) :
  r <> inl e -> never_raises (St := St) e (lift r).
Proof. intros Hr st. destruct r; simpl; congruence. Qed.

Lemma nr_assert {St} e b msg :
  e <> AssertionError msg -> never_raises (St := St) e (assert b msg).
Proof. intros Hne st. destruct b; simpl; congruence. Qed.

Ltac nr_prim :=
  intros ?h; cbv beta delta [alloc load_dense load_sparse store floordiv
    torch_zeros size5 pad setitem_loc contiguous bind ret raise lift];
  repeat case_match; simpl; congruence.

Ltac nr_pure :=
  cbv beta delta [slice3 getitem_loc view transpose];
  repeat case_match; simpl; congruence.

Lemma nr_norm_index msg size i : norm_index size i <> inl (AssertionError msg).
Proof. unfold norm_index. repeat case_match; congruence. Qed.

Lemma nr_setitem_slot msg a z y x (v : tensor elt) :
  never_raises (AssertionError msg) (setitem_slot a z y x v).
Proof.
  unfold setitem_slot. apply nr_bind; [nr_prim|]. intros t.
  destruct (shape t) as [|? [|? [|? [|? [|? [|? [|? [|? [|]]]]]]]]];
    try (apply nr_raise; discriminate).
  do 3 (apply nr_bind; [apply nr_lift, nr_norm_index|intros ?]).
  destruct (decide _); [nr_prim|apply nr_raise; discriminate].
Qed.

Lemma cells_of_error shp locs msg :
  cells_of shp locs <> inl (AssertionError msg).
Proof.
  induction locs as [|l locs IH]; [discriminate|]. cbn [cells_of].
  assert (Hc : cell_of shp l <> inl (AssertionError msg)).
  { unfold cell_of. repeat case_match; discriminate. }
  destruct (cell_of shp l) as [e|c]; [intros [= ->]; now apply Hc|].
  destruct (cells_of shp locs) as [e|cs]; [|discriminate].
  intros [= ->]. now apply IH.
Qed.

Lemma nr_dense msg a mc :
  msg <> "shape is required to densify an empty tensor"%string ->
  never_raises (AssertionError msg) (dense (elt := elt) a mc).
Proof.
  intros Hmsg. unfold dense.
  apply nr_bind; [nr_prim|]. intros s.
  destruct (shape (features s)) as [|? [|? [|]]];
    try (apply nr_raise; discriminate).
  apply nr_bind; [apply nr_assert; congruence|]. intros _.
  destruct (_ || _); [apply nr_raise; discriminate|].
  destruct (negb _); [apply nr_raise; discriminate|].
  destruct (cells_of _ _) as [e|cells] eqn:Ec.
  - apply nr_raise. intros ->. revert Ec. apply cells_of_error.
  - apply nr_bind; [nr_prim|]. intros d. apply nr_ret.
Qed.

Lemma nr_im2col_3d a K p :
  never_raises (AssertionError "stride must be 1") (im2col_3d (elt := elt) a K 1 p).
Proof.
  unfold im2col_3d.
  apply nr_bind; [intros h; discriminate|]. intros _.
  apply nr_bind; [apply nr_dense; discriminate|]. intros [[input_data mc] ts].
  apply nr_bind; [destruct (0 <? p); nr_prim|]. intros ia.
  apply nr_bind; [nr_prim|]. intros [[[[B C] D] Hh] W].
  apply nr_bind; [nr_prim|]. intros cu.
  apply nr_bind; [nr_prim|]. intros col.
  apply nr_bind.
  { apply nr_for_each. intros z. apply nr_for_each. intros y.
    apply nr_for_each. intros x.
    apply nr_bind; [nr_prim|]. intros src.
    apply nr_bind; [apply nr_lift; nr_pure|]. intros v.
    apply nr_setitem_slot. }
  intros _.
  apply nr_bind; [apply nr_bind; [nr_prim|intros; apply nr_ret]|]. intros n.
  apply nr_bind.
  { apply nr_for_each. intros i.
    apply nr_bind; [nr_prim|]. intros s.
    apply nr_bind; [destruct (_ !! _); [apply nr_ret|apply nr_raise; discriminate]|].
    intros crds.
    apply nr_bind; [nr_prim|]. intros z.
    apply nr_bind; [nr_prim|]. intros y.
    apply nr_bind; [nr_prim|]. intros x.
    apply nr_bind; [nr_prim|]. intros u.
    apply nr_bind; [apply nr_lift; nr_pure|]. intros v. nr_prim. }
  intros _.
  apply nr_bind; [nr_prim|]. intros c.
  apply nr_bind; [apply nr_lift; nr_pure|]. intros c1.
  apply nr_bind; [apply nr_lift; nr_pure|]. intros c2.
  apply nr_bind; [nr_prim|]. intros c3.
  apply nr_bind; [nr_prim|]. intros c4.
  apply nr_lift; nr_pure.
Qed.

(** C3.  A stride other than 1 makes the extractor raise its assertion
    at once, on the heap it was started on; with stride 1 that
    assertion is never the outcome. *)
Theorem stride_precondition h a K stride p :
  (stride <> 1 ->
   im2col_3d a K stride p h = (h, inl (AssertionError "stride must be 1")))
  /\ (stride = 1 ->
      snd (im2col_3d a K stride p h) <> inl (AssertionError "stride must be 1")).
Proof.
  split.
  - intros Hs. unfold im2col_3d, bind at 1, assert.
    apply Z.eqb_neq in Hs. now rewrite Hs.
  - intros ->. apply nr_im2col_3d.
Qed.



(** ** The forward hook *)

Lemma on_objects_ok {A} (m : M (heap elt) A) (st : hook_state elt) h' r :
  m (objects st) = (h', inr r) -> on_objects m st = (with_objects st h', inr r).
Proof. intros E. unfold on_objects. now rewrite E. Qed.

(** C4, as amended.  The padding is what the caller passes; the hook
    passes [kernel_size // 2]: the one array it saves for a stride-1
    layer holds the patches read from the grid padded by [K / 2], and
    for any other stride it saves nothing. *)
Theorem hook_pads_by_half_kernel name (st : hook_state elt) a s C K :
  objects st !! a = Some (OSparse s) -> wf_sparse s C -> 0 < K ->
  (exists st' M,
     in_hook name [a] K 1 st = (st', inr [(0, M)])
     /\ forall r,
          0 <= r < grid_b s * out_extent (grid_z s) (K / 2) K
                   * out_extent (grid_y s) (K / 2) K
                   * out_extent (grid_x s) (K / 2) K ->
          M !! Z.to_nat r
          = Some (if decide (location_of s (K / 2) K r ∈ locations s)
                  then patch_at (padded_tensor s (K / 2)) C K
                         (location_of s (K / 2) K r)
                  else replicate (Z.to_nat (C * K * K * K)) zero))
  /\ forall stride, stride <> 1 ->
       exists st', in_hook name [a] K stride st = (st', inr []).
Proof.
  intros Ha Hwf HK.
  set (st1 := {| objects := objects st;
                 in_activation := dict_set (activation_key name 0) a
                                    (in_activation st) |}).
  assert (E0 : setitem_dict (activation_key name 0) a st = (st1, inr tt))
    by reflexivity.
  set (h := objects st) in *.
  assert (Hd : (h ++ [ODense (dense_tensor s)]) !! length h
               = Some (ODense (dense_tensor s))) by apply lookup_snoc.
  pose proof (dense_tensor_shape s C Hwf) as Hds.
  set (st2 := with_objects st1 (h ++ [ODense (dense_tensor s)])).
  assert (E1 : on_objects (dense a (0, 0, 0)) st1
               = (st2, inr (length h, (0, 0, 0), tensor_stride s)))
    by apply (on_objects_ok _ st1), (dense_run h a s C Ha Hwf).
  assert (E2 : on_objects (size5 (length h)) st2
               = (st2, inr (grid_b s, C, grid_z s, grid_y s, grid_x s)))
    by apply (on_objects_ok _ st2), (size5_run _ _ _ _ _ _ _ _ Hd Hds).
  split.
  - assert (Ha1 : (h ++ [ODense (dense_tensor s)]) !! a = Some (OSparse s))
      by now apply lookup_app_l_Some.
    destruct (run_rows _ a s C K (K / 2) Ha1 Hwf HK (fits_half s C K Hwf HK))
      as (e & t & E & Hs & _ & Hrows).
    exists (with_objects st2 ((h ++ [ODense (dense_tensor s)]) ++ e)),
      (to_matrix t).
    split; [|exact Hrows].
    unfold in_hook, in_hook_from.
    rewrite (bind_ok _ _ _ _ _ E0), (bind_ok _ _ _ _ _ E1). cbv beta iota.
    rewrite (bind_ok _ _ _ _ _ E2).
    change (1 =? 1) with true. cbv iota.
    rewrite (bind_ok _ _ _ _ _
               (bind_ok _ _ _ _ _ (on_objects_ok _ st2 _ _ E))).
    reflexivity.
  - intros stride Hstride. exists st2.
    unfold in_hook, in_hook_from.
    rewrite (bind_ok _ _ _ _ _ E0), (bind_ok _ _ _ _ _ E1). cbv beta iota.
    rewrite (bind_ok _ _ _ _ _ E2).
    apply Z.eqb_neq in Hstride. rewrite Hstride. reflexivity.
Qed.

(** ** Weight export *)

Lemma numel_last (l : list Z) k :
  list.last l = Some k -> exists m, numel l = m * k.
Proof.
  induction l as [|d l IH]; [discriminate|]. destruct l as [|d' l].
  - intros [= ->]. exists 1. cbn [numel foldr]. ring.
  - intros Hl. destruct (IH Hl) as [m Hm]. exists (d * m).
    change (numel (d :: d' :: l)) with (d * numel (d' :: l)). rewrite Hm. ring.
Qed.

Lemma last_elem (l : list Z) k : list.last l = Some k -> k ∈ l.
Proof.
  induction l as [|d l IH]; [discriminate|]. destruct l as [|d' l].
  - intros [= ->]. left.
  - intros Hl. right. now apply IH.
Qed.

Lemma infer_shape_plain n req :
  Forall (fun d => 0 < d) req -> numel req = n -> infer_shape n req = Some req.
Proof.
  intros Hp <-. unfold infer_shape.
  assert (E2 : filter (fun d => d = -1) req = []).
  { induction Hp as [|d l Hd _ IH]; [reflexivity|].
    rewrite filter_cons, decide_False by lia. exact IH. }
  assert (E1 : forallb (fun d => -1 <=? d) req = true).
  { apply forallb_forall. intros d Hd. apply Z.leb_le.
    rewrite list.Forall_forall in Hp. apply list_elem_of_In, Hp in Hd. lia. }
  rewrite E1, E2. cbn [negb length]. now rewrite Z.eqb_refl.
Qed.

Lemma weight_roundtrip (kernel : tensor elt) d0 d1 rest :
  shape kernel = d0 :: d1 :: rest ->
  Forall (fun d => 0 < d) (d0 :: d1 :: rest) ->
  exists w k' Kl,
    export_weight kernel = inr w
    /\ list.last (d1 :: d0 :: rest) = Some Kl
    /\ shape w = [numel (d0 :: d1 :: rest) / Kl; Kl]
    /\ unexport_weight (shape kernel) w = inr k'
    /\ shape k' = shape kernel
    /\ forall idx, in_range (shape kernel) idx -> get k' idx = get kernel idx.
Proof.
  intros Hs Hpos.
  assert (Hpos' : Forall (fun d => 0 < d) (d1 :: d0 :: rest)).
  { inversion Hpos as [|? ? H0 Hp1]; subst. inversion Hp1; subst.
    repeat constructor; assumption. }
  destruct (list.last (d1 :: d0 :: rest)) as [Kl|] eqn:Hlast.
  2:{ apply last_None in Hlast. discriminate. }
  assert (HKl : 0 < Kl).
  { rewrite list.Forall_forall in Hpos'. apply Hpos'. now apply last_elem. }
  destruct (numel_last _ _ Hlast) as [m Hm].
  pose proof (numel_pos _ Hpos') as Hn'.
  assert (Hmpos : 0 < m) by nia.
  assert (Hnum : numel (d0 :: d1 :: rest) = numel (d1 :: d0 :: rest)).
  { cbn [numel foldr]. ring. }
  unfold export_weight, transpose. rewrite Hs. cbn [length].
  rewrite decide_True by lia. cbn [shape].
  change (swap 0 1 (d0 :: d1 :: rest)) with (d1 :: d0 :: rest).
  rewrite Hlast. unfold view at 1. cbn [shape].
  rewrite (infer_shape_first _ Kl m) by (try lia; exact Hm).
  eexists. eexists. exists Kl. split; [reflexivity|]. split; [reflexivity|].
  split. { cbn [shape]. rewrite Hnum, Hm, Z.div_mul by lia. reflexivity. }
  split.
  { unfold unexport_weight, view. cbn [shape].
    change (swap 0 1 (d0 :: d1 :: rest)) with (d1 :: d0 :: rest).
    rewrite (infer_shape_plain _ _ Hpos') by (rewrite Hm; cbn [numel foldr]; ring).
    unfold transpose. cbn [shape length]. rewrite decide_True by lia.
    reflexivity. }
  split; [reflexivity|].
  intros idx Hin. cbn [get].
  inversion Hin as [|? i0 ? idx1 Hi0 Hin1]; subst.
  inversion Hin1 as [|? i1 ? idx2 Hi1 Hin2]; subst.
  change (swap 0 1 (i0 :: i1 :: idx2)) with (i1 :: i0 :: idx2).
  assert (Hin' : in_range (d1 :: d0 :: rest) (i1 :: i0 :: idx2)).
  { repeat (apply in_range_cons; [assumption|]). assumption. }
  pose proof (ravel_bound _ _ Hin') as Hb.
  rewrite (ravel_unravel [m; Kl]).
  - rewrite (unravel_ravel _ _ Hin'). reflexivity.
  - repeat (constructor; [lia|]). constructor.
  - cbn [numel foldr]. rewrite Hm in Hb. lia.
Qed.

(** C7.  The weight export is invertible: for a kernel of at least
    three axes, all of positive extent, the export is the matrix whose
    last dimension is the kernel's last axis, and viewing it under the
    transposed shape and swapping the first two axes again gives back a
    tensor of the kernel's shape with the kernel's elements. *)
Theorem weight_export_invertible (kernel : tensor elt) d0 d1 d2 rest Kl :
  shape kernel = d0 :: d1 :: d2 :: rest ->
  Forall (fun d => 0 < d) (shape kernel) ->
  list.last (shape kernel) = Some Kl ->
  exists w k',
    export_weight kernel = inr w
    /\ shape w = [numel (shape kernel) / Kl; Kl]
    /\ unexport_weight (shape kernel) w = inr k'
    /\ shape k' = shape kernel
    /\ forall idx, in_range (shape kernel) idx -> get k' idx = get kernel idx.
Proof.
  intros Hs Hpos Hlast. rewrite Hs in Hpos, Hlast.
  destruct (weight_roundtrip kernel d0 d1 (d2 :: rest) Hs Hpos)
    as (w & k' & Kl' & E & Hl & Hw & Hu & Hk & Hget).
  assert (Kl' = Kl) as ->.
  { change (list.last (d1 :: d0 :: d2 :: rest)) with (list.last (d2 :: rest)) in Hl.
    change (list.last (d0 :: d1 :: d2 :: rest)) with (list.last (d2 :: rest)) in Hlast.
    congruence. }
  exists w, k'. rewrite Hs at 1. auto.
Qed.


End Properties.

(** ** Colour normalisation *)

Section ColorProperties.
Context {elt : Type} `{!ColorArith elt}.

Lemma map_elements_compose (f g : elt -> elt) (t : color_tensor elt) :
  map_elements g (map_elements f t) = map_elements (fun x => g (f x)) t.
Proof.
  unfold map_elements. cbn [c_dtype c_rows]. f_equal.
  rewrite map_map. apply map_ext. intros row. apply map_map.
Qed.

(** The run of [normalize_color] on a floating tensor, for any
    arithmetic. *)
Lemma normalize_color_run (h : list (color_tensor elt)) (color : addr)
  (t : color_tensor elt) (flag : bool) :
  h !! color = Some t -> is_floating (c_dtype t) = true ->
  let shifted :=
    map_elements (fun x => sub_half (c_dtype t)
                             (if flag then div_255 (c_dtype t) x else x)) t in
  exists h' r,
    normalize_color color flag h = (h', inr r)
    /\ h' !! color = Some shifted
    /\ h' !! r = Some (float_of shifted)
    /\ (c_dtype t = Float32 -> r = color)
    /\ (c_dtype t <> Float32 -> r = length h)
    /\ (forall a, a <> color -> (a < length h)%nat -> h' !! a = h !! a).
Proof.
  intros Hc Hf shifted.
  pose proof (lookup_lt_Some _ _ _ Hc) as Hlt.
  set (h1 := if flag
             then <[color := map_elements (div_255 (c_dtype t)) t]> h
             else h : list (color_tensor elt)).
  set (t1 := if flag then map_elements (div_255 (c_dtype t)) t else t).
  assert (E1 : (if flag then idiv_255 color else ret tt) h = (h1, inr tt)).
  { unfold h1. destruct flag; [|reflexivity]. unfold idiv_255. now rewrite Hc, Hf. }
  assert (H1 : h1 !! color = Some t1 /\ length h1 = length h
               /\ c_dtype t1 = c_dtype t
               /\ forall a, a <> color -> h1 !! a = h !! a).
  { unfold h1, t1. destruct flag; [|auto].
    rewrite list_lookup_insert_eq by exact Hlt. rewrite length_insert.
    repeat split; try reflexivity. intros a Ha. now rewrite list_lookup_insert_ne. }
  destruct H1 as (Hc1 & Hlen1 & Hdt1 & Hfr1).
  set (h2 := <[color := map_elements (sub_half (c_dtype t1)) t1]> h1
             : list (color_tensor elt)).
  assert (E2 : isub_half color h1 = (h2, inr tt)).
  { assert (Hf1 : is_floating (c_dtype t1) = true) by now rewrite Hdt1.
    unfold isub_half. now rewrite Hc1, Hf1. }
  assert (Hsh : map_elements (sub_half (c_dtype t1)) t1 = shifted).
  { unfold shifted, t1. destruct flag; [|reflexivity].
    cbn [map_elements c_dtype]. apply map_elements_compose. }
  assert (Hc2 : h2 !! color = Some shifted).
  { unfold h2. rewrite list_lookup_insert_eq by lia. now rewrite Hsh. }
  assert (Hfr2 : forall a, a <> color -> h2 !! a = h !! a).
  { intros a Ha. unfold h2. rewrite list_lookup_insert_ne by auto. now apply Hfr1. }
  assert (Hlen2 : length h2 = length h) by (unfold h2; now rewrite length_insert).
  unfold normalize_color.
  rewrite (bind_ok _ _ _ _ _ E1), (bind_ok _ _ _ _ _ E2).
  unfold float. rewrite Hc2.
  assert (Hds : c_dtype shifted = c_dtype t) by reflexivity.
  destruct (c_dtype shifted) eqn:Hd.
  - exists h2, color. repeat split; auto; [|congruence].
    rewrite Hc2. unfold float_of. now rewrite Hd.
  - exists (h2 ++ [float_of shifted]), (length h2). repeat split.
    + now apply lookup_app_l_Some.
    + rewrite lookup_app_r by lia. now rewrite Nat.sub_diag.
    + congruence.
    + intros _. exact Hlen2.
    + intros a Ha Hlt'. rewrite lookup_app_l by lia. now apply Hfr2.
  - rewrite <- Hds in Hf. discriminate.
Qed.

End ColorProperties.

(** C8, as amended.  On a tensor of a floating dtype [normalize_color]
    works in place: after the call the caller's tensor holds, for every
    element [x], the value [x / 255] (with the flag) less [0.5], each
    operation rounded in the dtype of the tensor.  The value returned
    is the caller's tensor itself when it is float32, and otherwise a
    new float32 tensor with these values rounded to float32.  No other
    tensor has changed. *)
Theorem normalize_color_in_place (h : list (color_tensor fval)) (color : addr)
  (t : color_tensor fval) (flag : bool) :
  h !! color = Some t -> is_floating (c_dtype t) = true ->
  let d := c_dtype t in
  let shift := fun x => fsub_half d (if flag then fdiv_255 d x else x) in
  let mutated := {| c_dtype := d; c_rows := map (map shift) (c_rows t) |} in
  let converted :=
    {| c_dtype := Float32;
       c_rows := map (map (fun x => fto_float32 d (shift x))) (c_rows t) |} in
  exists h' r,
    normalize_color color flag h = (h', inr r)
    /\ h' !! color = Some mutated
    /\ (d = Float32 -> r = color)
    /\ (d <> Float32 -> r = length h /\ h' !! r = Some converted)
    /\ (forall a, a <> color -> (a < length h)%nat -> h' !! a = h !! a).
Proof.
  intros Hc Hf d shift mutated converted.
  destruct (normalize_color_run h color t flag Hc Hf)
    as (h' & r & E & Hm & Hr & H32 & Hn32 & Hfr).
  exists h', r. split; [exact E|]. split; [exact Hm|]. split; [exact H32|].
  split; [|exact Hfr].
  intros Hd. split; [now apply Hn32|]. rewrite Hr. f_equal.
  unfold float_of, map_elements, converted, shift. cbn [c_dtype c_rows].
  subst d.
  destruct (c_dtype t) eqn:Ed; [congruence| |];
    (f_equal; rewrite map_map; apply map_ext; intros row; apply map_map).
Qed.

(** C8, as stated for every tensor, fails on a tensor of an integer
    dtype: the in-place arithmetic is refused and the call raises. *)
Lemma normalize_color_refuses_integer_tensor :
  ~ (forall (h : list (color_tensor fval)) (color : addr)
            (t : color_tensor fval) (flag : bool),
       h !! color = Some t ->
       exists h' r, normalize_color color flag h = (h', inr r)).
Proof.
  intros H.
  destruct (H [sample_int_color] 0%nat sample_int_color true eq_refl)
    as (h' & r & E).
  vm_compute in E. discriminate.
Qed.

(** * The two-voxel example and concrete runs *)

(** C2.  For the two-voxel tensor with voxels at (0,0,0) and (2,2,2),
    one channel, kernel size 3, stride 1 and padding 1, the extractor
    returns 27 rows: row 0 and row 26, the rows of the two voxels, are
    the 3x3x3 neighbourhoods read from the densified, zero-padded input
    around them (the voxel's own feature in the middle column, zeros
    around it), and every other row is all-zero. *)
Theorem two_voxel_patch_content (f1 f2 : Z) :
  let P := padded_tensor (two_voxel f1 f2) 1 in
  result_matrix (im2col_3d 0%nat 3 1 1 [OSparse (two_voxel f1 f2)])
  = Some (map (fun r => if decide (r = 0) then patch_row P 1 3 0 0 0 0
                        else if decide (r = 26) then patch_row P 1 3 0 2 2 2
                        else replicate 27 0) (seqZ 0 27))
  /\ patch_row P 1 3 0 0 0 0 = replicate 13 0 ++ [f1] ++ replicate 13 0
  /\ patch_row P 1 3 0 2 2 2 = replicate 13 0 ++ [f2] ++ replicate 13 0.
Proof. intros P. subst P. repeat split; vm_compute; reflexivity. Qed.

(** C4, as stated, fails: the padding is a parameter of the extractor.
    On the two-voxel tensor with kernel size 3, padding 0 (the default)
    and padding [3 // 2] give different outcomes. *)
Lemma padding_is_a_free_parameter :
  ~ (forall (h : heap Z) (a : addr) (K p : Z),
       result_matrix (im2col_3d a K 1 p h)
       = result_matrix (im2col_3d a K 1 (K / 2) h)).
Proof.
  intros H. specialize (H [OSparse (two_voxel 5 7)] 0%nat 3 0).
  vm_compute in H. discriminate.
Qed.

(** C9, as stated for every sparse input, fails: a coordinate below
    the minimum coordinate has a negative local index.  On the tensor
    with the rows (0,0,0,0) and (0,-1,1,1), kernel size 3 and padding
    [3 // 2], the extractor returns, and the masking loop has used the
    index -1 on the depth axis for the second row (the indexing counts
    it from the end of the axis). *)
Lemma negative_coordinate_negative_index :
  ~ (forall (s : SparseTensor Z) (K : Z),
       Z.odd K = true ->
       (exists h' t, im2col_3d 0%nat K 1 (K / 2) [OSparse s] = (h', inr t)) ->
       forall crd, crd ∈ coordinates s ->
         0 <= (loc_z crd - 0) / fst (fst (tensor_stride s))).
Proof.
  intros H.
  assert (Hrun : exists h' t,
             im2col_3d 0%nat 3 1 (3 / 2) [OSparse (below_origin 5 7)]
             = (h', inr t)).
  { destruct (im2col_3d 0%nat 3 1 (3 / 2) [OSparse (below_origin 5 7)])
      as [h' [e|t]] eqn:E; [|eauto].
    apply (f_equal result_matrix) in E. vm_compute in E. discriminate. }
  specialize (H (below_origin 5 7) 3 eq_refl Hrun (0, -1, 1, 1)).
  assert (Hin : (0, -1, 1, 1) ∈ coordinates (below_origin 5 7))
    by (cbn; rewrite !elem_of_cons; auto).
  specialize (H Hin). vm_compute in H. now apply H.
Qed.


(** * Witnesses *)

Ltac solve_wf :=
  unfold wf_sparse; cbn; repeat split; try lia; try discriminate;
  repeat constructor; cbn; lia.

Ltac solve_fits :=
  intros l Hl; unfold locations in Hl; cbn in Hl;
  repeat (apply elem_of_cons in Hl as [->|Hl]; [vm_compute; repeat split; reflexivity|]);
  apply elem_of_nil in Hl; destruct Hl.


Lemma hook_pads_by_half_kernel_witness :
  (exists st' M,
     in_hook "conv1" [0%nat] 3 1 two_voxel_state = (st', inr [(0, M)])
     /\ forall r,
          0 <= r < grid_b (two_voxel 5 7)
                   * out_extent (grid_z (two_voxel 5 7)) (3 / 2) 3
                   * out_extent (grid_y (two_voxel 5 7)) (3 / 2) 3
                   * out_extent (grid_x (two_voxel 5 7)) (3 / 2) 3 ->
          M !! Z.to_nat r
          = Some (if decide (location_of (two_voxel 5 7) (3 / 2) 3 r
                               ∈ locations (two_voxel 5 7))
                  then patch_at (padded_tensor (two_voxel 5 7) (3 / 2)) 1 3
                         (location_of (two_voxel 5 7) (3 / 2) 3 r)
                  else replicate (Z.to_nat (1 * 3 * 3 * 3)) 0))
  /\ forall stride, stride <> 1 ->
       exists st', in_hook "conv1" [0%nat] 3 stride two_voxel_state
                   = (st', inr []).
Proof.
  apply (hook_pads_by_half_kernel (elt := Z) "conv1" two_voxel_state 0%nat
           (two_voxel 5 7) 1 3); [reflexivity | solve_wf | lia].
Defined.

Lemma output_shape_and_layout_witness :
  exists h' t,
    im2col_3d 0%nat 3 1 1 [OSparse (two_voxel 5 7)] = (h', inr t)
    /\ shape t = [1 * ceil_div (5 - 3 + 1) 1 * ceil_div (5 - 3 + 1) 1
                  * ceil_div (5 - 3 + 1) 1; 1 * 3 * 3 * 3]
    /\ length (to_matrix t)
       = Z.to_nat (1 * ceil_div (5 - 3 + 1) 1 * ceil_div (5 - 3 + 1) 1
                   * ceil_div (5 - 3 + 1) 1)
    /\ Forall (fun row => length row = Z.to_nat (1 * 3 * 3 * 3)) (to_matrix t)
    /\ forall b z y x ch kz ky kx,
         0 <= b < 1 -> 0 <= z < ceil_div (5 - 3 + 1) 1 ->
         0 <= y < ceil_div (5 - 3 + 1) 1 -> 0 <= x < ceil_div (5 - 3 + 1) 1 ->
         0 <= ch < 1 -> 0 <= kz < 3 -> 0 <= ky < 3 -> 0 <= kx < 3 ->
         get t [((b * ceil_div (5 - 3 + 1) 1 + z) * ceil_div (5 - 3 + 1) 1 + y)
                * ceil_div (5 - 3 + 1) 1 + x;
                ((ch * 3 + kz) * 3 + ky) * 3 + kx]
         = if decide ((b, z, y, x) ∈ locations (two_voxel 5 7))
           then get (padded_tensor (two_voxel 5 7) 1) [b; ch; z + kz; y + ky; x + kx]
           else 0.
Proof.
  apply (output_shape_and_layout (elt := Z) [OSparse (two_voxel 5 7)] 0%nat
           (two_voxel 5 7) 3 1 1 1 5 5 5);
    [reflexivity | solve_wf | lia | solve_fits | reflexivity].
Defined.

Lemma idempotent_and_input_preserved_witness :
  (forall K' stride' p',
     fst (im2col_3d 0%nat K' stride' p' [OSparse (two_voxel 5 7)]) !! 0%nat
     = Some (OSparse (two_voxel 5 7)))
  /\ exists h1 t1 h2 t2,
       im2col_3d 0%nat 3 1 1 [OSparse (two_voxel 5 7)] = (h1, inr t1)
       /\ im2col_3d 0%nat 3 1 1 h1 = (h2, inr t2)
       /\ (forall a' o, [OSparse (two_voxel 5 7)] !! a' = Some o ->
             h1 !! a' = Some o /\ h2 !! a' = Some o)
       /\ shape t1 = shape t2
       /\ to_matrix t1 = to_matrix t2.
Proof.
  apply (idempotent_and_input_preserved (elt := Z) [OSparse (two_voxel 5 7)]
           0%nat (two_voxel 5 7) 1 3 1);
    [reflexivity | solve_wf | lia | solve_fits].
Defined.

Lemma mask_indices_in_bounds_witness :
  (out_extent (grid_z (two_voxel 5 7)) (3 / 2) 3 = grid_z (two_voxel 5 7)
   /\ out_extent (grid_y (two_voxel 5 7)) (3 / 2) 3 = grid_y (two_voxel 5 7)
   /\ out_extent (grid_x (two_voxel 5 7)) (3 / 2) 3 = grid_x (two_voxel 5 7))
  /\ (forall i crd, coordinates (two_voxel 5 7) !! i = Some crd ->
        0 <= (loc_z crd - 0) / fst (fst (tensor_stride (two_voxel 5 7)))
          < out_extent (grid_z (two_voxel 5 7)) (3 / 2) 3
        /\ 0 <= (loc_y crd - 0) / snd (fst (tensor_stride (two_voxel 5 7)))
             < out_extent (grid_y (two_voxel 5 7)) (3 / 2) 3
        /\ 0 <= (loc_x crd - 0) / snd (tensor_stride (two_voxel 5 7))
             < out_extent (grid_x (two_voxel 5 7)) (3 / 2) 3)
  /\ exists h' t,
       im2col_3d 0%nat 3 1 (3 / 2) [OSparse (two_voxel 5 7)] = (h', inr t).
Proof.
  apply (mask_indices_in_bounds (elt := Z) [OSparse (two_voxel 5 7)] 0%nat
           (two_voxel 5 7) 1 3); [reflexivity | solve_wf | lia | reflexivity].
Defined.


Lemma weight_export_invertible_witness :
  exists w k',
    export_weight sample_kernel = inr w
    /\ shape w = [numel (shape sample_kernel) / 4; 4]
    /\ unexport_weight (shape sample_kernel) w = inr k'
    /\ shape k' = shape sample_kernel
    /\ forall idx, in_range (shape sample_kernel) idx ->
                   get k' idx = get sample_kernel idx.
Proof.
  apply (weight_export_invertible (elt := Z) sample_kernel 2 3 4 [] 4);
    [reflexivity | repeat constructor; lia | reflexivity].
Defined.

Lemma normalize_color_in_place_witness :
  exists h' r,
    normalize_color 0%nat true [sample_color] = (h', inr r)
    /\ h' !! 0%nat
       = Some {| c_dtype := Float64;
                 c_rows := [[Finite (Qmake 1 2); Finite (Qmake (-1) 2);
                             Finite (Qmake (-5404319552844595)
                                       18014398509481984)]] |}
    /\ (Float64 = Float32 -> r = 0%nat)
    /\ (Float64 <> Float32 ->
        r = 1%nat
        /\ h' !! r
           = Some {| c_dtype := Float32;
                     c_rows := [[Finite (Qmake 1 2); Finite (Qmake (-1) 2);
                                 Finite (Qmake (-5033165) 16777216)]] |})
    /\ (forall a, a <> 0%nat -> (a < 1)%nat ->
                  h' !! a = [sample_color] !! a).
Proof.
  exact (normalize_color_in_place [sample_color] 0%nat sample_color true
           eq_refl eq_refl).
Defined.

(** * Further properties of the extractor, the hook and the weight export *)

Section Extras.
Context {elt : Type} `{!Zero elt}.
Implicit Types (h : heap elt) (s : SparseTensor elt) (t P U : tensor elt).

(** ** When the extractor raises *)


(** A loop stops with the exception of the first item whose body
    raises: the items before it run under an invariant. *)
Lemma for_each_first_failure {St A} (I : St -> Prop) (good : A -> bool)
  (body : A -> M St unit) e :
  forall l st,
    I st ->
    (forall x st', x ∈ l -> good x = true -> I st' ->
       exists st'', body x st' = (st'', inr tt) /\ I st'') ->
    (forall x st', x ∈ l -> good x = false -> I st' ->
       exists st'', body x st' = (st'', inl e)) ->
    (exists x, x ∈ l /\ good x = false) ->
    exists st', for_each l body st = (st', inl e).
Proof.
  induction l as [|x l IH]; intros st HI Hok Hbad (y & Hy & Hgy).
  - now apply elem_of_nil in Hy.
  - simpl. destruct (good x) eqn:Hgx.
    + destruct (Hok x st ltac:(left) Hgx HI) as (st1 & E1 & HI1).
      rewrite (bind_ok _ _ _ _ _ E1). apply IH; auto.
      * intros z st' Hz. apply Hok. now right.
      * intros z st' Hz. apply Hbad. now right.
      * apply elem_of_cons in Hy as [->|Hy]; [congruence|eauto].
    + destruct (Hbad x st ltac:(left) Hgx HI) as (st1 & E1).
      exists st1. now apply bind_err.
Qed.

Lemma norm_index_over size i : 0 <= i -> size <= i -> norm_index size i = inl IndexError.
Proof.
  intros H0 Hs. unfold norm_index.
  assert (E1 : (0 <=? i) && (i <? size) = false).
  { apply andb_false_iff. right. apply Z.ltb_ge. lia. }
  assert (E2 : (- size <=? i) && (i <? 0) = false).
  { apply andb_false_iff. right. apply Z.ltb_ge. lia. }
  now rewrite E1, E2.
Qed.

Lemma norm_index_cases size i :
  0 <= i -> norm_index size i = inr i \/ norm_index size i = inl IndexError.
Proof.
  intros H0. destruct (decide (i < size)).
  - left. apply norm_index_in. lia.
  - right. apply norm_index_over; lia.
Qed.

Section MaskAt.
Variables (h2 : heap elt) (a : addr) (s : SparseTensor elt) (U : tensor elt).
Variables (B C K od oh ow : Z).
Hypothesis Ha : h2 !! a = Some (OSparse s).
Hypothesis Hts : fst (fst (tensor_stride s)) <> 0 /\ snd (fst (tensor_stride s)) <> 0
                 /\ snd (tensor_stride s) <> 0.
Hypothesis HU : shape U = [B; C; K; K; K; od; oh; ow].
Hypothesis Hgrid : forall l, l ∈ locations s ->
  0 <= loc_b l < B /\ 0 <= loc_z l /\ 0 <= loc_y l /\ 0 <= loc_x l.

Lemma mask_row i hp :
  0 <= i < Z.of_nat (length (coordinates s)) ->
  mask_heap h2 U B C K od oh ow hp ->
  exists hp',
    (s' <- load_sparse a ;;
     crds <- (match coordinates s' !! Z.to_nat i with
              | Some c => ret c
              | None => raise IndexError
              end) ;;
     let batch := loc_b crds in
     z <- floordiv (loc_z crds - fst (fst (0, 0, 0)))
                   (fst (fst (tensor_stride s))) ;;
     y <- floordiv (loc_y crds - snd (fst (0, 0, 0)))
                   (snd (fst (tensor_stride s))) ;;
     x <- floordiv (loc_x crds - snd (0, 0, 0)) (snd (tensor_stride s)) ;;
     u <- load_dense (length h2) ;;
     v <- lift (getitem_loc u batch z y x) ;;
     setitem_loc (S (length h2)) batch z y x v) hp
    = (hp', if good_row s od oh ow i then inr tt else inl IndexError)
    /\ (good_row s od oh ow i = true -> mask_heap h2 U B C K od oh ow hp').
Proof using Ha Hts HU Hgrid.
  intros Hi (Cc & -> & Hs).
  destruct (lookup_lt_is_Some_2 (coordinates s) (Z.to_nat i) ltac:(lia)) as [c Hc].
  assert (Hl : local_index (0, 0, 0) (tensor_stride s) c ∈ locations s).
  { unfold locations. apply list_elem_of_fmap. exists c. split; [reflexivity|].
    eapply list_elem_of_lookup_2; eauto. }
  destruct (Hgrid _ Hl) as (Hb & Hz & Hy & Hx).
  assert (Hfa : fits_at od oh ow (local_index (0, 0, 0) (tensor_stride s) c)
                = ((loc_z c - 0) / fst (fst (tensor_stride s)) <? od)
                  && ((loc_y c - 0) / snd (fst (tensor_stride s)) <? oh)
                  && ((loc_x c - 0) / snd (tensor_stride s) <? ow)).
  { rewrite local_index_eq. reflexivity. }
  unfold good_row. rewrite Hc, Hfa. clear Hfa.
  rewrite local_index_eq in Hb, Hz, Hy, Hx.
  unfold loc_b at 1 in Hb. unfold loc_z at 1 in Hz. unfold loc_y at 1 in Hy.
  unfold loc_x at 1 in Hx.
  cbn [fst snd] in Hb, Hz, Hy, Hx.
  assert (Hia : (h2 ++ [ODense U; ODense Cc]) !! a = Some (OSparse s)).
  { rewrite lookup_app_l; [exact Ha|]. now apply lookup_lt_Some in Ha. }
  rewrite (bind_ok _ _ _ _ _ (load_sparse_run _ _ _ Hia)).
  rewrite Hc. unfold bind at 1, ret at 1. cbv zeta.
  destruct Hts as (T0 & T1 & T2).
  rewrite (bind_ok _ _ _ _ _ (floordiv_run _ _ _ T0)).
  rewrite (bind_ok _ _ _ _ _ (floordiv_run _ _ _ T1)).
  rewrite (bind_ok _ _ _ _ _ (floordiv_run _ _ _ T2)).
  assert (Hcu : (h2 ++ [ODense U; ODense Cc]) !! length h2 = Some (ODense U)).
  { rewrite lookup_app_r by lia. now rewrite Nat.sub_diag. }
  rewrite (bind_ok _ _ _ _ _ (load_dense_run _ _ _ Hcu)).
  unfold getitem_loc. rewrite HU.
  cbn [fst snd] in *.
  set (lz := (loc_z c - 0) / (tensor_stride s).1.1) in *.
  set (ly := (loc_y c - 0) / (tensor_stride s).1.2) in *.
  set (lx := (loc_x c - 0) / (tensor_stride s).2) in *.
  rewrite (norm_index_in B (loc_b c)) by assumption.
  destruct ((lz <? od) && (ly <? oh) && (lx <? ow)) eqn:E.
  - rewrite !andb_true_iff, !Z.ltb_lt in E. destruct E as [[Ez Ey] Ex].
    rewrite (norm_index_in od lz), (norm_index_in oh ly),
      (norm_index_in ow lx) by lia.
    unfold lift at 1. unfold bind at 1, ret at 1.
    unfold setitem_loc.
    assert (Hcol : (h2 ++ [ODense U; ODense Cc]) !! S (length h2) = Some (ODense Cc)).
    { rewrite lookup_app_r by lia.
      replace (S (length h2) - length h2)%nat with 1%nat by lia. reflexivity. }
    rewrite (bind_ok _ _ _ _ _ (load_dense_run _ _ _ Hcol)).
    rewrite Hs. rewrite (norm_index_in B (loc_b c)) by assumption.
    rewrite (norm_index_in od lz), (norm_index_in oh ly),
      (norm_index_in ow lx) by lia.
    cbn [shape]. rewrite decide_True by reflexivity.
    eexists. split; [reflexivity|]. intros _.
    eexists. split; [apply insert_snoc2_r|]. exact Hs.
  - exists (h2 ++ [ODense U; ODense Cc]). split; [|discriminate].
    assert (Hg : match norm_index od lz, norm_index oh ly, norm_index ow lx
                       return exn + tensor elt with
                 | inr z', inr y', inr x' =>
                     inr {| shape := [C; K; K; K];
                            get := fun idx =>
                              match idx with
                              | [ic; kz; ky; kx] =>
                                  get U [loc_b c; ic; kz; ky; kx; z'; y'; x']
                              | _ => zero
                              end |}
                 | _, _, _ => inl IndexError
                 end = inl IndexError).
    { rewrite !andb_false_iff, !Z.ltb_ge in E.
      destruct (norm_index_cases od lz Hz) as [Nz|Nz],
               (norm_index_cases oh ly Hy) as [Ny|Ny],
               (norm_index_cases ow lx Hx) as [Nx|Nx];
        rewrite ?Nz, ?Ny, ?Nx; try reflexivity.
      exfalso. destruct E as [[E|E]|E].
      - rewrite norm_index_over in Nz by lia. discriminate.
      - rewrite norm_index_over in Ny by lia. discriminate.
      - rewrite norm_index_over in Nx by lia. discriminate. }
    rewrite Hg. reflexivity.
Qed.

End MaskAt.


Lemma forallb_false_elem {A} (f : A -> bool) (l : list A) :
  forallb f l = false -> exists x, x ∈ l /\ f x = false.
Proof.
  induction l as [|x l IH]; simpl; [discriminate|].
  destruct (f x) eqn:E; simpl.
  - intros Hl. destruct (IH Hl) as (y & Hy & Hfy). exists y. split; [now right|auto].
  - intros _. exists x. split; [left|auto].
Qed.

Lemma torch_zeros_negative h shp :
  forallb (fun d => 0 <=? d) shp = false ->
  torch_zeros (elt := elt) shp h = (h, inl RuntimeError).
Proof. intros E. unfold torch_zeros. now rewrite E. Qed.

(** The extractor raises when some coordinate has no cell in the output
    grid: [RuntimeError] from [torch.zeros] when an output extent is
    negative, [IndexError] from the masking loop otherwise. *)
Lemma im2col_3d_fails h a s C K p :
  h !! a = Some (OSparse s) -> wf_sparse s C -> 0 < K -> ~ fits s p K ->
  exists h',
    im2col_3d a K 1 p h
    = (h', inl (if (out_extent (grid_z s) p K <? 0)
                   || (out_extent (grid_y s) p K <? 0)
                   || (out_extent (grid_x s) p K <? 0)
                then RuntimeError else IndexError)).
Proof.
  intros Ha Hwf HK Hfit.
  pose proof Hwf as (Hsh & HC & Hne & (T0 & T1 & T2) & Hcs).
  pose proof (extent_pos (map loc_b (locations s))) as HB. fold (grid_b s) in HB.
  set (B := grid_b s) in *.
  set (od := out_extent (grid_z s) p K) in *.
  set (oh := out_extent (grid_y s) p K) in *.
  set (ow := out_extent (grid_x s) p K) in *.
  unfold im2col_3d.
  rewrite (bind_ok _ _ h h tt eq_refl).
  rewrite (bind_ok _ _ _ _ _ (dense_run h a s C Ha Hwf)).
  cbv beta iota zeta.
  destruct (input_run h a s C p Ha Hwf) as (e & ia & Ein & Hia).
  rewrite (bind_ok _ _ _ _ _ Ein).
  set (h2 := h ++ e) in *.
  assert (Ha2 : h2 !! a = Some (OSparse s)).
  { unfold h2. rewrite lookup_app_l; [exact Ha|]. now apply lookup_lt_Some in Ha. }
  pose proof (padded_tensor_shape s C p Hwf) as HPs. fold B in HPs.
  set (P := padded_tensor s p) in *.
  rewrite (bind_ok _ _ _ _ _ (size5_run _ _ _ _ _ _ _ _ Hia HPs)).
  cbv beta iota.
  rewrite !ceil_div_1.
  change (padded_extent (grid_z s) p - K + 1) with od.
  change (padded_extent (grid_y s) p - K + 1) with oh.
  change (padded_extent (grid_x s) p - K + 1) with ow.
  destruct ((od <? 0) || (oh <? 0) || (ow <? 0)) eqn:Eneg.
  - (* torch.zeros refuses a negative extent *)
    exists h2. apply bind_err. apply torch_zeros_negative.
    cbn [forallb]. rewrite !orb_true_iff, !Z.ltb_lt in Eneg.
    rewrite !andb_false_iff, !Z.leb_gt. tauto.
  - rewrite !orb_false_iff, !Z.ltb_ge in Eneg. destruct Eneg as [[Nd Nh] Nw].
    assert (HS8 : Forall (fun d => 0 <= d) [B; C; K; K; K; od; oh; ow]).
    { repeat (constructor; [lia|]). constructor. }
    rewrite (bind_ok _ _ _ _ _ (torch_zeros_run _ _ HS8)).
    rewrite (bind_ok _ _ _ _ _ (torch_zeros_run _ _ HS8)).
    rewrite <- app_assoc. cbn [app].
    rewrite length_app. cbn [length]. rewrite Nat.add_1_r.
    set (Z8 := {| shape := [B; C; K; K; K; od; oh; ow]; get := fun _ => zero |}).
    assert (Hod : 0 <= od /\ od + K - 1 <= padded_extent (grid_z s) p)
      by (split; [lia | unfold od, out_extent; lia]).
    assert (Hoh : 0 <= oh /\ oh + K - 1 <= padded_extent (grid_y s) p)
      by (split; [lia | unfold oh, out_extent; lia]).
    assert (How : 0 <= ow /\ ow + K - 1 <= padded_extent (grid_x s) p)
      by (split; [lia | unfold ow, out_extent; lia]).
    destruct (fill_z h2 ia Z8 P B C K _ _ _ od oh ow Hia HPs Hod Hoh How
                (h2 ++ [ODense Z8; ODense Z8]))
      as (hp1 & E1 & (U & -> & HUs & HU)).
    { exists Z8. split; [reflexivity|]. split; [reflexivity|].
      intros. split; [tauto|reflexivity]. }
    rewrite (bind_ok _ _ _ _ _ E1).
    assert (Hn : (bind (load_sparse a)
                   (fun s0 => ret (Z.of_nat (length (coordinates s0)))))
                   (h2 ++ [ODense U; ODense Z8])
                 = ret (Z.of_nat (length (coordinates s)))
                     (h2 ++ [ODense U; ODense Z8])).
    { assert (L : (h2 ++ [ODense U; ODense Z8]) !! a = Some (OSparse s)).
      { rewrite lookup_app_l; [exact Ha2|]. now apply lookup_lt_Some in Ha2. }
      now rewrite (bind_ok _ _ _ _ _ (load_sparse_run _ _ _ L)). }
    rewrite (bind_ok _ _ _ _ _ Hn).
    assert (Hgrid : forall l, l ∈ locations s ->
              0 <= loc_b l < B /\ 0 <= loc_z l /\ 0 <= loc_y l /\ 0 <= loc_x l).
    { intros l Hl. destruct (locations_in_grid s C l Hwf Hl) as (? & ? & ? & ?).
      fold B in H. lia. }
    match goal with |- exists h', bind (for_each ?l ?body) _ ?hp = _ =>
      destruct (for_each_first_failure
                  (mask_heap h2 U B C K od oh ow) (good_row s od oh ow)
                  body IndexError l hp) as (hp2 & E2) end.
    + exists Z8. split; reflexivity.
    + intros i hp Hi Hg Hhp. apply range_elem in Hi.
      destruct (mask_row h2 a s U B C K od oh ow Ha2 ltac:(lia) HUs Hgrid i hp Hi Hhp)
        as (hp' & E & Hhp').
      rewrite Hg in E. eauto.
    + intros i hp Hi Hg Hhp. apply range_elem in Hi.
      destruct (mask_row h2 a s U B C K od oh ow Ha2 ltac:(lia) HUs Hgrid i hp Hi Hhp)
        as (hp' & E & _).
      rewrite Hg in E. eauto.
    + destruct (forallb (fits_at od oh ow) (locations s)) eqn:Eall.
      * exfalso. apply Hfit. intros l Hl.
        rewrite forallb_forall in Eall.
        specialize (Eall l (proj1 (list_elem_of_In _ _) Hl)).
        unfold fits_at in Eall. rewrite !andb_true_iff, !Z.ltb_lt in Eall.
        fold od oh ow. tauto.
      * apply forallb_false_elem in Eall as (l & Hl & Hbad).
        unfold locations in Hl. apply list_elem_of_fmap in Hl as (c & -> & Hc).
        apply list_elem_of_lookup_1 in Hc as [j Hj].
        exists (Z.of_nat j). split.
        -- apply range_elem. apply lookup_lt_Some in Hj. lia.
        -- unfold good_row. now rewrite Nat2Z.id, Hj.
    + exists hp2. now apply bind_err.
Qed.

Lemma extent_attained (l : list Z) :
  l <> [] -> Forall (fun x => 0 <= x) l -> extent l - 1 ∈ l.
Proof.
  intros Hne Hnn. unfold extent.
  replace (1 + foldr Z.max 0 l - 1) with (foldr Z.max 0 l) by lia.
  assert (Hub : forall (l' : list Z) x, x ∈ l' -> x <= foldr Z.max 0 l').
  { intros l' x. induction 1; simpl; lia. }
  specialize (Hub l).
  assert (Hin : foldr Z.max 0 l = 0 \/ foldr Z.max 0 l ∈ l).
  { clear. induction l as [|y l IH]; simpl; [auto|].
    destruct (Z.max_spec y (foldr Z.max 0 l)) as [[_ ->]|[_ ->]].
    - destruct IH as [->|IH]; [auto|]. right. now right.
    - right. left. }
  destruct Hin as [E|E]; [|exact E].
  destruct l as [|y l]; [congruence|].
  assert (Hy : y = 0).
  { specialize (Hub y ltac:(left)). inversion Hnn; subst. lia. }
  rewrite E, Hy. left.
Qed.

Lemma fits_iff s C K p :
  wf_sparse s C -> 0 < K -> (fits s p K <-> K - 1 <= 2 * Z.max 0 p).
Proof.
  intros Hwf HK.
  assert (Hout : forall d, d <= out_extent d p K <-> K - 1 <= 2 * Z.max 0 p).
  { intros d. unfold out_extent, padded_extent.
    destruct (0 <? p) eqn:E; [apply Z.ltb_lt in E|apply Z.ltb_ge in E]; lia. }
  split.
  - intros Hfit.
    pose proof Hwf as (_ & _ & Hne & _).
    assert (Hz : grid_z s - 1 ∈ map loc_z (locations s)).
    { apply extent_attained.
      - unfold locations. destruct (coordinates s); [congruence|discriminate].
      - apply list.Forall_forall. intros x Hx.
        apply list_elem_of_fmap in Hx as (l & -> & Hl).
        destruct (locations_in_grid s C l Hwf Hl) as (_ & ? & _). lia. }
    apply list_elem_of_fmap in Hz as (l & Hlz & Hl).
    destruct (Hfit l Hl) as (Fz & _). apply (Hout (grid_z s)). lia.
  - intros Hp l Hl.
    destruct (locations_in_grid s C l Hwf Hl) as (_ & Hz & Hy & Hx).
    pose proof (proj2 (Hout (grid_z s)) Hp).
    pose proof (proj2 (Hout (grid_y s)) Hp).
    pose proof (proj2 (Hout (grid_x s)) Hp). lia.
Qed.

(** X1.  On an input without a coordinate below the origin, with
    kernel size [K >= 1] and stride 1, the extractor returns a matrix
    exactly when the padding covers half the kernel:
    [K - 1 <= 2 * max(0, padding)]. *)
Theorem extractor_returns_iff h a s C K p :
  h !! a = Some (OSparse s) -> wf_sparse s C -> 0 < K ->
  ((exists h' t, im2col_3d a K 1 p h = (h', inr t))
   <-> K - 1 <= 2 * Z.max 0 p).
Proof.
  intros Ha Hwf HK. rewrite <- (fits_iff s C K p Hwf HK). split.
  - intros (h' & t & E).
    destruct (decide (Forall (fun l => fits_at (out_extent (grid_z s) p K)
                (out_extent (grid_y s) p K) (out_extent (grid_x s) p K) l = true)
                (locations s))) as [Hall|Hall].
    + intros l Hl. rewrite list.Forall_forall in Hall. specialize (Hall l Hl).
      unfold fits_at in Hall. rewrite !andb_true_iff, !Z.ltb_lt in Hall. tauto.
    + exfalso.
      destruct (im2col_3d_fails h a s C K p Ha Hwf HK) as (h'' & E').
      * intros Hfit. apply Hall. apply list.Forall_forall. intros l Hl.
        destruct (Hfit l Hl) as (? & ? & ?). unfold fits_at.
        rewrite !andb_true_iff, !Z.ltb_lt. tauto.
      * rewrite E in E'. discriminate.
  - intros Hfit.
    destruct (im2col_3d_run h a s C K p Ha Hwf HK Hfit) as (e & t & E & _).
    eauto.
Qed.

(** X2.  With a padding that does not cover half the kernel, the
    default padding 0 with [K >= 2] among them, the extractor raises on
    every input without a coordinate below the origin: [RuntimeError]
    when an output extent is negative, [IndexError] otherwise. *)
Theorem extractor_raises_on_small_padding h a s C K p :
  h !! a = Some (OSparse s) -> wf_sparse s C -> 0 < K ->
  2 * Z.max 0 p < K - 1 ->
  exists h',
    im2col_3d a K 1 p h
    = (h', inl (if (out_extent (grid_z s) p K <? 0)
                   || (out_extent (grid_y s) p K <? 0)
                   || (out_extent (grid_x s) p K <? 0)
                then RuntimeError else IndexError)).
Proof.
  intros Ha Hwf HK Hp. apply (im2col_3d_fails h a s C K p Ha Hwf HK).
  rewrite (fits_iff s C K p Hwf HK). lia.
Qed.


(** ** What the rows hold *)


(** An element of the padded grid is the dense cell [max(0, p)] places
    before it on every spatial axis, or zero when there is no such
    cell. *)
Lemma padded_get s C p b ch u v w :
  wf_sparse s C ->
  (0 < p \/ (0 <= u < grid_z s /\ 0 <= v < grid_y s /\ 0 <= w < grid_x s)) ->
  let q := Z.max 0 p in
  ((0 <= u - q < grid_z s /\ 0 <= v - q < grid_y s /\ 0 <= w - q < grid_x s) ->
   get (padded_tensor s p) [b; ch; u; v; w]
   = get (dense_tensor s) [b; ch; u - q; v - q; w - q])
  /\ (~ (0 <= u - q < grid_z s /\ 0 <= v - q < grid_y s
         /\ 0 <= w - q < grid_x s) ->
      get (padded_tensor s p) [b; ch; u; v; w] = zero).
Proof.
  intros Hwf Hcase q. subst q. unfold padded_tensor.
  destruct (0 <? p) eqn:E; [apply Z.ltb_lt in E|apply Z.ltb_ge in E].
  - rewrite Z.max_r by lia. cbn [get]. unfold pad_get.
    rewrite (dense_tensor_shape s C Hwf).
    destruct ((p <=? u) && (u <? grid_z s + p) && (p <=? v)
              && (v <? grid_y s + p) && (p <=? w) && (w <? grid_x s + p)) eqn:Ec.
    + rewrite !andb_true_iff, !Z.leb_le, !Z.ltb_lt in Ec.
      split; [reflexivity|]. intros Hn. exfalso. apply Hn. lia.
    + split; [|reflexivity]. intros Hin. exfalso.
      rewrite !andb_false_iff, !Z.leb_gt, !Z.ltb_ge in Ec. lia.
  - destruct Hcase as [Hp|Hin]; [lia|].
    rewrite Z.max_l by lia. rewrite !Z.sub_0_r.
    split; [reflexivity|]. intros Hn. contradiction.
Qed.

Lemma patch_element h a s C K p :
  h !! a = Some (OSparse s) -> wf_sparse s C -> 0 < K -> fits s p K ->
  exists h' t,
    im2col_3d a K 1 p h = (h', inr t)
    /\ shape t
       = [grid_b s * out_extent (grid_z s) p K * out_extent (grid_y s) p K
          * out_extent (grid_x s) p K; C * K * K * K]
    /\ forall b z y x ch kz ky kx,
         (b, z, y, x) ∈ locations s ->
         0 <= ch < C -> 0 <= kz < K -> 0 <= ky < K -> 0 <= kx < K ->
         let q := Z.max 0 p in
         let inside := 0 <= z + kz - q < grid_z s /\ 0 <= y + ky - q < grid_y s
                       /\ 0 <= x + kx - q < grid_x s in
         (inside ->
          get t [row_of s p K b z y x; ravel [C; K; K; K] [ch; kz; ky; kx]]
          = get (dense_tensor s) [b; ch; z + kz - q; y + ky - q; x + kx - q])
         /\ (~ inside ->
             get t [row_of s p K b z y x; ravel [C; K; K; K] [ch; kz; ky; kx]]
             = zero).
Proof.
  intros Ha Hwf HK Hfit.
  destruct (im2col_3d_run h a s C K p Ha Hwf HK Hfit) as (e & t & E & Hs & Hget).
  exists (h ++ e), t. split; [exact E|]. split; [exact Hs|].
  intros b z y x ch kz ky kx Hl Hch Hkz Hky Hkx q inside.
  destruct (locations_in_grid s C _ Hwf Hl) as (Hb & Hz & Hy & Hx).
  destruct (Hfit _ Hl) as (Fz & Fy & Fx).
  unfold loc_b, loc_z, loc_y, loc_x in Hb, Hz, Hy, Hx, Fz, Fy, Fx.
  cbn [fst snd] in Hb, Hz, Hy, Hx, Fz, Fy, Fx.
  rewrite (Hget b z y x ch kz ky kx).
  2:{ repeat (apply in_range_cons; [lia|]). constructor. }
  2:{ repeat (apply in_range_cons; [lia|]). constructor. }
  rewrite decide_True by exact Hl.
  apply (padded_get s C p b ch (z + kz) (y + ky) (x + kx) Hwf).
  destruct (decide (0 < p)) as [Hp|Hp]; [now left|right].
  unfold out_extent, padded_extent in Fz, Fy, Fx.
  assert (Ep : (0 <? p) = false) by (apply Z.ltb_ge; lia).
  rewrite Ep in Fz, Fy, Fx. lia.
Qed.

(** X3.  Every element of the row of a registered location is read
    from the dense grid: the element of channel [ch] and kernel offset
    [(kz, ky, kx)] is the dense cell at the location moved by the
    offset minus the padding, and zero when that cell lies outside the
    grid (a read from the padding). *)
Theorem patch_reads_dense_or_zero h a s C K p :
  h !! a = Some (OSparse s) -> wf_sparse s C -> 0 < K -> fits s p K ->
  exists h' t,
    im2col_3d a K 1 p h = (h', inr t)
    /\ forall b z y x ch kz ky kx,
         (b, z, y, x) ∈ locations s ->
         0 <= ch < C -> 0 <= kz < K -> 0 <= ky < K -> 0 <= kx < K ->
         let q := Z.max 0 p in
         let inside := 0 <= z + kz - q < grid_z s /\ 0 <= y + ky - q < grid_y s
                       /\ 0 <= x + kx - q < grid_x s in
         (inside ->
          get t [row_of s p K b z y x; ravel [C; K; K; K] [ch; kz; ky; kx]]
          = get (dense_tensor s) [b; ch; z + kz - q; y + ky - q; x + kx - q])
         /\ (~ inside ->
             get t [row_of s p K b z y x; ravel [C; K; K; K] [ch; kz; ky; kx]]
             = zero).
Proof.
  intros Ha Hwf HK Hfit.
  destruct (patch_element h a s C K p Ha Hwf HK Hfit) as (h' & t & E & _ & Hel).
  eauto.
Qed.

(** X4.  With padding [K / 2] the row of a registered location holds,
    at the kernel offset [(K/2, K/2, K/2)], the dense cell of the
    location itself; the row is not all-zero when that cell is not
    zero in some channel. *)
Theorem own_cell_in_row h a s C K :
  h !! a = Some (OSparse s) -> wf_sparse s C -> 0 < K ->
  exists h' t,
    im2col_3d a K 1 (K / 2) h = (h', inr t)
    /\ forall b z y x ch,
         (b, z, y, x) ∈ locations s -> 0 <= ch < C ->
         get t [row_of s (K / 2) K b z y x;
                ravel [C; K; K; K] [ch; K / 2; K / 2; K / 2]]
         = get (dense_tensor s) [b; ch; z; y; x]
         /\ (get (dense_tensor s) [b; ch; z; y; x] <> zero ->
             to_matrix t !! Z.to_nat (row_of s (K / 2) K b z y x)
             <> Some (replicate (Z.to_nat (C * K * K * K)) zero)).
Proof.
  intros Ha Hwf HK.
  pose proof (fits_half s C K Hwf HK) as Hfit.
  destruct (patch_element h a s C K (K / 2) Ha Hwf HK Hfit)
    as (h' & t & E & Hs & Hel).
  exists h', t. split; [exact E|].
  intros b z y x ch Hl Hch.
  pose proof (Z.div_mod K 2 ltac:(lia)) as Hdm.
  pose proof (Z.mod_pos_bound K 2 ltac:(lia)) as Hmb.
  assert (Hk : 0 <= K / 2 < K) by lia.
  destruct (locations_in_grid s C _ Hwf Hl) as (Hb & Hz & Hy & Hx).
  unfold loc_b, loc_z, loc_y, loc_x in Hb, Hz, Hy, Hx.
  cbn [fst snd] in Hb, Hz, Hy, Hx.
  destruct (Hel b z y x ch (K / 2) (K / 2) (K / 2) Hl Hch Hk Hk Hk) as [Hin _].
  assert (Hq : Z.max 0 (K / 2) = K / 2) by lia.
  cbv zeta in Hin. rewrite Hq in Hin.
  replace (z + K / 2 - K / 2) with z in Hin by lia.
  replace (y + K / 2 - K / 2) with y in Hin by lia.
  replace (x + K / 2 - K / 2) with x in Hin by lia.
  specialize (Hin ltac:(lia)).
  split; [exact Hin|].
  intros Hnz Hrow.
  destruct (location_of_row s C (K / 2) K (b, z, y, x) Hwf Hfit Hl) as (Hr & _).
  unfold loc_b, loc_z, loc_y, loc_x in Hr. cbn [fst snd] in Hr.
  rewrite (to_matrix_lookup t _ _ _ Hs Hr) in Hrow.
  injection Hrow as Hrow.
  assert (Hc : in_range [C; K; K; K] [ch; K / 2; K / 2; K / 2]).
  { repeat (apply in_range_cons; [lia|]). constructor. }
  pose proof (ravel_bound _ _ Hc) as Hcb.
  replace (numel [C; K; K; K]) with (C * K * K * K) in Hcb
    by (cbn [numel foldr]; ring).
  set (c := ravel [C; K; K; K] [ch; K / 2; K / 2; K / 2]) in *.
  assert (Hlk : map (fun j => get t [row_of s (K / 2) K b z y x; j])
                  (seqZ 0 (C * K * K * K)) !! Z.to_nat c
                = Some (get t [row_of s (K / 2) K b z y x; c])).
  { rewrite map_lookup, lookup_seqZ_lt by lia. simpl.
    now rewrite Z2Nat.id by lia. }
  rewrite Hrow, lookup_replicate_2 in Hlk by lia.
  injection Hlk as Hlk. congruence.
Qed.



(** ** The hook on several inputs *)


(** The matrix of a run is the same on every heap that holds the
    input. *)
Lemma run_matrix h a s C K p h2 a2 :
  h !! a = Some (OSparse s) -> wf_sparse s C -> 0 < K -> fits s p K ->
  h2 !! a2 = Some (OSparse s) ->
  exists e2 t2,
    im2col_3d a2 K 1 p h2 = (h2 ++ e2, inr t2)
    /\ result_matrix (im2col_3d a K 1 p h) = Some (to_matrix t2).
Proof.
  intros Ha Hwf HK Hfit Ha2.
  destruct (run_rows h a s C K p Ha Hwf HK Hfit)
    as (e1 & t1 & E1 & Hs1 & HR & Hrows1).
  destruct (run_rows h2 a2 s C K p Ha2 Hwf HK Hfit)
    as (e2 & t2 & E2 & Hs2 & _ & Hrows2).
  exists e2, t2. split; [exact E2|].
  unfold result_matrix. rewrite E1. cbn [snd]. f_equal.
  apply list_eq. intros i.
  set (R := grid_b s * out_extent (grid_z s) p K * out_extent (grid_y s) p K
            * out_extent (grid_x s) p K) in *.
  destruct (decide (i < Z.to_nat R)%nat) as [Hi|Hi].
  - specialize (Hrows1 (Z.of_nat i) ltac:(lia)).
    specialize (Hrows2 (Z.of_nat i) ltac:(lia)).
    rewrite Nat2Z.id in Hrows1, Hrows2. now rewrite Hrows1, Hrows2.
  - rewrite !lookup_ge_None_2; [reflexivity| |].
    + rewrite (to_matrix_length t2 _ _ Hs2). lia.
    + rewrite (to_matrix_length t1 _ _ Hs1). lia.
Qed.

Lemma in_hook_from_run name h K input :
  0 < K -> Forall (hook_input h) input ->
  forall i (st : hook_state elt) e, objects st = h ++ e ->
    exists st' e' saved,
      in_hook_from name i input K 1 st = (st', inr saved)
      /\ objects st' = h ++ e'
      /\ map fst saved = seqZ i (Z.of_nat (length input))
      /\ Forall2 (fun a iM =>
           result_matrix (im2col_3d a K 1 (K / 2) h) = Some (snd iM))
           input saved.
Proof.
  intros HK Hin.
  induction Hin as [|a input (s & C & Ha & Hwf) _ IH]; intros i st e Hst.
  - exists st, e, []. repeat split; [exact Hst|constructor].
  - set (st1 := {| objects := objects st;
                   in_activation := dict_set (activation_key name i) a
                                      (in_activation st) |}).
    assert (E0 : setitem_dict (activation_key name i) a st = (st1, inr tt))
      by reflexivity.
    assert (Ha1 : (h ++ e) !! a = Some (OSparse s)) by now apply lookup_app_l_Some.
    assert (Ha2 : ((h ++ e) ++ [ODense (dense_tensor s)]) !! a = Some (OSparse s))
      by now apply lookup_app_l_Some.
    set (st2 := with_objects st1 ((h ++ e) ++ [ODense (dense_tensor s)])).
    assert (E1 : on_objects (dense a (0, 0, 0)) st1
                 = (st2, inr (length (h ++ e), (0, 0, 0), tensor_stride s))).
    { apply (on_objects_ok _ st1). cbn [st1 objects]. rewrite Hst.
      apply (dense_run _ a s C Ha1 Hwf). }
    assert (E2 : on_objects (size5 (length (h ++ e))) st2
                 = (st2, inr (grid_b s, C, grid_z s, grid_y s, grid_x s))).
    { apply (on_objects_ok _ st2).
      apply (size5_run _ _ _ _ _ _ _ _ (lookup_snoc _ _)
               (dense_tensor_shape s C Hwf)). }
    destruct (run_matrix h a s C K (K / 2) _ a Ha Hwf HK (fits_half s C K Hwf HK) Ha2)
      as (e2 & t2 & E3 & Hm).
    set (st3 := with_objects st2 (((h ++ e) ++ [ODense (dense_tensor s)]) ++ e2)).
    destruct (IH (i + 1) st3 ((e ++ [ODense (dense_tensor s)]) ++ e2))
      as (st' & e' & saved & E' & Ho' & Hidx & Hall).
    { cbn [st3 with_objects objects]. now rewrite <- !app_assoc. }
    exists st', e', ((i, to_matrix t2) :: saved). split; [|split; [|split]].
    + cbn [in_hook_from].
      rewrite (bind_ok _ _ _ _ _ E0), (bind_ok _ _ _ _ _ E1). cbv beta iota.
      rewrite (bind_ok _ _ _ _ _ E2).
      change (1 =? 1) with true. cbv iota.
      rewrite (bind_ok _ _ _ _ _
                 (bind_ok _ _ _ _ _ (on_objects_ok _ st2 _ _ E3))).
      unfold ret at 1. fold st3.
      rewrite (bind_ok _ _ _ _ _ E'). reflexivity.
    + exact Ho'.
    + cbn [map fst length]. rewrite Nat2Z.inj_succ.
      rewrite (seqZ_cons i) by lia. rewrite Hidx. f_equal. f_equal; lia.
    + constructor; [exact Hm|exact Hall].
Qed.

(** X6.  On a list of inputs without a coordinate below the origin,
    the hook of a stride-1 layer saves one array per input, numbered
    0, 1, ... in the order of the inputs, each the matrix the extractor
    returns for that input with padding [K / 2]; the hook of a layer of
    another stride saves nothing. *)
Theorem hook_saves_one_array_per_input name (st : hook_state elt) K input :
  0 < K -> Forall (hook_input (objects st)) input ->
  (exists st' saved,
     in_hook name input K 1 st = (st', inr saved)
     /\ map fst saved = seqZ 0 (Z.of_nat (length input))
     /\ Forall2 (fun a iM =>
          result_matrix (im2col_3d a K 1 (K / 2) (objects st)) = Some (snd iM))
          input saved)
  /\ forall stride, stride <> 1 ->
       exists st', in_hook name input K stride st = (st', inr []).
Proof.
  intros HK Hin. split.
  - destruct (in_hook_from_run name (objects st) K input HK Hin 0 st [])
      as (st' & e' & saved & E & _ & H1 & H2).
    { now rewrite app_nil_r. }
    exists st', saved. auto.
  - intros stride Hs. apply Z.eqb_neq in Hs. unfold in_hook.
    set (h := objects st) in *.
    assert (Hgen : forall i (st0 : hook_state elt) e, objects st0 = h ++ e ->
               exists st', in_hook_from name i input K stride st0 = (st', inr [])).
    { induction Hin as [|a input (s & C & Ha & Hwf) _ IH]; intros i st0 e Hst.
      - exists st0. reflexivity.
      - set (st1 := {| objects := objects st0;
                       in_activation := dict_set (activation_key name i) a
                                          (in_activation st0) |}).
        assert (E0 : setitem_dict (activation_key name i) a st0 = (st1, inr tt))
          by reflexivity.
        assert (Ha1 : (h ++ e) !! a = Some (OSparse s))
          by now apply lookup_app_l_Some.
        set (st2 := with_objects st1 ((h ++ e) ++ [ODense (dense_tensor s)])).
        assert (E1 : on_objects (dense a (0, 0, 0)) st1
                     = (st2, inr (length (h ++ e), (0, 0, 0), tensor_stride s))).
        { apply (on_objects_ok _ st1). cbn [st1 objects]. rewrite Hst.
          apply (dense_run _ a s C Ha1 Hwf). }
        assert (E2 : on_objects (size5 (length (h ++ e))) st2
                     = (st2, inr (grid_b s, C, grid_z s, grid_y s, grid_x s))).
        { apply (on_objects_ok _ st2).
          apply (size5_run _ _ _ _ _ _ _ _ (lookup_snoc _ _)
                   (dense_tensor_shape s C Hwf)). }
        destruct (IH (i + 1) st2 (e ++ [ODense (dense_tensor s)])) as (st' & E').
        { cbn [st2 with_objects objects]. now rewrite <- app_assoc. }
        exists st'. cbn [in_hook_from].
        rewrite (bind_ok _ _ _ _ _ E0), (bind_ok _ _ _ _ _ E1). cbv beta iota.
        rewrite (bind_ok _ _ _ _ _ E2).
        rewrite Hs. unfold bind at 1, ret at 1.
        rewrite (bind_ok _ _ _ _ _ E'). reflexivity. }
    destruct (Hgen 0 st []) as (st' & E); [now rewrite app_nil_r|]. eauto.
Qed.

(** ** What the hook writes *)

Lemma dict_get_set k k' v (d : list (string * addr)) :
  dict_get k (dict_set k' v d)
  = if String.eqb k k' then Some v else dict_get k d.
Proof.
  induction d as [|[k0 v0] d IH]; simpl; [reflexivity|].
  destruct (String.eqb_spec k' k0) as [->|Hne]; simpl.
  - destruct (String.eqb_spec k k0); reflexivity.
  - rewrite IH. destruct (String.eqb_spec k k0) as [->|]; [|reflexivity].
    destruct (String.eqb_spec k0 k') as [->|]; [congruence|reflexivity].
Qed.

Lemma append_inj_r (p s1 s2 : string) :
  String.append p s1 = String.append p s2 -> s1 = s2.
Proof. induction p as [|c p IH]; simpl; [auto|]. intros [= E]. auto. Qed.

Lemma str_inj i j : str i = str j -> i = j.
Proof.
  unfold str. intros E.
  assert (Hn : forall z, Z.to_int z <> Decimal.Pos Decimal.Nil
                         /\ Z.to_int z <> Decimal.Neg Decimal.Nil).
  { intros [|q|q]; simpl; split; try discriminate;
      intros [= Hq]; now apply (DecimalPos.Unsigned.to_uint_nonnil q). }
  assert (E' : Some (Z.to_int i) = Some (Z.to_int j)).
  { rewrite <- (NilZero.isi (Z.to_int i)), <- (NilZero.isi (Z.to_int j));
      try apply Hn. now rewrite E. }
  injection E' as E'.
  rewrite <- (DecimalZ.of_to i), <- (DecimalZ.of_to j). now rewrite E'.
Qed.

Lemma activation_key_inj name i j :
  activation_key name i = activation_key name j -> i = j.
Proof. unfold activation_key. intros E. apply append_inj_r in E. now apply str_inj. Qed.

Lemma bind_inv {St A B} (m : M St A) (k : A -> M St B) st st' b :
  bind m k st = (st', inr b) ->
  exists st1 a, m st = (st1, inr a) /\ k a st1 = (st', inr b).
Proof.
  unfold bind. destruct (m st) as [st1 [e|a]]; [discriminate|]. eauto.
Qed.

Lemma fst_bind {St A B} (m : M St A) (k : A -> M St B) st :
  fst (bind m k st)
  = match m st with
    | (st1, inr a) => fst (k a st1)
    | (st1, inl _) => st1
    end.
Proof. unfold bind. now destruct (m st) as [st1 [e|a]]. Qed.

Lemma on_objects_dict {A} (m : M (heap elt) A) (st : hook_state elt) :
  in_activation (fst (on_objects m st)) = in_activation st.
Proof. unfold on_objects. now destruct (m (objects st)). Qed.

Lemma on_objects_keeps {A} n (m : M (heap elt) A) Q (st : hook_state elt) :
  keeps n m Q -> (n <= length (objects st))%nat ->
  take n (objects (fst (on_objects m st))) = take n (objects st)
  /\ (n <= length (objects (fst (on_objects m st))))%nat.
Proof.
  intros Hk Hn. destruct (Hk (objects st) Hn) as (Ht & Hl & _).
  unfold on_objects. destruct (m (objects st)) as [h' r]. now split.
Qed.

(** What a run of the hook leaves as it was, whatever its outcome: the
    first [n] objects of the heap and the entries of [in_activation]
    under keys of other layers or other indices. *)
Lemma in_hook_from_frame name n K stride input :
  forall i (st : hook_state elt), (n <= length (objects st))%nat ->
    let st' := fst (in_hook_from name i input K stride st) in
    take n (objects st') = take n (objects st)
    /\ (n <= length (objects st'))%nat
    /\ forall k, (forall j, i <= j < i + Z.of_nat (length input) ->
                            k <> activation_key name j) ->
         dict_get k (in_activation st') = dict_get k (in_activation st).
Proof.
  induction input as [|a input IH]; intros i st Hn; cbn [in_hook_from].
  - cbn. auto.
  - set (st1 := {| objects := objects st;
                   in_activation := dict_set (activation_key name i) a
                                      (in_activation st) |}).
    assert (E0 : setitem_dict (activation_key name i) a st = (st1, inr tt))
      by reflexivity.
    rewrite (bind_ok _ _ _ _ _ E0).
    assert (F1 : forall k, (forall j, i <= j < i + Z.of_nat (length (a :: input)) ->
                                      k <> activation_key name j) ->
                 dict_get k (in_activation st1) = dict_get k (in_activation st)).
    { intros k Hk. cbn [st1 in_activation]. rewrite dict_get_set.
      destruct (String.eqb_spec k (activation_key name i)) as [->|]; [|reflexivity].
      exfalso. apply (Hk i); [|reflexivity]. cbn [length]. lia. }
    assert (Hn1 : (n <= length (objects st1))%nat) by exact Hn.
    change (objects st) with (objects st1).
    clearbody st1. clear E0.
    (* densification *)
    rewrite fst_bind.
    pose proof (on_objects_keeps n _ _ st1 (keeps_dense n a (0, 0, 0)) Hn1)
      as (T2 & L2).
    pose proof (on_objects_dict (dense a (0, 0, 0)) st1) as D2.
    destruct (on_objects (dense a (0, 0, 0)) st1) as [st2 [e|[[d mc] ts]]];
      cbn [fst] in *; cbv beta iota.
    { repeat split; [exact T2|exact L2|]. intros k Hk. rewrite D2. now apply F1. }
    (* its size *)
    rewrite fst_bind.
    pose proof (on_objects_keeps n _ _ st2 (keeps_size5 n d) L2) as (T3 & L3).
    pose proof (on_objects_dict (size5 d) st2) as D3.
    destruct (on_objects (size5 d) st2) as [st3 [e|sz]]; cbn [fst] in *; cbv beta iota.
    { repeat split; [congruence|exact L3|]. intros k Hk. rewrite D3, D2.
      now apply F1. }
    (* the extractor *)
    rewrite fst_bind.
    assert (Hsave : exists st4 r,
               (if stride =? 1
                then col <- on_objects (im2col_3d a K stride (K / 2)) ;;
                     ret [(i, to_matrix col)]
                else ret []) st3 = (st4, r)
               /\ take n (objects st4) = take n (objects st3)
               /\ (n <= length (objects st4))%nat
               /\ in_activation st4 = in_activation st3).
    { destruct (stride =? 1).
      - unfold bind.
        pose proof (on_objects_keeps n _ _ st3
                      (keeps_im2col_3d n a K stride (K / 2)) L3) as (T4 & L4).
        pose proof (on_objects_dict (im2col_3d a K stride (K / 2)) st3) as D4.
        destruct (on_objects (im2col_3d a K stride (K / 2)) st3)
          as [st4 [e|col]]; cbn [fst] in *; eexists st4, _; eauto.
      - exists st3, (inr []). auto. }
    destruct Hsave as (st4 & r & -> & T4 & L4 & D4).
    destruct r as [e|saved]; cbv beta iota.
    { repeat split; [congruence|exact L4|]. intros k Hk.
      rewrite D4, D3, D2. now apply F1. }
    (* the other inputs *)
    rewrite fst_bind.
    destruct (IH (i + 1) st4 L4) as (T5 & L5 & F5).
    destruct (in_hook_from name (i + 1) input K stride st4) as [st5 [e|more]];
      cbn [fst ret] in *; cbv beta iota.
    + repeat split; [congruence|exact L5|]. intros k Hk.
      rewrite F5, D4, D3, D2; [now apply F1|].
      intros j Hj. apply Hk. cbn [length]. lia.
    + repeat split; [congruence|exact L5|]. intros k Hk.
      rewrite F5, D4, D3, D2; [now apply F1|].
      intros j Hj. apply Hk. cbn [length]. lia.
Qed.

(** When the hook returns, the entry of every input is its address. *)
Lemma in_hook_from_entries name K stride input :
  forall i (st st' : hook_state elt) saved,
    in_hook_from name i input K stride st = (st', inr saved) ->
    forall j a, input !! j = Some a ->
      dict_get (activation_key name (i + Z.of_nat j)) (in_activation st')
      = Some a.
Proof.
  induction input as [|a0 input IH]; intros i st st' saved E j a Hj;
    [discriminate|].
  cbn [in_hook_from] in E.
  apply bind_inv in E as (st1 & [] & E0 & E).
  apply bind_inv in E as (st2 & [[d mc] ts] & E1 & E).
  apply bind_inv in E as (st3 & sz & E2 & E).
  apply bind_inv in E as (st4 & sv & E3 & E).
  apply bind_inv in E as (st5 & more & E4 & E).
  injection E as <- _.
  assert (D1 : in_activation st1
               = dict_set (activation_key name i) a0 (in_activation st))
    by (injection E0 as <-; reflexivity).
  assert (D2 : in_activation st2 = in_activation st1).
  { rewrite <- (on_objects_dict (dense a0 (0, 0, 0)) st1). now rewrite E1. }
  assert (D3 : in_activation st3 = in_activation st2).
  { rewrite <- (on_objects_dict (size5 d) st2). now rewrite E2. }
  assert (D4 : in_activation st4 = in_activation st3).
  { destruct (stride =? 1).
    - apply bind_inv in E3 as (st4' & col & E3 & E3').
      injection E3' as <- _.
      rewrite <- (on_objects_dict (im2col_3d a0 K stride (K / 2)) st3).
      now rewrite E3.
    - now injection E3 as <- _. }
  destruct j as [|j].
  - injection Hj as <-. rewrite Z.add_0_r.
    pose proof (in_hook_from_frame name 0 K stride input (i + 1) st4
                  (Nat.le_0_l _)) as (_ & _ & F).
    rewrite E4 in F. cbn [fst] in F. rewrite F.
    + rewrite D4, D3, D2, D1, dict_get_set. now rewrite String.eqb_refl.
    + intros j' Hj' Ek. apply activation_key_inj in Ek. lia.
  - rewrite Nat2Z.inj_succ.
    replace (i + Z.succ (Z.of_nat j)) with (i + 1 + Z.of_nat j) by lia.
    apply (IH (i + 1) st4 st5 more E4 j a Hj).
Qed.

(** X7.  The hook never changes an object that was on the heap when it
    was called, and of the dictionary [in_activation] it changes only
    the entries [name.0], [name.1], ... of its inputs, whatever the
    kernel size, the stride and the outcome; when it returns, the entry
    [name.i] holds input [i]. *)
Theorem hook_writes_only_its_entries name (st : hook_state elt) input K stride :
  let st' := fst (in_hook name input K stride st) in
  (forall a' o, objects st !! a' = Some o -> objects st' !! a' = Some o)
  /\ (forall k, (forall i, 0 <= i < Z.of_nat (length input) ->
                           k <> activation_key name i) ->
        dict_get k (in_activation st') = dict_get k (in_activation st))
  /\ (forall saved, snd (in_hook name input K stride st) = inr saved ->
      forall i a, input !! i = Some a ->
        dict_get (activation_key name (Z.of_nat i)) (in_activation st')
        = Some a).
Proof.
  intros st'. subst st'. unfold in_hook.
  destruct (in_hook_from_frame name (length (objects st)) K stride input 0 st
              (Nat.le_refl _)) as (Ht & Hl & F).
  split; [|split].
  - intros a' o Ho. rewrite firstn_all in Ht.
    rewrite <- (take_drop (length (objects st))
                  (objects (fst (in_hook_from name 0 input K stride st)))), Ht.
    now apply lookup_app_l_Some.
  - exact F.
  - intros saved E i a Hi.
    destruct (in_hook_from name 0 input K stride st) as [st' r] eqn:Er.
    cbn [fst snd] in *. subst r.
    apply (in_hook_from_entries name K stride input 0 st st' saved Er i a Hi).
Qed.

(** ** Layout of the exported weight *)

(** X8.  For a kernel of shape [(kv, Cin, Cout)] the exported matrix
    has shape [(Cin * kv, Cout)] and its row [i * kv + k] is the
    kernel's [(k, i, :)]: with [kv = K * K * K] the rows enumerate
    (channel, kz, ky, kx) with the channel outermost, the order of the
    columns of the patch matrix. *)
Theorem weight_rows_match_patch_columns (kernel : tensor elt) kv Cin Cout :
  shape kernel = [kv; Cin; Cout] -> 0 < kv -> 0 < Cin -> 0 < Cout ->
  exists w,
    export_weight kernel = inr w
    /\ shape w = [Cin * kv; Cout]
    /\ (forall i k o, 0 <= i < Cin -> 0 <= k < kv -> 0 <= o < Cout ->
          get w [i * kv + k; o] = get kernel [k; i; o])
    /\ forall K ch kz ky kx o,
         kv = K * K * K -> in_range [Cin; K; K; K] [ch; kz; ky; kx] ->
         0 <= o < Cout ->
         get w [ravel [Cin; K; K; K] [ch; kz; ky; kx]; o]
         = get kernel [ravel [K; K; K] [kz; ky; kx]; ch; o].
Proof.
  intros Hs Hkv HCin HCout.
  assert (Hel : forall w,
            w = {| shape := [Cin * kv; Cout];
                   get := fun idx =>
                     get kernel (swap 0 1 (unravel [Cin; kv; Cout]
                                             (ravel [Cin * kv; Cout] idx))) |} ->
            forall i k o, 0 <= i < Cin -> 0 <= k < kv -> 0 <= o < Cout ->
              get w [i * kv + k; o] = get kernel [k; i; o]).
  { intros w -> i k o Hi Hk Ho. cbn [get].
    replace (ravel [Cin * kv; Cout] [i * kv + k; o])
      with (ravel [Cin; kv; Cout] [i; k; o]) by (cbn [ravel numel foldr]; ring).
    rewrite unravel_ravel; [reflexivity|].
    repeat (apply in_range_cons; [lia|]). constructor. }
  unfold export_weight, transpose. rewrite Hs. cbn [length].
  rewrite decide_True by lia. cbn [shape].
  change (swap 0 1 [kv; Cin; Cout]) with [Cin; kv; Cout].
  change (list.last [Cin; kv; Cout]) with (Some Cout).
  unfold view. cbn [shape get].
  rewrite (infer_shape_first _ Cout (Cin * kv))
    by (try lia; cbn [numel foldr]; ring).
  eexists. split; [reflexivity|]. split; [reflexivity|]. split.
  - now apply Hel.
  - intros K ch kz ky kx o HK Hin Ho.
    apply in_range_inv in Hin as [Hch Hin].
    pose proof (ravel_bound _ _ Hin) as Hb.
    replace (numel [K; K; K]) with kv in Hb by (subst kv; cbn [numel foldr]; ring).
    rewrite <- (Hel _ eq_refl ch (ravel [K; K; K] [kz; ky; kx]) o Hch Hb Ho).
    f_equal. f_equal. subst kv. cbn [ravel numel foldr]. ring.
Qed.

(** X9.  For a kernel with two axes, shape [(d0, d1)], the export is
    the plain transpose: a matrix of shape [(d1, d0)], whose last
    dimension is the kernel's first axis. *)
Theorem weight_export_of_matrix_is_transpose (kernel : tensor elt) d0 d1 :
  shape kernel = [d0; d1] -> 0 < d0 -> 0 < d1 ->
  exists w,
    export_weight kernel = inr w
    /\ shape w = [d1; d0]
    /\ forall i j, 0 <= i < d0 -> 0 <= j < d1 ->
         get w [j; i] = get kernel [i; j].
Proof.
  intros Hs H0 H1.
  unfold export_weight, transpose. rewrite Hs. cbn [length].
  rewrite decide_True by lia. cbn [shape].
  change (swap 0 1 [d0; d1]) with [d1; d0].
  change (list.last [d1; d0]) with (Some d0).
  unfold view. cbn [shape get].
  rewrite (infer_shape_first _ d0 d1) by (try lia; cbn [numel foldr]; ring).
  eexists. split; [reflexivity|]. split; [reflexivity|].
  intros i j Hi Hj. cbn [get].
  rewrite unravel_ravel; [reflexivity|].
  repeat (apply in_range_cons; [lia|]). constructor.
Qed.


End Extras.

(** * Further properties of the colour normalisation *)

Section ColorExtras.
Context {elt : Type} `{!ColorArith elt}.

(** X10.  On a tensor of an integer dtype the in-place arithmetic is
    refused: [normalize_color] raises [RuntimeError] and the tensor is
    left as it was, with or without the [0, 255] flag. *)
Theorem normalize_color_rejects_integers (h : list (color_tensor elt))
  (color : addr) (t : color_tensor elt) (flag : bool) :
  h !! color = Some t -> is_floating (c_dtype t) = false ->
  normalize_color color flag h = (h, inl RuntimeError).
Proof.
  intros Hc Hf. unfold normalize_color.
  destruct flag.
  - apply bind_err. unfold idiv_255. now rewrite Hc, Hf.
  - rewrite (bind_ok _ _ h h tt eq_refl).
    apply bind_err. unfold isub_half. now rewrite Hc, Hf.
Qed.

(** X11.  The tensor returned shares its storage with the argument
    exactly when the argument is float32: then no tensor is allocated
    and the value returned is the argument itself; for another floating
    dtype one new float32 tensor is allocated and returned, and the
    argument keeps its dtype. *)
Theorem normalize_color_aliases_float32 (h : list (color_tensor elt))
  (color : addr) (t : color_tensor elt) (flag : bool) :
  h !! color = Some t -> is_floating (c_dtype t) = true ->
  exists h' r t',
    normalize_color color flag h = (h', inr r)
    /\ h' !! color = Some t' /\ c_dtype t' = c_dtype t
    /\ (c_dtype t = Float32 -> r = color /\ length h' = length h)
    /\ (c_dtype t <> Float32 ->
        r = length h /\ length h' = S (length h)
        /\ exists tr, h' !! r = Some tr /\ c_dtype tr = Float32).
Proof.
  intros Hc Hf.
  pose proof (lookup_lt_Some _ _ _ Hc) as Hlt.
  set (t1 := if flag then map_elements (div_255 (c_dtype t)) t else t).
  set (h1 := if flag then <[color := t1]> h else h : list (color_tensor elt)).
  assert (E1 : (if flag then idiv_255 color else ret tt) h = (h1, inr tt)).
  { unfold h1, t1. destruct flag; [|reflexivity]. unfold idiv_255. now rewrite Hc, Hf. }
  assert (H1 : h1 !! color = Some t1 /\ length h1 = length h
               /\ c_dtype t1 = c_dtype t).
  { unfold h1, t1. destruct flag; [|auto].
    rewrite list_lookup_insert_eq by exact Hlt. now rewrite length_insert. }
  destruct H1 as (Hc1 & Hlen1 & Hdt1).
  set (t2 := map_elements (sub_half (c_dtype t1)) t1).
  set (h2 := <[color := t2]> h1 : list (color_tensor elt)).
  assert (E2 : isub_half color h1 = (h2, inr tt)).
  { assert (Hf1 : is_floating (c_dtype t1) = true) by now rewrite Hdt1.
    unfold isub_half. now rewrite Hc1, Hf1. }
  assert (Hc2 : h2 !! color = Some t2).
  { unfold h2. now rewrite list_lookup_insert_eq by lia. }
  assert (Hlen2 : length h2 = length h) by (unfold h2; now rewrite length_insert).
  assert (Hdt2 : c_dtype t2 = c_dtype t) by exact Hdt1.
  unfold normalize_color.
  rewrite (bind_ok _ _ _ _ _ E1), (bind_ok _ _ _ _ _ E2).
  unfold float. rewrite Hc2.
  destruct (c_dtype t2) eqn:Hd.
  - exists h2, color, t2. repeat split; auto; congruence.
  - exists (h2 ++ [float_of t2]), (length h2), t2.
    split; [reflexivity|]. split; [now apply lookup_app_l_Some|].
    split; [congruence|]. split; [congruence|]. intros _.
    split; [exact Hlen2|]. split; [rewrite length_app; simpl; lia|].
    exists (float_of t2). split.
    + rewrite lookup_app_r by lia. now rewrite Nat.sub_diag.
    + unfold float_of. now rewrite Hd.
  - rewrite <- Hdt2 in Hf. discriminate.
Qed.

End ColorExtras.

(** * Witnesses of the further properties *)

Lemma extractor_returns_iff_witness :
  (exists h' t, im2col_3d 0%nat 3 1 1 [OSparse (two_voxel 5 7)] = (h', inr t))
  <-> 3 - 1 <= 2 * Z.max 0 1.
Proof.
  apply (extractor_returns_iff (elt := Z) [OSparse (two_voxel 5 7)] 0%nat
           (two_voxel 5 7) 1 3 1); [reflexivity | solve_wf | lia].
Defined.

Lemma extractor_raises_on_small_padding_witness :
  exists h',
    im2col_3d 0%nat 3 1 0 [OSparse (two_voxel 5 7)] = (h', inl IndexError).
Proof.
  apply (extractor_raises_on_small_padding (elt := Z)
           [OSparse (two_voxel 5 7)] 0%nat (two_voxel 5 7) 1 3 0);
    [reflexivity | solve_wf | lia | lia].
Defined.

Lemma patch_reads_dense_or_zero_witness :
  exists h' t,
    im2col_3d 0%nat 3 1 1 [OSparse (two_voxel 5 7)] = (h', inr t)
    /\ forall b z y x ch kz ky kx,
         (b, z, y, x) ∈ locations (two_voxel 5 7) ->
         0 <= ch < 1 -> 0 <= kz < 3 -> 0 <= ky < 3 -> 0 <= kx < 3 ->
         let q := Z.max 0 1 in
         let inside := 0 <= z + kz - q < grid_z (two_voxel 5 7)
                       /\ 0 <= y + ky - q < grid_y (two_voxel 5 7)
                       /\ 0 <= x + kx - q < grid_x (two_voxel 5 7) in
         (inside ->
          get t [row_of (two_voxel 5 7) 1 3 b z y x;
                 ravel [1; 3; 3; 3] [ch; kz; ky; kx]]
          = get (dense_tensor (two_voxel 5 7))
              [b; ch; z + kz - q; y + ky - q; x + kx - q])
         /\ (~ inside ->
             get t [row_of (two_voxel 5 7) 1 3 b z y x;
                    ravel [1; 3; 3; 3] [ch; kz; ky; kx]]
             = 0).
Proof.
  apply (patch_reads_dense_or_zero (elt := Z) [OSparse (two_voxel 5 7)] 0%nat
           (two_voxel 5 7) 1 3 1); [reflexivity | solve_wf | lia | solve_fits].
Defined.

Lemma own_cell_in_row_witness :
  exists h' t,
    im2col_3d 0%nat 3 1 (3 / 2) [OSparse (two_voxel 5 7)] = (h', inr t)
    /\ forall b z y x ch,
         (b, z, y, x) ∈ locations (two_voxel 5 7) -> 0 <= ch < 1 ->
         get t [row_of (two_voxel 5 7) (3 / 2) 3 b z y x;
                ravel [1; 3; 3; 3] [ch; 3 / 2; 3 / 2; 3 / 2]]
         = get (dense_tensor (two_voxel 5 7)) [b; ch; z; y; x]
         /\ (get (dense_tensor (two_voxel 5 7)) [b; ch; z; y; x] <> 0 ->
             to_matrix t !! Z.to_nat (row_of (two_voxel 5 7) (3 / 2) 3 b z y x)
             <> Some (replicate (Z.to_nat (1 * 3 * 3 * 3)) 0)).
Proof.
  apply (own_cell_in_row (elt := Z) [OSparse (two_voxel 5 7)] 0%nat
           (two_voxel 5 7) 1 3); [reflexivity | solve_wf | lia].
Defined.


Lemma hook_saves_one_array_per_input_witness :
  (exists st' saved,
     in_hook "conv1" [0%nat; 1%nat] 3 1 two_voxel_state = (st', inr saved)
     /\ map fst saved = seqZ 0 (Z.of_nat (length [0%nat; 1%nat]))
     /\ Forall2 (fun a iM =>
          result_matrix (im2col_3d a 3 1 (3 / 2) (objects two_voxel_state))
          = Some (snd iM))
          [0%nat; 1%nat] saved)
  /\ forall stride, stride <> 1 ->
       exists st', in_hook "conv1" [0%nat; 1%nat] 3 stride two_voxel_state
                   = (st', inr []).
Proof.
  apply (hook_saves_one_array_per_input (elt := Z) "conv1" two_voxel_state 3
           [0%nat; 1%nat]); [lia|].
  repeat constructor.
  - exists (two_voxel 5 7), 1. split; [reflexivity | solve_wf].
  - exists (two_voxel_shuffled 5 7), 1. split; [reflexivity | solve_wf].
Defined.

Lemma hook_writes_only_its_entries_witness :
  objects (fst (in_hook "conv1" [0%nat; 1%nat] 3 1 two_voxel_state)) !! 0%nat
  = Some (OSparse (two_voxel 5 7))
  /\ dict_get "conv2.0"
       (in_activation (fst (in_hook "conv1" [0%nat; 1%nat] 3 1 two_voxel_state)))
     = None
  /\ dict_get "conv1.1"
       (in_activation (fst (in_hook "conv1" [0%nat; 1%nat] 3 1 two_voxel_state)))
     = Some 1%nat.
Proof.
  destruct (hook_writes_only_its_entries (elt := Z) "conv1" two_voxel_state
              [0%nat; 1%nat] 3 1) as (Hobj & Hother & Hown).
  split; [|split].
  - apply Hobj. reflexivity.
  - rewrite Hother; [reflexivity|].
    intros i Hi. assert (i = 0 \/ i = 1) as [-> | ->] by (cbn in Hi; lia);
      vm_compute; discriminate.
  - destruct (in_hook "conv1" [0%nat; 1%nat] 3 1 two_voxel_state)
      as [st' [e|saved]] eqn:E.
    + exfalso. apply (f_equal (fun r => match snd r with inl _ => true
                                          | inr _ => false end)) in E.
      vm_compute in E. discriminate.
    + apply (Hown saved eq_refl 1%nat 1%nat). reflexivity.
Defined.

Lemma weight_rows_match_patch_columns_witness :
  exists w,
    export_weight sample_kernel = inr w
    /\ shape w = [3 * 2; 4]
    /\ (forall i k o, 0 <= i < 3 -> 0 <= k < 2 -> 0 <= o < 4 ->
          get w [i * 2 + k; o] = get sample_kernel [k; i; o])
    /\ forall K ch kz ky kx o,
         2 = K * K * K -> in_range [3; K; K; K] [ch; kz; ky; kx] ->
         0 <= o < 4 ->
         get w [ravel [3; K; K; K] [ch; kz; ky; kx]; o]
         = get sample_kernel [ravel [K; K; K] [kz; ky; kx]; ch; o].
Proof.
  apply (weight_rows_match_patch_columns (elt := Z) sample_kernel 2 3 4);
    [reflexivity | lia | lia | lia].
Defined.

Lemma weight_export_of_matrix_is_transpose_witness :
  exists w,
    export_weight sample_matrix_kernel = inr w
    /\ shape w = [3; 2]
    /\ forall i j, 0 <= i < 2 -> 0 <= j < 3 ->
         get w [j; i] = get sample_matrix_kernel [i; j].
Proof.
  apply (weight_export_of_matrix_is_transpose (elt := Z) sample_matrix_kernel
           2 3); [reflexivity | lia | lia].
Defined.

Lemma normalize_color_rejects_integers_witness :
  normalize_color 0%nat true [sample_int_color]
  = ([sample_int_color], inl RuntimeError).
Proof.
  apply (normalize_color_rejects_integers (elt := fval) [sample_int_color] 0%nat
           sample_int_color true); reflexivity.
Defined.

Lemma normalize_color_aliases_float32_witness :
  exists h' r t',
    normalize_color 0%nat true [sample_color] = (h', inr r)
    /\ h' !! 0%nat = Some t' /\ c_dtype t' = c_dtype sample_color
    /\ (c_dtype sample_color = Float32 ->
        r = 0%nat /\ length h' = length [sample_color])
    /\ (c_dtype sample_color <> Float32 ->
        r = length [sample_color] /\ length h' = S (length [sample_color])
        /\ exists tr, h' !! r = Some tr /\ c_dtype tr = Float32).
Proof.
  apply (normalize_color_aliases_float32 (elt := fval) [sample_color] 0%nat
           sample_color true); reflexivity.
Defined.

(** * Output directories *)

Module FilesProperties.
Import stdpp.strings stdpp.gmap.
Import Files.

Lemma app_ne_self (q k : path) : k <> [] -> q ++ k <> q.
Proof.
  intros Hk E. apply Hk. apply (app_inv_head q). now rewrite app_nil_r.
Qed.

(** Below directories and missing entries, [mkdirs] creates every
    directory down to the leaf and touches nothing else. *)
Lemma mkdirs_creates (rest : path) :
  forall (done : path) (m : gmap path entry),
    rest <> [] ->
    m !! (done ++ rest) = None ->
    (forall k1 k2, rest = k1 ++ k2 -> k1 <> [] -> k2 <> [] ->
       m !! (done ++ k1) <> Some File) ->
    exists m',
      mkdirs done rest m = inr m'
      /\ (forall k1 k2, rest = k1 ++ k2 -> k1 <> [] ->
            m' !! (done ++ k1) = Some Dir)
      /\ (forall q e, m !! q = Some e -> m' !! q = Some e)
      /\ (forall q, (forall k1 k2, rest = k1 ++ k2 -> k1 <> [] ->
                       q <> done ++ k1) ->
            m' !! q = m !! q).
Proof.
  induction rest as [|c rest IH]; intros done m Hne Hleaf Hfile; [congruence|].
  cbn [mkdirs]. cbv zeta.
  assert (Hq : forall k, done ++ c :: k = (done ++ [c]) ++ k).
  { intros k. now rewrite <- app_assoc. }
  remember (done ++ [c]) as q eqn:Eq in *.
  destruct rest as [|c' rest'].
  - (* the leaf *)
    rewrite <- Eq in Hleaf. rewrite Hleaf. cbn [mkdirs].
    exists (<[q := Dir]> m). split; [reflexivity|]. split; [|split].
    + intros k1 k2 E Hk1. destruct k1 as [|x k1]; [congruence|].
      injection E as -> E. destruct k1; [|discriminate].
      rewrite <- Eq. apply lookup_insert_eq.
    + intros p e Hp. rewrite lookup_insert_ne; [exact Hp|]. congruence.
    + intros p Hp. apply lookup_insert_ne.
      intros Hq'. apply (Hp [c] [] eq_refl); [discriminate|]. congruence.
  - assert (Hrec : forall m1,
              m1 !! (q ++ c' :: rest') = None ->
              (forall k, k <> [] -> m1 !! (q ++ k) = m !! (q ++ k)) ->
              m1 !! q = Some Dir ->
              (forall p e, m !! p = Some e -> m1 !! p = Some e) ->
              (forall p, p <> q -> m1 !! p = m !! p) ->
              exists m',
                mkdirs q (c' :: rest') m1 = inr m'
                /\ (forall k1 k2, c :: c' :: rest' = k1 ++ k2 -> k1 <> [] ->
                      m' !! (done ++ k1) = Some Dir)
                /\ (forall p e, m !! p = Some e -> m' !! p = Some e)
                /\ (forall p, (forall k1 k2, c :: c' :: rest' = k1 ++ k2 ->
                                 k1 <> [] -> p <> done ++ k1) ->
                      m' !! p = m !! p)).
    { intros m1 Hl1 Hsame Hdir Hmono Hoff.
      destruct (IH q m1 ltac:(discriminate) Hl1) as (m' & E & Hd & Hk & Ho).
      { intros k1 k2 E Hk1 Hk2. rewrite (Hsame k1 Hk1), <- Hq.
        apply (Hfile (c :: k1) k2); [now rewrite E|discriminate|exact Hk2]. }
      exists m'. split; [exact E|]. split; [|split].
      - intros k1 k2 E' Hk1. destruct k1 as [|x k1]; [congruence|].
        injection E' as -> E'. rewrite Hq. destruct k1 as [|y k1].
        + rewrite app_nil_r. apply Hk. exact Hdir.
        + apply (Hd (y :: k1) k2 E'). discriminate.
      - intros p e Hp. apply Hk, Hmono, Hp.
      - intros p Hp. rewrite Ho.
        + apply Hoff. intros ->. apply (Hp [c] (c' :: rest') eq_refl); [discriminate|].
          exact Eq.
        + intros k1 k2 E' Hk1 ->. apply (Hp (c :: k1) k2); [now rewrite E'|discriminate|].
          now rewrite Hq. }
    destruct (m !! q) as [[|]|] eqn:Emq.
    + exfalso. apply (Hfile [c] (c' :: rest') eq_refl);
        [discriminate..|now rewrite <- Eq].
    + apply Hrec; auto. now rewrite <- Hq.
    + apply Hrec.
      * rewrite lookup_insert_ne; [now rewrite <- Hq|]. 
        intros E. symmetry in E. revert E. apply app_ne_self. discriminate.
      * intros k Hk. apply lookup_insert_ne.
        intros E. symmetry in E. revert E. now apply app_ne_self.
      * apply lookup_insert_eq.
      * intros p e Hp. rewrite lookup_insert_ne; [exact Hp|]. congruence.
      * intros p Hp. apply lookup_insert_ne. congruence.
Qed.

(** After [mkdirs] the leaf is there. *)
Lemma mkdirs_leaf (rest : path) :
  forall (done : path) (m m' : gmap path entry),
    rest <> [] -> mkdirs done rest m = inr m' ->
    is_Some (m' !! (done ++ rest)).
Proof.
  induction rest as [|c rest IH]; intros done m m' Hne E; [congruence|].
  cbn [mkdirs] in E.
  assert (Hq : done ++ c :: rest = (done ++ [c]) ++ rest)
    by now rewrite <- app_assoc.
  destruct rest as [|c' rest'].
  - destruct (m !! (done ++ [c])) as [[|]|] eqn:Em; try discriminate.
    cbn [mkdirs] in E. injection E as <-. rewrite lookup_insert_eq. eauto.
  - rewrite Hq.
    destruct (m !! (done ++ [c])) as [[|]|] eqn:Em; try discriminate;
      eapply IH; eauto; discriminate.
Qed.

(** A regular file on the way stops [mkdirs]. *)
Lemma mkdirs_blocked (pre : path) :
  forall (done : path) (m : gmap path entry) c rest,
    rest <> [] ->
    m !! (done ++ pre ++ [c]) = Some File ->
    (forall k1 k2, pre = k1 ++ k2 -> k1 <> [] -> m !! (done ++ k1) = Some Dir) ->
    mkdirs done (pre ++ c :: rest) m = inl NotADirectoryError.
Proof.
  induction pre as [|x pre IH]; intros done m c rest Hr Hf Hd.
  - cbn [app mkdirs] in *. rewrite Hf. destruct rest; [congruence|reflexivity].
  - cbn [app mkdirs].
    rewrite (Hd [x] pre eq_refl ltac:(discriminate)).
    destruct (pre ++ c :: rest) eqn:E; [now destruct pre|]. rewrite <- E.
    apply IH; [exact Hr| |].
    + rewrite <- app_assoc. exact Hf.
    + intros k1 k2 -> Hk1. rewrite <- app_assoc.
      apply (Hd (x :: k1) k2 eq_refl). discriminate.
Qed.

(** X12.  When [dir] is missing and no regular file is on the way,
    [EnsureDirExists] prints its one message and creates [dir] with all
    its missing ancestors; every entry that was there is kept and no
    path off the way to [dir] changes. *)
Theorem ensure_dir_creates (dir : path) (st : os_state) :
  dir <> [] -> entries st !! dir = None ->
  (forall k1 k2, dir = k1 ++ k2 -> k1 <> [] -> k2 <> [] ->
     entries st !! k1 <> Some File) ->
  exists st',
    EnsureDirExists dir st = (st', inr tt)
    /\ (forall k1 k2, dir = k1 ++ k2 -> k1 <> [] ->
          entries st' !! k1 = Some Dir)
    /\ (forall q e, entries st !! q = Some e -> entries st' !! q = Some e)
    /\ (forall q, (forall k2, dir <> q ++ k2) ->
          entries st' !! q = entries st !! q)
    /\ stdout st' = stdout st ++ [String.append "Creating " (render dir)].
Proof.
  intros Hne Hmiss Hfile.
  destruct (mkdirs_creates dir [] (entries st) Hne Hmiss Hfile)
    as (m' & E & Hd & Hk & Ho).
  unfold EnsureDirExists.
  assert (Hex : path_exists (entries st) dir = false).
  { destruct dir; [congruence|]. unfold path_exists.
    apply bool_decide_eq_false. rewrite Hmiss. now intros [? ?]. }
  rewrite Hex. cbn [negb]. unfold makedirs. cbn [print_creating entries stdout].
  destruct dir as [|c dir]; [congruence|]. rewrite E.
  eexists. split; [reflexivity|]. cbn [entries stdout].
  split; [exact Hd|]. split; [exact Hk|]. split; [|reflexivity].
  intros q Hq. apply Ho. intros k1 k2 E' _ ->. now apply (Hq k2).
Qed.

(** X13.  [EnsureDirExists] is idempotent: after a call that returned,
    a second call for the same path returns at once, prints nothing and
    changes nothing. *)
Theorem ensure_dir_idempotent (dir : path) (st st' : os_state) :
  EnsureDirExists dir st = (st', inr tt) ->
  EnsureDirExists dir st' = (st', inr tt).
Proof.
  unfold EnsureDirExists.
  destruct (path_exists (entries st) dir) eqn:Hex; cbn [negb].
  - intros [= <-]. now rewrite Hex.
  - destruct (makedirs dir (entries (print_creating dir st))) as [e|m'] eqn:E;
      [discriminate|].
    intros [= <-]. cbn [entries].
    assert (Hex' : path_exists m' dir = true).
    { destruct dir as [|c dir]; [reflexivity|].
      unfold makedirs in E. unfold path_exists. apply bool_decide_eq_true.
      apply (mkdirs_leaf (c :: dir) [] _ m' ltac:(discriminate) E). }
    now rewrite Hex'.
Qed.

(** X14.  [EnsureDirExists] tests for existence, not for a directory:
    when [dir] is a regular file the call returns as if all were well
    and [dir] is still a file; when a regular file is on the way to the
    missing [dir], the message is printed, [NotADirectoryError] is
    raised and nothing is created. *)
Theorem ensure_dir_and_regular_files (st : os_state) :
  (forall dir, entries st !! dir = Some File ->
     EnsureDirExists dir st = (st, inr tt))
  /\ forall pre c rest,
       rest <> [] ->
       entries st !! (pre ++ [c]) = Some File ->
       (forall k1 k2, pre = k1 ++ k2 -> k1 <> [] ->
          entries st !! k1 = Some Dir) ->
       entries st !! (pre ++ c :: rest) = None ->
       EnsureDirExists (pre ++ c :: rest) st
       = (print_creating (pre ++ c :: rest) st, inl NotADirectoryError).
Proof.
  split.
  - intros dir Hf. unfold EnsureDirExists.
    assert (Hex : path_exists (entries st) dir = true).
    { destruct dir; [reflexivity|]. unfold path_exists.
      apply bool_decide_eq_true. rewrite Hf. eauto. }
    now rewrite Hex.
  - intros pre c rest Hr Hf Hd Hmiss. unfold EnsureDirExists.
    assert (Hex : path_exists (entries st) (pre ++ c :: rest) = false).
    { destruct (pre ++ c :: rest) eqn:E; [now destruct pre|].
      unfold path_exists. apply bool_decide_eq_false. rewrite Hmiss.
      now intros [? ?]. }
    rewrite Hex. cbn [negb]. unfold makedirs. cbn [print_creating entries].
    destruct (pre ++ c :: rest) eqn:E; [now destruct pre|]. rewrite <- E.
    rewrite (mkdirs_blocked pre [] (entries st) c rest Hr Hf Hd). reflexivity.
Qed.

(** ** Witnesses *)

Lemma ensure_dir_creates_witness :
  let dir := ["scratch"; "out"; "weight"]%string in
  exists st',
    EnsureDirExists dir sample_fs = (st', inr tt)
    /\ (forall k1 k2, dir = k1 ++ k2 -> k1 <> [] ->
          entries st' !! k1 = Some Dir)
    /\ (forall q e, entries sample_fs !! q = Some e -> entries st' !! q = Some e)
    /\ (forall q, (forall k2, dir <> q ++ k2) ->
          entries st' !! q = entries sample_fs !! q)
    /\ stdout st' = stdout sample_fs ++ [String.append "Creating " (render dir)].
Proof.
  intros dir.
  apply (ensure_dir_creates dir sample_fs);
    [discriminate | vm_compute; reflexivity |].
  intros k1 k2 E _ Hk2.
  destruct k1 as [|c1 [|c2 [|c3 k1]]]; cbn in E.
  - vm_compute. discriminate.
  - injection E as <- _. vm_compute. discriminate.
  - injection E as <- <- _. vm_compute. discriminate.
  - injection E as _ _ _ E. destruct k1; [|discriminate].
    cbn in E. subst k2. now destruct Hk2.
Defined.

Lemma ensure_dir_idempotent_witness :
  let dir := ["scratch"; "out"]%string in
  EnsureDirExists dir (fst (EnsureDirExists dir sample_fs))
  = (fst (EnsureDirExists dir sample_fs), inr tt).
Proof.
  intros dir.
  apply (ensure_dir_idempotent dir sample_fs). vm_compute. reflexivity.
Defined.

Lemma ensure_dir_and_regular_files_witness :
  EnsureDirExists ["scratch"; "notes"]%string sample_fs = (sample_fs, inr tt)
  /\ EnsureDirExists ["scratch"; "notes"; "x"; "y"]%string sample_fs
     = (print_creating ["scratch"; "notes"; "x"; "y"]%string sample_fs,
        inl NotADirectoryError).
Proof.
  destruct (ensure_dir_and_regular_files sample_fs) as [H1 H2]. split.
  - apply H1. vm_compute. reflexivity.
  - apply (H2 ["scratch"%string] "notes"%string ["x"; "y"]%string);
      [discriminate | vm_compute; reflexivity | | vm_compute; reflexivity].
    intros k1 k2 E Hk1.
    destruct k1 as [|c1 [|c2 k1]]; [congruence| |]; cbn in E.
    + injection E as <- _. vm_compute. reflexivity.
    + injection E as _ E. discriminate.
Defined.

End FilesProperties.

(** * Class labels and colours *)

Module LabelsProperties.
Import stdpp.strings stdpp.gmap.
Import Labels.
Local Open Scope Z_scope.

Lemma class_color_table :
  Forall (fun l => exists c, class_color l = inr c /\ is_byte_triple c)
         (seqZ 0 20).
Proof.
  vm_compute seqZ.
  repeat (constructor;
          [eexists; split; [vm_compute; reflexivity|unfold is_byte_triple; cbn; lia]|]).
  constructor.
Qed.

Lemma class_color_defined l :
  0 <= l < 20 -> exists c, class_color l = inr c /\ is_byte_triple c.
Proof.
  intros Hl. pose proof class_color_table as H.
  rewrite list.Forall_forall in H. apply H. apply elem_of_seqZ. lia.
Qed.

(** X15.  For predictions in [0, 20), the classes of the network, the
    colour lookup of the script never raises: every prediction gets a
    colour with components in [0, 255]; a prediction of 20 or more
    raises the [IndexError] of the list.  The tables of labels and of class ids have
    the same length. *)
Theorem prediction_colors_defined (pred : list Z) :
  Forall (fun l => 0 <= l < 20) pred ->
  (exists cs, prediction_colors pred = inr cs
              /\ length cs = length pred /\ Forall is_byte_triple cs)
  /\ (forall l, 20 <= l -> class_color l = inl ListIndexError)
  /\ length CLASS_LABELS = length VALID_CLASS_IDS.
Proof.
  intros Hp. split; [|split; [|reflexivity]].
  - induction Hp as [|l pred Hl _ (cs & E & Hlen & Hb)].
    + exists []. repeat split. constructor.
    + destruct (class_color_defined l Hl) as (c & Ec & Hc).
      exists (c :: cs). cbn [prediction_colors]. rewrite Ec, E.
      repeat split; [simpl; now rewrite Hlen|now constructor].
  - intros l Hl. unfold class_color, list_item.
    change (Z.of_nat (length VALID_CLASS_IDS)) with 20.
    assert (E1 : (l <? 0) = false) by (apply Z.ltb_ge; lia).
    assert (E2 : (0 <=? l) && (l <? 20) = false).
    { apply andb_false_iff. right. apply Z.ltb_ge. lia. }
    now rewrite E1, E2.
Qed.

(** X16.  Distinct classes are drawn in distinct colours. *)
Theorem class_colors_distinct (l1 l2 : Z) :
  0 <= l1 < 20 -> 0 <= l2 < 20 -> l1 <> l2 -> class_color l1 <> class_color l2.
Proof.
  intros H1 H2 Hne E. apply Hne.
  assert (Hnd : NoDup (map class_color (seqZ 0 20))).
  { apply (bool_decide_unpack _). vm_compute. reflexivity. }
  assert (Hl : forall l, 0 <= l < 20 ->
             map class_color (seqZ 0 20) !! Z.to_nat l = Some (class_color l)).
  { intros l Hl. change (map class_color (seqZ 0 20)) with (class_color <$> seqZ 0 20).
    rewrite list_lookup_fmap, lookup_seqZ_lt by lia. simpl.
    now rewrite Z2Nat.id by lia. }
  assert (Hinj : Z.to_nat l1 = Z.to_nat l2).
  { eapply NoDup_lookup; [exact Hnd|apply (Hl l1 H1)|].
    rewrite E. apply (Hl l2 H2). }
  lia.
Qed.

(** ** Witnesses *)

Lemma prediction_colors_defined_witness :
  (exists cs, prediction_colors [0; 19; 5] = inr cs
              /\ length cs = length [0; 19; 5] /\ Forall is_byte_triple cs)
  /\ (forall l, 20 <= l -> class_color l = inl ListIndexError)
  /\ length CLASS_LABELS = length VALID_CLASS_IDS.
Proof.
  apply (prediction_colors_defined [0; 19; 5]). repeat constructor; lia.
Defined.

Lemma class_colors_distinct_witness : class_color 3 <> class_color 7.
Proof.
  apply (class_colors_distinct 3 7); lia.
Defined.

End LabelsProperties.
